(** * apple_refurb_fixed.py: the refurbished-Mac price monitor

    A shallow embedding of the scraper's fetch / discover / extract /
    aggregate pipeline, and the properties of its specification.

    Layout: Part I embeds the Python runtime pieces the program leans on
    (str as code points, the [re] classes, a backtracking matcher for the
    regex subset the program uses, [int], dicts); Part II embeds the
    program, function by function; Part III holds the lemmas and the
    theorems about the specification's claims, and then further properties
    of the program. *)

From Stdlib Require Import ZArith NArith Lia Bool Ascii String Sorting.Sorted.
From stdpp Require Import base tactics option list numbers strings gmap sorting.

Set Default Proof Using "Type".
#[local] Set Warnings "-clear-no-such-hyp".
Open Scope Z_scope.

(* ===================================================================== *)
(** * Part I.  The Python runtime, as far as the program uses it         *)
(* ===================================================================== *)

(** ** Python [str]: a sequence of Unicode code points *)

Abbreviation char := N.
Abbreviation str := (list N).

(** Source literals are kept readable: [u "..."] decodes the UTF-8 bytes of
    a literal of this file into the code points Python sees. *)
Fixpoint utf8_decode (bs : list N) : str :=
  match bs with
  | [] => []
  | b0 :: r0 =>
    if (b0 <? 0x80)%N then b0 :: utf8_decode r0
    else if (b0 <? 0xE0)%N then
      match r0 with
      | b1 :: r1 => ((b0 - 0xC0) * 64 + (b1 - 0x80))%N :: utf8_decode r1
      | _ => []
      end
    else if (b0 <? 0xF0)%N then
      match r0 with
      | b1 :: b2 :: r2 =>
          ((b0 - 0xE0) * 4096 + (b1 - 0x80) * 64 + (b2 - 0x80))%N :: utf8_decode r2
      | _ => []
      end
    else
      match r0 with
      | b1 :: b2 :: b3 :: r3 =>
          ((b0 - 0xF0) * 262144 + (b1 - 0x80) * 4096 + (b2 - 0x80) * 64 + (b3 - 0x80))%N
            :: utf8_decode r3
      | _ => []
      end
  end.

Fixpoint bytes_of_string (s : string) : list N :=
  match s with
  | EmptyString => []
  | String a s' => N_of_ascii a :: bytes_of_string s'
  end.

Definition u (s : string) : str := utf8_decode (bytes_of_string s).

(** ** Character classes of [re] on [str] patterns (Unicode mode)

    [\s] is [Py_UNICODE_ISSPACE]; [\d] is [Py_UNICODE_ISDECIMAL], the
    characters of category Nd.  Every Nd character sits in a run of ten
    consecutive code points worth 0..9; [decimal_zeros] lists the zero of
    each run (Unicode 14.0, the database of CPython 3.11). *)

Definition unicode_spaces : list char :=
  [0x9; 0xA; 0xB; 0xC; 0xD; 0x1C; 0x1D; 0x1E; 0x1F; 0x20; 0x85; 0xA0; 0x1680;
   0x2000; 0x2001; 0x2002; 0x2003; 0x2004; 0x2005; 0x2006; 0x2007; 0x2008;
   0x2009; 0x200A; 0x2028; 0x2029; 0x202F; 0x205F; 0x3000]%N.

Definition is_space (c : char) : bool := existsb (N.eqb c) unicode_spaces.

Definition decimal_zeros : list char :=
  [0x30; 0x660; 0x6F0; 0x7C0; 0x966; 0x9E6; 0xA66; 0xAE6; 0xB66; 0xBE6; 0xC66;
   0xCE6; 0xD66; 0xDE6; 0xE50; 0xED0; 0xF20; 0x1040; 0x1090; 0x17E0; 0x1810;
   0x1946; 0x19D0; 0x1A80; 0x1A90; 0x1B50; 0x1BB0; 0x1C40; 0x1C50; 0xA620;
   0xA8D0; 0xA900; 0xA9D0; 0xA9F0; 0xAA50; 0xABF0; 0xFF10; 0x104A0; 0x10D30;
   0x11066; 0x110F0; 0x11136; 0x111D0; 0x112F0; 0x11450; 0x114D0; 0x11650;
   0x116C0; 0x11730; 0x118E0; 0x11950; 0x11C50; 0x11D50; 0x11DA0; 0x16A60;
   0x16AC0; 0x16B50; 0x1D7CE; 0x1D7D8; 0x1D7E2; 0x1D7EC; 0x1D7F6; 0x1E140;
   0x1E2F0; 0x1E950; 0x1FBF0]%N.

(** [Py_UNICODE_TODECIMAL]: the digit's value, [None] for a non-digit. *)
Fixpoint decimal_in (zeros : list char) (c : char) : option Z :=
  match zeros with
  | [] => None
  | z :: zs =>
      if ((z <=? c) && (c <? z + 10))%N then Some (Z.of_N (c - z))
      else decimal_in zs c
  end.

Definition decimal_value (c : char) : option Z := decimal_in decimal_zeros c.

Definition is_decimal (c : char) : bool :=
  match decimal_value c with Some _ => true | None => false end.

(** ** [str] methods *)

Fixpoint take_while {A} (p : A → bool) (l : list A) : list A :=
  match l with
  | x :: l' => if p x then x :: take_while p l' else []
  | [] => []
  end.

Fixpoint drop_while {A} (p : A → bool) (l : list A) : list A :=
  match l with
  | x :: l' => if p x then drop_while p l' else l
  | [] => []
  end.

(** [strip_prefix p s = Some r] when [s = p ++ r]. *)
Fixpoint strip_prefix (p s : str) : option str :=
  match p, s with
  | [], _ => Some s
  | a :: p', b :: s' => if (a =? b)%N then strip_prefix p' s' else None
  | _ :: _, [] => None
  end.

(** [s.startswith(p)] *)
Definition startswith (s p : str) : bool :=
  match strip_prefix p s with Some _ => true | None => false end.

(** [needle in hay] *)
Fixpoint contains (needle hay : str) : bool :=
  startswith hay needle ||
  match hay with
  | [] => false
  | _ :: hay' => contains needle hay'
  end.

(** [s.split(sep)[0]] for a one-character separator *)
Definition split_head (sep : char) (s : str) : str :=
  take_while (λ c, negb (c =? sep)%N) s.

(** [s.replace(c, '')] for a one-character [c] *)
Definition remove_char (c : char) (s : str) : str :=
  List.filter (λ x, negb (x =? c)%N) s.

(** ** [int(s)] on a [str], base 10

    Leading and trailing whitespace is skipped, one sign is allowed, the
    digits may be any Unicode decimal digits, single underscores may sit
    between digits.  Anything else raises [ValueError] ([None] here), and so
    does a literal with more digits than the interpreter's limit:
    [int_max_str_digits] is [sys.get_int_max_str_digits()], 4300 by
    default since CPython 3.11, where 0 switches the check off and texts of
    at most 640 digits are never checked. *)

Definition str_digits_check_threshold : nat := 640.

Definition exceeds_digit_limit (int_max_str_digits ndigits : nat) : bool :=
  (0 <? int_max_str_digits)%nat
  && (str_digits_check_threshold <? ndigits)%nat
  && (int_max_str_digits <? ndigits)%nat.

Definition UNDERSCORE : char := 0x5F%N.
Definition PLUS_SIGN : char := 0x2B%N.
Definition MINUS_SIGN : char := 0x2D%N.

(** The digits of a literal, left to right, with the accumulated value and
    the count of digit characters; [prev_us] says the previous character
    was an underscore.  Returns the unread rest. *)
Fixpoint int_digits (s : str) (acc : Z) (n : nat) (prev_us : bool)
  : option (Z * nat * str) :=
  match s with
  | [] => if prev_us then None else Some (acc, n, [])
  | c :: s' =>
      match decimal_value c with
      | Some d => int_digits s' (10 * acc + d) (S n) false
      | None =>
          if (c =? UNDERSCORE)%N then
            if prev_us then None else int_digits s' acc n true
          else if prev_us then None else Some (acc, n, s)
      end
  end.

Definition python_int (int_max_str_digits : nat) (s : str) : option Z :=
  let s1 := drop_while is_space s in
  let '(neg, s2) :=
    match s1 with
    | c :: r => if (c =? MINUS_SIGN)%N then (true, r)
                else if (c =? PLUS_SIGN)%N then (false, r)
                else (false, s1)
    | [] => (false, s1)
    end in
  match s2 with
  | [] => None
  | c :: _ =>
      if is_decimal c then
        match int_digits s2 0 0 false with
        | Some (v, n, rest) =>
            if negb (forallb is_space rest) then None
            else if exceeds_digit_limit int_max_str_digits n then None
            else Some (if neg then - v else v)
        | None => None
        end
      else None
  end.

(** ** The [re] module: the subset of patterns the program uses

    Literals, character classes, sequence, alternation, greedy [*] and [+]
    on a class, greedy [?] and capturing groups.  Every starred item of the
    program's patterns is a single class, so [Star] and [Plus] take one. *)

Inductive regex : Type :=
  | Eps
  | Lit (l : str)
  | Cls (p : char → bool)
  | Seq (r1 r2 : regex)
  | Alt (r1 r2 : regex)
  | Star (p : char → bool)
  | Plus (p : char → bool)
  | Opt (r : regex)
  | Group (n : nat) (r : regex).

Notation "r1 ⋅ r2" := (Seq r1 r2) (at level 41, right associativity).

Abbreviation captures := (gmap nat str).

(** A matcher works on the unread text, with the groups captured so far,
    and hands both to the rest of the pattern; [None] makes it backtrack. *)
Definition cont : Type := str → captures → option (str * captures).

(** Greedy repetition of a class: the longest run first, then shorter ones. *)
Fixpoint star (p : char → bool) (s : str) (g : captures) (k : cont)
  : option (str * captures) :=
  match s with
  | c :: s' =>
      if p c then
        match star p s' g k with
        | Some res => Some res
        | None => k s g
        end
      else k s g
  | [] => k s g
  end.

Fixpoint rmatch (r : regex) (s : str) (g : captures) (k : cont)
  : option (str * captures) :=
  match r with
  | Eps => k s g
  | Lit l =>
      match strip_prefix l s with
      | Some s' => k s' g
      | None => None
      end
  | Cls p =>
      match s with
      | c :: s' => if p c then k s' g else None
      | [] => None
      end
  | Seq r1 r2 => rmatch r1 s g (λ s' g', rmatch r2 s' g' k)
  | Alt r1 r2 =>
      match rmatch r1 s g k with
      | Some res => Some res
      | None => rmatch r2 s g k
      end
  | Star p => star p s g k
  | Plus p =>
      match s with
      | c :: s' => if p c then star p s' g k else None
      | [] => None
      end
  | Opt r1 =>
      match rmatch r1 s g k with
      | Some res => Some res
      | None => k s g
      end
  | Group n r1 =>
      rmatch r1 s g
        (λ s' g', k s' (<[n := take (length s - length s') s]> g'))
  end.

(** The match object: where the match starts, and its groups (group 0 is
    the whole match). *)
Record re_match := { m_start : nat; m_groups : captures }.

(** [m.group(n)], for a group that took part in the match. *)
Definition group (m : re_match) (n : nat) : str := default [] (m_groups m !! n).

(** The end of the pattern: the match is found. *)
Definition accept : cont := λ s' g', Some (s', g').

Definition match_here (r : regex) (s : str) : option captures :=
  match rmatch (Group 0 r) s ∅ accept with
  | Some (_, g) => Some g
  | None => None
  end.

(** [re.search]: the first position, left to right, where the pattern
    matches; the empty suffix is tried too. *)
Fixpoint search_from (r : regex) (pos : nat) (s : str) : option re_match :=
  match match_here r s with
  | Some g => Some {| m_start := pos; m_groups := g |}
  | None =>
      match s with
      | [] => None
      | _ :: s' => search_from r (S pos) s'
      end
  end.

Definition search (r : regex) (text : str) : option re_match :=
  search_from r 0 text.

(** The language of a pattern, without the groups ... *)
Fixpoint Matches (r : regex) (s : str) : Prop :=
  match r with
  | Eps => s = []
  | Lit l => s = l
  | Cls p => ∃ c, s = [c] ∧ p c = true
  | Seq r1 r2 => ∃ s1 s2, s = s1 ++ s2 ∧ Matches r1 s1 ∧ Matches r2 s2
  | Alt r1 r2 => Matches r1 s ∨ Matches r2 s
  | Star p => forallb p s = true
  | Plus p => s ≠ [] ∧ forallb p s = true
  | Opt r1 => s = [] ∨ Matches r1 s
  | Group _ r1 => Matches r1 s
  end.

(** ... and with them: [Parses r s g g'] reads [s] as an instance of [r],
    turning the captures [g] into [g']. *)
Fixpoint Parses (r : regex) (s : str) (g g' : captures) : Prop :=
  match r with
  | Eps => s = [] ∧ g' = g
  | Lit l => s = l ∧ g' = g
  | Cls p => (∃ c, s = [c] ∧ p c = true) ∧ g' = g
  | Seq r1 r2 =>
      ∃ s1 s2 g1, s = s1 ++ s2 ∧ Parses r1 s1 g g1 ∧ Parses r2 s2 g1 g'
  | Alt r1 r2 => Parses r1 s g g' ∨ Parses r2 s g g'
  | Star p => forallb p s = true ∧ g' = g
  | Plus p => (s ≠ [] ∧ forallb p s = true) ∧ g' = g
  | Opt r1 => (s = [] ∧ g' = g) ∨ Parses r1 s g g'
  | Group n r1 => ∃ g1, Parses r1 s g g1 ∧ g' = <[n := s]> g1
  end.

(** [mid] is the leftmost stretch of [text] in the language of [r]. *)
Definition leftmost (r : regex) (text pre mid post : str) : Prop :=
  text = pre ++ mid ++ post ∧ Matches r mid ∧
  ∀ pre' mid' post', text = pre' ++ mid' ++ post' → Matches r mid' →
                     (length pre ≤ length pre')%nat.

(** No stretch of [text] is in the language of [r]. *)
Definition nowhere (r : regex) (text : str) : Prop :=
  ∀ pre mid post, text = pre ++ mid ++ post → ¬ Matches r mid.

(** ** Values, dicts, exceptions *)

Inductive value : Type :=
  | VStr (s : str)
  | VInt (z : Z).

(** Truth value of a Python object: an empty str and 0 are false. *)
Definition truthy (v : value) : bool :=
  match v with
  | VStr [] => false
  | VInt 0 => false
  | _ => true
  end.

Abbreviation dict := (gmap string value).

(** [d.get(k)] is [d !! k], with [None] for Python's [None]. *)
Definition truthy_opt (o : option value) : bool :=
  match o with
  | Some v => truthy v
  | None => false
  end.

Inductive exn : Type :=
  | KeyError (k : string)
  | TypeError.

Inductive res (A : Type) : Type :=
  | Ok (a : A)
  | Raise (e : exn).
Arguments Ok {A} a.
Arguments Raise {A} e.

(* ===================================================================== *)
(** * Part II.  The program                                              *)
(* ===================================================================== *)

(** ** What the program does to the outside world

    Requests, sleeps (in milliseconds) and printed lines, in order. *)

Inductive message : Type :=
  | FetchFailed (url : value) (e : str)       (* 获取页面失败 {url}: {e} *)
  | PriceParseFailed (price_str : str)        (* 价格解析失败: {price_str} *)
  | PriceNotFound (url : value)               (* 未找到价格: {url} *)
  | DetailsFailed (url : value)               (* 获取详情失败 {url}: {e} *)
  | Starting (total : nat)                    (* 正在获取 {n} 个商品的详细信息 *)
  | PleaseWait                                (* 这可能需要几分钟时间，请耐心等待... *)
  | Progress (completed total : nat)          (* 进度: {completed}/{total} *)
  | Finished (accepted submitted : nat).      (* 完成! 成功获取 {a}/{n} 个商品 *)

Inductive event : Type :=
  | Get (url : value) (timeout_s : Z)
  | Sleep (ms : Z)
  | Print (m : message).

(** One [requests.get] followed by [raise_for_status]: the body, or the
    exception it raised. *)
Inductive outcome : Type :=
  | Response (text : str)
  | TransportError (e : str).

(** The outcomes of the successive requests one call of [fetch_page] makes,
    by attempt number. *)
Definition network : Type := nat → outcome.

(** ** fetch_page (lines 16-34) *)

Fixpoint fetch_attempts (net : network) (url : value) (retry : Z)
    (attempts : list nat) : option str * list event :=
  match attempts with
  | [] => (None, [])
  | attempt :: later =>
      match net attempt with
      | Response text => (Some text, [Get url 30])
      | TransportError e =>
          if Z.of_nat attempt =? retry - 1
          then (None, [Get url 30; Print (FetchFailed url e)])
          else
            let '(r, tr) := fetch_attempts net url retry later in
            (r, Get url 30 :: Sleep 1000 :: tr)
      end
  end.

(** [for attempt in range(retry)] *)
Definition fetch_page (net : network) (url : value) (retry : Z)
  : option str * list event :=
  fetch_attempts net url retry (seq 0 (Z.to_nat retry)).

(** ** Literals and patterns of the source *)

Definition COMMA : char := 0x2C%N.
Definition QUESTION_MARK : char := 0x3F%N.

Definition REFURB_MARKER : str := Eval vm_compute in u "翻新".
Definition HTTP : str := Eval vm_compute in u "http".
Definition ORIGIN : str := Eval vm_compute in u "https://www.apple.com.cn".
Definition OR_CHAR : str := Eval vm_compute in u "或".
Definition RMB : str := Eval vm_compute in u "RMB".
Definition GB : str := Eval vm_compute in u "GB".
Definition TB : str := Eval vm_compute in u "TB".
Definition UNIFIED_MEMORY : str := Eval vm_compute in u "统一内存".
Definition SOLID_STATE_DRIVE : str := Eval vm_compute in u "固态硬盘".
Definition FIRST_RELEASED : str := Eval vm_compute in u "最初发布于".
Definition YEAR : str := Eval vm_compute in u "年".
Definition INCH : str := Eval vm_compute in u "英寸".
Definition CORES : str := Eval vm_compute in u "核".
Definition CPU_MARKER : str := Eval vm_compute in u "核中央处理器".
Definition GPU_MARKER : str := Eval vm_compute in u "核图形处理器".

Definition digit_or_comma (c : char) : bool := is_decimal c || (c =? COMMA)%N.

(** r'或\s*RMB\s*([\d,]+)' *)
Definition PRICE_OR_RMB : regex :=
  Lit OR_CHAR ⋅ Star is_space ⋅ Lit RMB ⋅ Star is_space
    ⋅ Group 1 (Plus digit_or_comma).

(** r'RMB\s*([\d,]+)' *)
Definition PRICE_RMB : regex :=
  Lit RMB ⋅ Star is_space ⋅ Group 1 (Plus digit_or_comma).

(** r'(\d+)\s*GB\s*统一内存' *)
Definition MEMORY : regex :=
  Group 1 (Plus is_decimal) ⋅ Star is_space ⋅ Lit GB ⋅ Star is_space
    ⋅ Lit UNIFIED_MEMORY.

(** r'(\d+)\s*(GB|TB)\s*固态硬盘' *)
Definition STORAGE : regex :=
  Group 1 (Plus is_decimal) ⋅ Star is_space ⋅ Group 2 (Alt (Lit GB) (Lit TB))
    ⋅ Star is_space ⋅ Lit SOLID_STATE_DRIVE.

(** r'最初发布于\s*(\d{4})\s*年' *)
Definition RELEASE_YEAR : regex :=
  Lit FIRST_RELEASED ⋅ Star is_space
    ⋅ Group 1 (Cls is_decimal ⋅ Cls is_decimal ⋅ Cls is_decimal ⋅ Cls is_decimal)
    ⋅ Star is_space ⋅ Lit YEAR.

(** r'(\d+(?:\.\d+)?)\s*英寸' *)
Definition SCREEN_SIZE : regex :=
  Group 1 (Plus is_decimal ⋅ Opt (Lit (u ".") ⋅ Plus is_decimal))
    ⋅ Star is_space ⋅ Lit INCH.

(** r'Apple (M\d+(?:\s+(?:Pro|Max|Ultra))?)' *)
Definition CHIP : regex :=
  Lit (u "Apple ")
    ⋅ Group 1 (Lit (u "M") ⋅ Plus is_decimal
               ⋅ Opt (Plus is_space
                      ⋅ Alt (Lit (u "Pro")) (Alt (Lit (u "Max")) (Lit (u "Ultra"))))).

(** r'(\d+)\s*核中央处理器' *)
Definition CPU_CORES : regex :=
  Group 1 (Plus is_decimal) ⋅ Star is_space ⋅ Lit CPU_MARKER.

(** r'(\d+)\s*核图形处理器' *)
Definition GPU_CORES : regex :=
  Group 1 (Plus is_decimal) ⋅ Star is_space ⋅ Lit GPU_MARKER.

(** ** parse_product_list (lines 37-63) *)

(** An <a> tag as the HTML collaborator shows it: its href attribute, when
    it has one, and [get_text(strip=True)]. *)
Record anchor := { a_href : option str; a_text : str }.

Section ListDiscoverer.
(** [BeautifulSoup(html, 'html.parser')]: the <a> tags in document order. *)
Variable soup_anchors : str → list anchor.
(** The class [\w] of [re]. *)
Variable is_word : char → bool.

(** r'/shop/product/\w+/a' *)
Definition PRODUCT_HREF : regex :=
  Lit (u "/shop/product/") ⋅ Plus is_word ⋅ Lit (u "/a").

(** [soup.find_all('a', href=re.compile(...))]: the tags whose href the
    pattern is found in, as (href, text). *)
Definition find_all_a (html_content : str) : list (str * str) :=
  omap (λ a,
          match a_href a with
          | Some href =>
              match search PRODUCT_HREF href with
              | Some _ => Some (href, a_text a)
              | None => None
              end
          | None => None
          end)
       (soup_anchors html_content).

Definition normalize_url (href : str) : str :=
  let url := if negb (startswith href HTTP) then ORIGIN ++ href else href in
  split_head QUESTION_MARK url.

Definition candidate (title url : str) : dict :=
  <["title" := VStr title]> (<["url" := VStr url]> ∅).

(** One turn of the loop over [product_links]; the state is
    [(seen_urls, products)]. *)
Definition visit_link (st : gset str * list dict) (link : str * str)
  : gset str * list dict :=
  let '(seen_urls, products) := st in
  let '(href, title) := link in
  if startswith title REFURB_MARKER then
    let url := normalize_url href in
    if bool_decide (url ∉ seen_urls)
    then ({[url]} ∪ seen_urls, products ++ [candidate title url])
    else st
  else st.

Definition parse_product_list (html_content : str) : list dict :=
  (foldl visit_link (∅, []) (find_all_a html_content)).2.
End ListDiscoverer.

(** ** fetch_product_details (lines 66-123) *)

(** Lines 81-84: the pattern with the leading 或 first, the bare one next. *)
Definition price_match (text : str) : option re_match :=
  match search PRICE_OR_RMB text with
  | Some m => Some m
  | None => search PRICE_RMB text
  end.

(** Lines 98-102. *)
Definition memory_of_text (text : str) : str :=
  match search MEMORY text with
  | Some m => group m 1 ++ GB
  | None => []
  end.

(** Lines 105-109. *)
Definition storage_of_text (text : str) : str :=
  match search STORAGE text with
  | Some m => group m 1 ++ group m 2
  | None => []
  end.

(** Lines 112-116. *)
Definition release_year_of_text (text : str) : str :=
  match search RELEASE_YEAR text with
  | Some m => group m 1
  | None => []
  end.

Section DetailPipeline.
(** [BeautifulSoup(html, 'html.parser').get_text()]; [None] when the
    parser raises, which the function's [except Exception] catches. *)
Variable soup_get_text : str → option str.
(** [sys.get_int_max_str_digits()] *)
Variable int_max_str_digits : nat.

Definition fetch_product_details (net : network) (product : dict)
  : option dict * list event :=
  let url := default (VStr []) (product !! "url") in
  if negb (truthy url) then (None, [])
  else
    let '(html, tr) := fetch_page net url 2 in
    match html with
    | None => (None, tr)
    | Some [] => (None, tr)
    | Some html =>
        match soup_get_text html with
        | None => (None, tr ++ [Print (DetailsFailed url)])
        | Some text =>
            match price_match text with
            | Some m =>
                let price_str := remove_char COMMA (group m 1) in
                match python_int int_max_str_digits price_str with
                | Some price =>
                    let product := <["price" := VInt price]> product in
                    let product := <["memory" := VStr (memory_of_text text)]> product in
                    let product := <["storage" := VStr (storage_of_text text)]> product in
                    let product :=
                      <["release_year" := VStr (release_year_of_text text)]> product in
                    (Some product, tr ++ [Sleep 500])
                | None => (None, tr ++ [Print (PriceParseFailed price_str)])
                end
            | None => (None, tr ++ [Print (PriceNotFound url)])
            end
        end
    end.

(** ** process_products_parallel (lines 183-205)

    Task [i] runs [fetch_product_details] on [products[i]] against its own
    requests [nets i]; [order] is the order in which [as_completed] hands
    the futures back, some arrangement of the task numbers.  The main
    thread's printed lines are the trace. *)

Definition collect (nets : nat → network) (products : list dict)
    (st : nat * list dict * list event) (i : nat)
  : nat * list dict * list event :=
  let '(completed, results, log) := st in
  match products !! i with
  | None => st
  | Some product =>
      let completed := S completed in
      let log :=
        if (completed mod 10 =? 0)%nat
        then log ++ [Print (Progress completed (length products))]
        else log in
      match (fetch_product_details (nets i) product).1 with
      | Some result =>
          if bool_decide (result ≠ ∅)
          then (completed, results ++ [result], log)
          else (completed, results, log)
      | None => (completed, results, log)
      end
  end.

Definition process_products_parallel (nets : nat → network)
    (order : list nat) (products : list dict) : list dict * list event :=
  let '(_, results, log) :=
    foldl (collect nets products)
          (0%nat, [], [Print (Starting (length products)); Print PleaseWait]) order in
  (results, log ++ [Print (Finished (length results) (length products))]).
End DetailPipeline.

(** ** extract_basic_details (lines 126-180) *)

Record basic_details := {
  model : str;
  screen_size : str;
  chip : str;
  cpu_cores : str;
  gpu_cores : str;
  color : str
}.

Definition colors : list str :=
  Eval vm_compute in
    [u "深空灰色"; u "深空黑色"; u "银色"; u "星光色"; u "午夜色"; u "天蓝色";
     u "金色"; u "玫瑰金色"].

Definition extract_basic_details (title : str) : basic_details :=
  {| model :=
       if contains (u "MacBook Air") title then u "MacBook Air"
       else if contains (u "MacBook Pro") title then u "MacBook Pro"
       else if contains (u "Mac mini") title then u "Mac mini"
       else if contains (u "Mac Studio") title then u "Mac Studio"
       else if contains (u "Mac Pro") title then u "Mac Pro"
       else if contains (u "iMac") title then u "iMac"
       else if contains (u "显示屏") title || contains (u "Display") title
            then u "显示屏"
       else [];
     screen_size :=
       match search SCREEN_SIZE title with
       | Some m => group m 1 ++ INCH
       | None => []
       end;
     chip :=
       match search CHIP title with
       | Some m => group m 1
       | None => []
       end;
     cpu_cores :=
       match search CPU_CORES title with
       | Some m => group m 1 ++ CORES
       | None => []
       end;
     gpu_cores :=
       match search GPU_CORES title with
       | Some m => group m 1 ++ CORES
       | None => []
       end;
     color :=
       match List.find (λ c, contains c title) colors with
       | Some c => c
       | None => []
       end |}.

(** [details.items()], in the order the keys were put in. *)
Definition items (d : basic_details) : list (string * value) :=
  [("model", VStr (model d)); ("screen_size", VStr (screen_size d));
   ("chip", VStr (chip d)); ("cpu_cores", VStr (cpu_cores d));
   ("gpu_cores", VStr (gpu_cores d)); ("color", VStr (color d))]%string.

(** ** create_dataframe (lines 208-242) *)

(** A cell of a frame: an object of a record (a str or an int), a float64
    where pandas made the column one, or NaN where a record had no such key.
    The floats of this program all come from ints, so a float is given by
    the integer it equals. *)
Inductive cell : Type :=
  | Val (v : value)
  | Flt (f : Z)
  | NaN.

Record DataFrame := {
  df_columns : list string;
  df_index : list nat;
  df_rows : list (gmap string cell)
}.

(** [pd.DataFrame()] *)
Definition empty_frame : DataFrame :=
  {| df_columns := []; df_index := []; df_rows := [] |}.

(** Lines 217-219: fill what is not there yet. *)
Definition fill_key (product : dict) (kv : string * value) : dict :=
  let '(key, value) := kv in
  if bool_decide (key ∉ dom product) || negb (truthy_opt (product !! key))
  then <[key := value]> product
  else product.

(** Lines 214-219 for one product; [product['title']] raises on a record
    with no title, and [in] on a title that is not a str. *)
Definition fill_basic_details (product : dict) : res dict :=
  match product !! "title" with
  | None => Raise (KeyError "title")
  | Some (VInt _) => Raise TypeError
  | Some (VStr title) =>
      Ok (foldl fill_key product (items (extract_basic_details title)))
  end.

Fixpoint fill_all (products : list dict) : res (list dict) :=
  match products with
  | [] => Ok []
  | product :: rest =>
      match fill_basic_details product with
      | Raise e => Raise e
      | Ok product' =>
          match fill_all rest with
          | Raise e => Raise e
          | Ok rest' => Ok (product' :: rest')
          end
      end
  end.

(** [float(z)]: the nearest float64, ties to even; exact below 2^53. *)
Definition float_of_int (z : Z) : Z :=
  let a := Z.abs z in
  if a <? 2 ^ 53 then z
  else
    let ulp := 2 ^ (Z.log2 a - 52) in
    let q := a / ulp in
    let r := a mod ulp in
    let q := if (ulp <? 2 * r) || ((2 * r =? ulp) && Z.odd q) then q + 1 else q in
    Z.sgn z * (q * ulp).

Definition INT64_MIN : Z := - 2 ^ 63.
Definition INT64_MAX : Z := 2 ^ 63 - 1.
Definition UINT64_MAX : Z := 2 ^ 64 - 1.

Definition is_missing (o : option value) : bool :=
  match o with
  | None => true
  | Some _ => false
  end.

(** The dtype pandas infers for a column of a frame made from records: a
    column in which some record has nothing becomes float64 when all that
    is there is ints that int64 or uint64 can hold; any other column keeps
    the records' objects (as int64, uint64 or object, which show an int as
    itself). *)
Definition float64_column (column : list (option value)) : bool :=
  existsb is_missing column
  && forallb (λ o, match o with
                   | Some (VStr _) => false
                   | Some (VInt z) => (INT64_MIN <=? z) && (z <=? UINT64_MAX)
                   | None => true
                   end) column
  && negb (existsb (λ o, match o with Some (VInt z) => z <? 0 | _ => false end) column
           && existsb (λ o, match o with Some (VInt z) => INT64_MAX <? z | _ => false end)
                      column).

(** The cell of column [c] for a record that has [v] there. *)
Definition column_cell (products : list dict) (c : string) (v : option value) : cell :=
  match v with
  | None => NaN
  | Some (VStr s) => Val (VStr s)
  | Some (VInt z) =>
      if float64_column (map (λ p : dict, p !! c) products)
      then Flt (float_of_int z)
      else Val (VInt z)
  end.

(** [pd.DataFrame(products)]: one column per key that occurs, one row per
    record, NaN where a record lacks the key.  pandas lists the columns as
    the keys first appear; the order here is the maps' own, which line 236
    replaces by [columns_order] before anything reads it. *)
Definition frame_of_records (products : list dict) : DataFrame :=
  let columns := remove_dups (concat (map (λ p : dict, (map_to_list p).*1) products)) in
  {| df_columns := columns;
     df_index := seq 0 (length products);
     df_rows :=
       map (λ p : dict,
              list_to_map (map (λ c, (c, column_cell products c (p !! c))) columns))
           products |}.

Definition required_columns : list string :=
  ["model"; "screen_size"; "chip"; "cpu_cores"; "gpu_cores"; "color";
   "memory"; "storage"; "release_year"; "price"; "title"; "url"]%string.

Definition columns_order : list string :=
  ["model"; "screen_size"; "chip"; "cpu_cores"; "gpu_cores"; "color";
   "memory"; "storage"; "release_year"; "price"; "title"; "url"]%string.

(** Lines 228-230: [if col not in df.columns: df[col] = ''] *)
Definition ensure_column (df : DataFrame) (col : string) : DataFrame :=
  if bool_decide (col ∉ df_columns df)
  then {| df_columns := df_columns df ++ [col];
          df_index := df_index df;
          df_rows := map (insert col (Val (VStr []))) (df_rows df) |}
  else df.

(** [df[cols]]: the listed columns, in the listed order. *)
Definition select_columns (cols : list string) (df : DataFrame) : res DataFrame :=
  match List.find (λ c, bool_decide (c ∉ df_columns df)) cols with
  | Some c => Raise (KeyError c)
  | None =>
      Ok {| df_columns := cols;
            df_index := df_index df;
            df_rows :=
              map (λ row : gmap string cell,
                     list_to_map (omap (λ c, (λ x, (c, x)) <$> row !! c) cols))
                  (df_rows df) |}
  end.

(** [df.take(indexer)]: the rows at the listed positions, in that order. *)
Definition take_rows (indexer : list nat) (df : DataFrame) : DataFrame :=
  {| df_columns := df_columns df;
     df_index := omap (λ i, df_index df !! i) indexer;
     df_rows := omap (λ i, df_rows df !! i) indexer |}.

(** *** [df.sort_values('price')]

    pandas sorts on one column by asking the array library for an indexer
    of it (the positions of the rows, arranged so that the column ascends)
    and taking the rows in that order.  The NaN rows are set apart first
    and come last, in the order they had.  The other cells are compared as
    Python compares them: numbers by value, strs by code points, and a str
    with a number not at all, which raises TypeError.

    The call has pandas's default [kind='quicksort'], which is not a stable
    sort: where two cells are equal, which row comes first is the array
    library's choice.  [tie] stands for that choice: of rows with equal
    cells, the one of lower [tie] comes first (and of equal [tie], the one
    that came first).  Every arrangement that puts the column in ascending
    order is the indexer of some [tie], and of none but those. *)

Inductive sort_key : Type :=
  | KNum (z : Z)
  | KStr (s : str).

Definition key_of_cell (c : cell) : option sort_key :=
  match c with
  | Val (VInt z) => Some (KNum z)
  | Val (VStr s) => Some (KStr s)
  | Flt f => Some (KNum f)
  | NaN => None
  end.

(** [s < t] on strs *)
Fixpoint str_lt (s t : str) : bool :=
  match s, t with
  | _, [] => false
  | [], _ :: _ => true
  | a :: s', b :: t' => (a <? b)%N || ((a =? b)%N && str_lt s' t')
  end.

Definition key_lt (a b : sort_key) : bool :=
  match a, b with
  | KNum x, KNum y => x <? y
  | KStr s, KStr t => str_lt s t
  | _, _ => false
  end.

Definition is_num (k : sort_key) : bool :=
  match k with
  | KNum _ => true
  | KStr _ => false
  end.

Definition tie_before (tie : nat → nat) (i j : nat) : bool :=
  ((tie i <? tie j) || ((tie i =? tie j) && (i <=? j)))%nat.

(** Row [i] with cell [a] may stand before row [j] with cell [b]. *)
Definition entry_before (tie : nat → nat) (x y : nat * sort_key) : bool :=
  key_lt x.2 y.2 || (negb (key_lt y.2 x.2) && tie_before tie x.1 y.1).

Fixpoint insert_by {A} (before : A → A → bool) (x : A) (l : list A) : list A :=
  match l with
  | [] => [x]
  | y :: l' => if before x y then x :: l else y :: insert_by before x l'
  end.

Definition sort_by {A} (before : A → A → bool) (l : list A) : list A :=
  foldr (insert_by before) [] l.

(** Of the rows from position [i] on: those that have a cell, with its key,
    and those with NaN. *)
Fixpoint present (i : nat) (keys : list (option sort_key)) : list (nat * sort_key) :=
  match keys with
  | [] => []
  | Some k :: keys' => (i, k) :: present (S i) keys'
  | None :: keys' => present (S i) keys'
  end.

Fixpoint missing (i : nat) (keys : list (option sort_key)) : list nat :=
  match keys with
  | [] => []
  | Some _ :: keys' => missing (S i) keys'
  | None :: keys' => i :: missing (S i) keys'
  end.

Definition argsort (tie : nat → nat) (keys : list (option sort_key))
  : res (list nat) :=
  let entries := present 0 keys in
  if existsb is_num entries.*2 && existsb (λ k, negb (is_num k)) entries.*2
  then Raise TypeError
  else Ok ((sort_by (entry_before tie) entries).*1 ++ missing 0 keys).

Definition sort_values (tie : nat → nat) (by_column : string) (df : DataFrame)
  : res DataFrame :=
  if bool_decide (by_column ∉ df_columns df) then Raise (KeyError by_column)
  else
    let keys :=
      map (λ row : gmap string cell, key_of_cell (default NaN (row !! by_column)))
          (df_rows df) in
    match argsort tie keys with
    | Raise e => Raise e
    | Ok indexer => Ok (take_rows indexer df)
    end.

(** For reading a price off a row. *)
Definition price_of_row (row : gmap string cell) : option Z :=
  match row !! "price" with
  | Some (Val (VInt p)) => Some p
  | _ => None
  end.

(** [df.reset_index(drop=True)] *)
Definition reset_index (df : DataFrame) : DataFrame :=
  {| df_columns := df_columns df;
     df_index := seq 0 (length (df_rows df));
     df_rows := df_rows df |}.

Definition create_dataframe (tie : nat → nat) (products : list dict)
  : res DataFrame :=
  match products with
  | [] => Ok empty_frame
  | _ :: _ =>
      match fill_all products with
      | Raise e => Raise e
      | Ok products =>
          let df := frame_of_records products in
          let df := foldl ensure_column df required_columns in
          match select_columns columns_order df with
          | Raise e => Raise e
          | Ok df =>
              match sort_values tie "price" df with
              | Raise e => Raise e
              | Ok df => Ok (reset_index df)
              end
          end
      end
  end.

(** ** main (lines 293-372)

    The run up to the frame: lines 299-325.  What follows the frame (the
    preview, [save_results], the statistics) only reads it.  The result says
    at which of the function's returns the run ended; the trace is that of
    the calls it made, the listing request first. *)

Definition LISTING_URL : str :=
  Eval vm_compute in u "https://www.apple.com.cn/shop/refurbished/mac".

Inductive main_result : Type :=
  | NoPage                       (* 无法获取页面内容 *)
  | NoProducts                   (* 未找到任何商品信息 *)
  | NoDetails                    (* 未能成功获取任何商品详情 *)
  | Frame (df : DataFrame)       (* line 325: df = create_dataframe(products) *)
  | Uncaught (e : exn).          (* create_dataframe raised *)

Definition main (soup_anchors : str → list anchor) (is_word : char → bool)
    (soup_get_text : str → option str) (int_max_str_digits : nat)
    (listing : network) (nets : nat → network) (order : list nat)
    (tie : nat → nat)
  : main_result * list event :=
  let '(html_content, tr) := fetch_page listing (VStr LISTING_URL) 3 in
  match html_content with
  | None => (NoPage, tr)
  | Some [] => (NoPage, tr)
  | Some html_content =>
      match parse_product_list soup_anchors is_word html_content with
      | [] => (NoProducts, tr)
      | products =>
          let '(products, log) :=
            process_products_parallel soup_get_text int_max_str_digits nets order
                                      products in
          match products with
          | [] => (NoDetails, tr ++ log)
          | _ =>
              match create_dataframe tie products with
              | Ok df => (Frame df, tr ++ log)
              | Raise e => (Uncaught e, tr ++ log)
              end
          end
      end
  end.

(* ===================================================================== *)
(** * Part III.  Lemmas and theorems                                     *)
(* ===================================================================== *)

(** Membership in a list that is written out. *)
Ltac list_elem := repeat first [apply list_elem_of_here | apply list_elem_of_further].
Ltac list_not_elem :=
  let H := fresh "H" in
  intros H;
  repeat (apply elem_of_cons in H as [H|H]; [discriminate H|]);
  by apply elem_of_nil in H.

(** Refute membership in a list that computes to one written out. *)
Ltac compute_in_list H :=
  vm_compute in H;
  repeat (apply elem_of_cons in H as [H|H]; [discriminate H|]);
  by apply elem_of_nil in H.

(** Evaluate the left-hand side of an equation among the hypotheses. *)
Ltac compute_lhs H :=
  match type of H with
  | ?l = _ => let v := eval vm_compute in l in change l with v in H
  end.

(** ** Lists and [str] methods *)

Lemma take_drop_while {A} (p : A → bool) (l : list A) :
  take_while p l ++ drop_while p l = l.
Proof. induction l as [|x l IH]; simpl; [done|]. destruct (p x); simpl; by rewrite ?IH. Qed.

Lemma take_while_all {A} (p : A → bool) (l : list A) :
  forallb p (take_while p l) = true.
Proof. induction l as [|x l IH]; simpl; [done|]. destruct (p x) eqn:E; simpl; by rewrite ?E. Qed.

Lemma drop_while_head {A} (p : A → bool) (l : list A) x l' :
  drop_while p l = x :: l' → p x = false.
Proof.
  induction l as [|y l IH]; simpl; [done|].
  destruct (p y) eqn:E; [done|]. intros [= -> _]. done.
Qed.

Lemma take_while_app_stop {A} (p : A → bool) (l1 l2 : list A) :
  forallb p l1 = true →
  match l2 with [] => True | x :: _ => p x = false end →
  take_while p (l1 ++ l2) = l1 ∧ drop_while p (l1 ++ l2) = l2.
Proof.
  intros H1 H2. induction l1 as [|x l1 IH]; simpl in *.
  - destruct l2 as [|y l2]; simpl; [done|]. by rewrite H2.
  - apply andb_prop in H1 as [Hx H1]. rewrite Hx.
    destruct (IH H1) as [-> ->]. done.
Qed.

Lemma strip_prefix_Some p s r : strip_prefix p s = Some r ↔ s = p ++ r.
Proof.
  revert s. induction p as [|a p IH]; intros s; simpl.
  - split; [by intros [= ->]|by intros ->].
  - destruct s as [|b s]; [split; done|].
    destruct (N.eqb_spec a b) as [->|Hne].
    + rewrite IH. split; [by intros ->|by intros [= ->]].
    + split; [done|]. intros [= -> _]. done.
Qed.

Lemma strip_prefix_app p r : strip_prefix p (p ++ r) = Some r.
Proof. by apply strip_prefix_Some. Qed.

Lemma startswith_spec s p : startswith s p = true ↔ ∃ r, s = p ++ r.
Proof.
  unfold startswith. destruct (strip_prefix p s) as [r|] eqn:E.
  - apply strip_prefix_Some in E. split; [eauto|done].
  - split; [done|]. intros [r ->]. by rewrite strip_prefix_app in E.
Qed.

Lemma contains_spec needle hay :
  contains needle hay = true ↔ ∃ pre post, hay = pre ++ needle ++ post.
Proof.
  induction hay as [|c hay IH]; simpl.
  - rewrite orb_false_r, startswith_spec. split.
    + intros [r Hr]. by exists [], r.
    + intros (pre & post & H). destruct pre; [by exists post|done].
  - rewrite orb_true_iff, startswith_spec, IH. split.
    + intros [[r Hr]|(pre & post & ->)]; [by exists [], r|by exists (c :: pre), post].
    + intros (pre & post & H). destruct pre as [|c' pre]; simpl in H.
      * left. by exists post.
      * right. injection H as -> ->. by exists pre, post.
Qed.

(** ** The matcher against the patterns' languages *)

Lemma star_sound p s g k res :
  star p s g k = Some res →
  ∃ s1 s2, s = s1 ++ s2 ∧ forallb p s1 = true ∧ k s2 g = Some res.
Proof.
  induction s as [|c s IH]; simpl.
  - intros H. by exists [], [].
  - destruct (p c) eqn:Hc; [|intros H; by exists [], (c :: s)].
    destruct (star p s g k) as [res'|] eqn:E.
    + intros [= ->]. destruct (IH eq_refl) as (s1 & s2 & -> & H1 & H2).
      exists (c :: s1), s2. simpl. by rewrite Hc, H1.
    + intros H. by exists [], (c :: s).
Qed.

Lemma star_extends p s g k : is_Some (k s g) → is_Some (star p s g k).
Proof.
  intros Hk. destruct s as [|c s]; simpl; [done|].
  destruct (p c); [|done]. by destruct (star p s g k).
Qed.

Lemma star_complete p s1 s2 g k :
  forallb p s1 = true → is_Some (k s2 g) → is_Some (star p (s1 ++ s2) g k).
Proof.
  intros H1 Hk. induction s1 as [|c s1 IH]; simpl in *.
  - by apply star_extends.
  - apply andb_prop in H1 as [-> H1].
    destruct (IH H1) as [res ->]. done.
Qed.

Lemma Parses_Matches r s g g' : Parses r s g g' → Matches r s.
Proof.
  revert s g g'.
  induction r as [|l|p|r1 IH1 r2 IH2|r1 IH1 r2 IH2|p|p|r1 IH1|n r1 IH1];
    simpl; intros s g g'.
  - by intros [-> _].
  - by intros [-> _].
  - by intros [H _].
  - intros (s1 & s2 & g1 & -> & H1 & H2). exists s1, s2. eauto.
  - intros [H|H]; eauto.
  - by intros [H _].
  - by intros [H _].
  - intros [[-> _]|H]; eauto.
  - intros (g1 & H & _). eauto.
Qed.

Lemma rmatch_sound r s g k res :
  rmatch r s g k = Some res →
  ∃ s1 s2 g', s = s1 ++ s2 ∧ Parses r s1 g g' ∧ k s2 g' = Some res.
Proof.
  revert s g k res.
  induction r as [|l|p|r1 IH1 r2 IH2|r1 IH1 r2 IH2|p|p|r1 IH1|n r1 IH1];
    intros s g k res; simpl.
  - intros H. by exists [], s, g.
  - destruct (strip_prefix l s) as [s'|] eqn:E; [|done].
    apply strip_prefix_Some in E as ->. intros H. by exists l, s', g.
  - destruct s as [|c s]; [done|]. destruct (p c) eqn:Hc; [|done].
    intros H. exists [c], s, g. naive_solver.
  - intros H. apply IH1 in H as (s1 & s2 & g1 & -> & P1 & H).
    apply IH2 in H as (s3 & s4 & g2 & -> & P2 & H).
    exists (s1 ++ s3), s4, g2. rewrite <-(assoc_L (++)). naive_solver.
  - destruct (rmatch r1 s g k) as [res'|] eqn:E.
    + intros [= ->]. apply IH1 in E as (s1 & s2 & g1 & -> & P1 & H). naive_solver.
    + intros H. apply IH2 in H as (s1 & s2 & g1 & -> & P1 & H). naive_solver.
  - intros H. apply star_sound in H as (s1 & s2 & -> & H1 & H2). by exists s1, s2, g.
  - destruct s as [|c s]; [done|]. destruct (p c) eqn:Hc; [|done].
    intros H. apply star_sound in H as (s1 & s2 & -> & H1 & H2).
    exists (c :: s1), s2, g. simpl. rewrite Hc, H1. done.
  - destruct (rmatch r1 s g k) as [res'|] eqn:E.
    + intros [= ->]. apply IH1 in E as (s1 & s2 & g1 & -> & P1 & H). naive_solver.
    + intros H. exists [], s, g. naive_solver.
  - intros H. apply IH1 in H as (s1 & s2 & g1 & -> & P1 & H).
    rewrite length_app in H.
    replace (length s1 + length s2 - length s2)%nat with (length s1) in H by lia.
    rewrite take_app_length in H. by exists s1, s2, (<[n:=s1]> g1); eauto.
Qed.

Lemma rmatch_complete r s1 s2 g k :
  Matches r s1 → (∀ g', is_Some (k s2 g')) → is_Some (rmatch r (s1 ++ s2) g k).
Proof.
  revert s1 s2 g k.
  induction r as [|l|p|r1 IH1 r2 IH2|r1 IH1 r2 IH2|p|p|r1 IH1|n r1 IH1];
    intros s1 s2 g k; simpl.
  - intros -> Hk. apply Hk.
  - intros -> Hk. rewrite strip_prefix_app. apply Hk.
  - intros (c & -> & Hc) Hk. simpl. rewrite Hc. apply Hk.
  - intros (a & b & -> & Ha & Hb) Hk. rewrite <-(assoc_L (++)).
    apply IH1; [done|]. intros g'. by apply IH2.
  - intros [H|H] Hk.
    + destruct (IH1 s1 s2 g k H Hk) as [res ->]. done.
    + destruct (rmatch r1 (s1 ++ s2) g k); [done|]. by apply IH2.
  - intros H Hk. by apply star_complete.
  - intros [Hne H] Hk. destruct s1 as [|c s1]; [done|]. simpl in *.
    apply andb_prop in H as [-> H]. by apply star_complete.
  - intros [->|H] Hk.
    + simpl. destruct (rmatch r1 s2 g k); [done|]. apply Hk.
    + destruct (IH1 s1 s2 g k H Hk) as [res ->]. done.
  - intros H Hk. apply IH1; [done|]. intros g'. apply Hk.
Qed.

Lemma match_here_Some r s g :
  match_here r s = Some g →
  ∃ s1 s2 g1, s = s1 ++ s2 ∧ Parses r s1 ∅ g1 ∧ g = <[0%nat := s1]> g1.
Proof.
  unfold match_here.
  destruct (rmatch _ _ _ _) as [[rest g0]|] eqn:E; [|done].
  intros [= <-]. apply rmatch_sound in E as (s1 & s2 & g' & -> & P & [= _ <-]).
  destruct P as (g1 & P & ->). by exists s1, s2, g1.
Qed.

Lemma match_here_complete r s1 s2 : Matches r s1 → is_Some (match_here r (s1 ++ s2)).
Proof.
  intros H. unfold match_here.
  destruct (rmatch_complete (Group 0 r) s1 s2 ∅ accept H)
    as [[rest g] E]; [by eauto|]. by rewrite E.
Qed.

Lemma search_from_Some r pos s m :
  search_from r pos s = Some m →
  ∃ pre mid post g1,
    leftmost r s pre mid post ∧ m_start m = (pos + length pre)%nat ∧
    Parses r mid ∅ g1 ∧ m_groups m = <[0%nat := mid]> g1.
Proof.
  revert pos. induction s as [|c s IH]; intros pos; simpl.
  - destruct (match_here r []) as [g|] eqn:E; [|done]. intros [= <-].
    apply match_here_Some in E as (s1 & s2 & g1 & Hs & P & ->).
    exists [], s1, s2, g1. simpl. repeat split; eauto using Parses_Matches; intros; simpl; lia.
  - destruct (match_here r (c :: s)) as [g|] eqn:E.
    + intros [= <-].
      apply match_here_Some in E as (s1 & s2 & g1 & Hs & P & ->).
      exists [], s1, s2, g1. simpl. repeat split; eauto using Parses_Matches; intros; simpl; lia.
    + intros H. apply IH in H as (pre & mid & post & g1 & (-> & M & L) & Hst & P & Hg).
      exists (c :: pre), mid, post, g1. repeat split; simpl; [done| |lia|done|done].
      intros pre' mid' post' Heq M'. destruct pre' as [|c' pre']; simpl in *.
      * destruct (match_here_complete r mid' post' M') as [g' Hg'].
        rewrite <-Heq in Hg'. congruence.
      * injection Heq as -> Heq. apply (L _ _ _ Heq) in M'. lia.
Qed.

Lemma search_from_None r pos s : search_from r pos s = None → nowhere r s.
Proof.
  revert pos. induction s as [|c s IH]; intros pos; simpl.
  - destruct (match_here r []) as [g|] eqn:E; [done|]. intros _ pre mid post Heq M.
    destruct (match_here_complete r mid post M) as [g' Hg'].
    destruct pre; [|done]. simpl in Heq. rewrite <-Heq in Hg'. congruence.
  - destruct (match_here r (c :: s)) as [g|] eqn:E; [done|].
    intros H pre mid post Heq M. destruct pre as [|c' pre]; simpl in *.
    + destruct (match_here_complete r mid post M) as [g' Hg'].
      rewrite <-Heq in Hg'. congruence.
    + injection Heq as -> Heq. by eapply IH.
Qed.

Lemma search_Some r text m :
  search r text = Some m →
  ∃ pre mid post g1,
    leftmost r text pre mid post ∧ m_start m = length pre ∧
    Parses r mid ∅ g1 ∧ m_groups m = <[0%nat := mid]> g1.
Proof. intros H. by apply search_from_Some in H. Qed.

Lemma search_None r text : search r text = None ↔ nowhere r text.
Proof.
  split; [apply search_from_None|].
  intros H. destruct (search r text) as [m|] eqn:E; [|done].
  apply search_Some in E as (pre & mid & post & g1 & (Heq & M & _) & _).
  by destruct (H pre mid post).
Qed.

Lemma search_is_Some r text pre mid post :
  text = pre ++ mid ++ post → Matches r mid → is_Some (search r text).
Proof.
  intros Heq M. destruct (search r text) eqn:E; [done|].
  apply search_None in E. by destruct (E pre mid post).
Qed.

(** A match found by hand at the leftmost place is the one [search] returns. *)
Lemma search_from_skip r pos pre s :
  (∀ q1 q2, pre = q1 ++ q2 → q2 ≠ [] → match_here r (q2 ++ s) = None) →
  search_from r pos (pre ++ s) = search_from r (pos + length pre) s.
Proof.
  revert pos. induction pre as [|c pre IH]; intros pos H; simpl.
  - by rewrite Nat.add_0_r.
  - assert (match_here r (c :: pre ++ s) = None) as E by (by apply (H [] (c :: pre))).
    simpl in E. rewrite E. rewrite IH.
    + f_equal. lia.
    + intros q1 q2 -> Hq. by apply (H (c :: q1) q2).
Qed.

Lemma search_leftmost r pre mid post g :
  (∀ pre' mid' post', pre ++ mid ++ post = pre' ++ mid' ++ post' →
                      Matches r mid' → (length pre ≤ length pre')%nat) →
  match_here r (mid ++ post) = Some g →
  search r (pre ++ mid ++ post) = Some {| m_start := length pre; m_groups := g |}.
Proof.
  intros L Hg. unfold search. rewrite search_from_skip.
  - destruct (mid ++ post); simpl in *; by rewrite Hg.
  - intros q1 q2 -> Hq.
    destruct (match_here r (q2 ++ mid ++ post)) as [g'|] eqn:E; [|done].
    apply match_here_Some in E as (s1 & s2 & g1 & Heq & P & _).
    apply Parses_Matches in P.
    assert ((q1 ++ q2) ++ mid ++ post = q1 ++ s1 ++ s2) as Heq'.
    { by rewrite <-(assoc_L (++)), Heq. }
    specialize (L _ _ _ Heq' P). rewrite length_app in L.
    destruct q2; [done|]. simpl in L. lia.
Qed.

(** ** Greedy repetition, when what follows cannot start inside the run *)

Lemma star_greedy p s g k :
  (∀ c s', p c = true → k (c :: s') g = None) →
  star p s g k = k (drop_while p s) g.
Proof.
  intros Hk. induction s as [|c s IH]; simpl; [done|].
  destruct (p c) eqn:Hc; [|done]. rewrite IH.
  destruct (k (drop_while p s) g) eqn:E; [done|]. by apply Hk.
Qed.

Lemma star_greedy_total p s g k :
  (∀ s', is_Some (k s' g)) → star p s g k = k (drop_while p s) g.
Proof.
  intros Hk. induction s as [|c s IH]; simpl; [done|].
  destruct (p c) eqn:Hc; [|done]. rewrite IH.
  by destruct (Hk (drop_while p s)) as [res ->].
Qed.

Lemma length_drop_while {A} (p : A → bool) (l : list A) :
  (length l - length (drop_while p l))%nat = length (take_while p l).
Proof.
  rewrite <-(take_drop_while p l) at 1. rewrite length_app. lia.
Qed.

Lemma take_take_while {A} (p : A → bool) (l : list A) :
  take (length l - length (drop_while p l)) l = take_while p l.
Proof.
  rewrite length_drop_while. rewrite <-(take_drop_while p l) at 2.
  by rewrite take_app_length.
Qed.

(** ** The character tables *)

Lemma decimal_in_range zeros c d : decimal_in zeros c = Some d → 0 ≤ d ≤ 9.
Proof.
  induction zeros as [|z zs IH]; simpl; [done|].
  destruct (_ && _) eqn:E; [|done].
  apply andb_prop in E as [E1 E2]. apply N.leb_le in E1. apply N.ltb_lt in E2.
  intros [= <-]. lia.
Qed.

Lemma decimal_value_range c d : decimal_value c = Some d → 0 ≤ d ≤ 9.
Proof. apply decimal_in_range. Qed.

Lemma is_space_elem c : is_space c = true → c ∈ unicode_spaces.
Proof.
  unfold is_space. intros H. apply existsb_exists in H as (x & Hin & Hx).
  apply N.eqb_eq in Hx as ->. by apply list_elem_of_In.
Qed.

Lemma space_not_decimal c : is_space c = true → is_decimal c = false.
Proof.
  intros H. apply is_space_elem in H. unfold unicode_spaces in H.
  repeat (apply elem_of_cons in H as [->|H]; [by vm_compute|]).
  by apply elem_of_nil in H.
Qed.

Lemma space_not_digit_or_comma c : is_space c = true → digit_or_comma c = false.
Proof.
  intros H. unfold digit_or_comma. rewrite (space_not_decimal c H). simpl.
  apply is_space_elem in H. unfold unicode_spaces in H.
  repeat (apply elem_of_cons in H as [->|H]; [by vm_compute|]).
  by apply elem_of_nil in H.
Qed.

Lemma ascii_digit_value c :
  (0x30 ≤ c ≤ 0x39)%N → decimal_value c = Some (Z.of_N c - 0x30).
Proof.
  intros [H1 H2]. unfold decimal_value, decimal_zeros. cbn [decimal_in].
  replace ((48 <=? c)%N && (c <? 48 + 10)%N) with true.
  - f_equal. lia.
  - symmetry. apply andb_true_intro. split; [by apply N.leb_le|apply N.ltb_lt; lia].
Qed.

(** ** fetch_page *)

(** What one failed attempt that is not the last leaves in the trace. *)
Definition retry_round (url : value) : list event := [Get url 30; Sleep 1000].

Lemma fetch_attempts_success net url retry i :
  ∀ a n body,
    (i < n)%nat → Z.of_nat (a + n) = retry →
    net (a + i)%nat = Response body →
    (∀ j, (j < i)%nat → ∃ e, net (a + j)%nat = TransportError e) →
    fetch_attempts net url retry (seq a n)
    = (Some body, concat (replicate i (retry_round url)) ++ [Get url 30]).
Proof.
  induction i as [|i IH]; intros a n body Hi Hn Hnet Hfail.
  - destruct n as [|n]; [lia|]. simpl. rewrite Nat.add_0_r in Hnet. by rewrite Hnet.
  - destruct n as [|n]; [lia|]. simpl.
    destruct (Hfail 0%nat) as [e He]; [lia|]. rewrite Nat.add_0_r in He. rewrite He.
    destruct (Z.eqb_spec (Z.of_nat a) (retry - 1)) as [Heq|_]; [lia|].
    rewrite (IH (S a) n body); [done|lia|lia| |].
    + by replace (S a + i)%nat with (a + S i)%nat by lia.
    + intros j Hj. replace (S a + j)%nat with (a + S j)%nat by lia. apply Hfail. lia.
Qed.

Lemma fetch_attempts_exhausted net url retry n :
  ∀ a,
    (1 ≤ n)%nat → Z.of_nat (a + n) = retry →
    (∀ j, (j < n)%nat → ∃ e, net (a + j)%nat = TransportError e) →
    ∃ e, net (a + n - 1)%nat = TransportError e ∧
         fetch_attempts net url retry (seq a n)
         = (None, concat (replicate (n - 1) (retry_round url))
                    ++ [Get url 30; Print (FetchFailed url e)]).
Proof.
  induction n as [|n IH]; intros a Hn Hr Hfail; [lia|]. simpl.
  destruct (Hfail 0%nat) as [e He]; [lia|]. rewrite Nat.add_0_r in He. rewrite He.
  destruct (Z.eqb_spec (Z.of_nat a) (retry - 1)) as [Heq|Hne].
  - assert (n = 0%nat) as -> by lia. exists e. split; [|done].
    by replace (a + 1 - 1)%nat with a by lia.
  - assert (1 ≤ n)%nat as Hn' by lia.
    destruct (IH (S a) Hn') as (e' & He' & ->); [lia| |].
    + intros j Hj. replace (S a + j)%nat with (a + S j)%nat by lia. apply Hfail. lia.
    + exists e'. split.
      * by replace (a + S n - 1)%nat with (S a + n - 1)%nat by lia.
      * replace (n - 0)%nat with (S (n - 1)) by lia. done.
Qed.

(** C7.  For every url, every retries ≥ 1 and every sequence of per-attempt
    transport outcomes: [fetch_page] returns the body of the first attempt
    that succeeds among the first [retries], having slept 1 s (1000 ms)
    after each failed attempt before it; and when all [retries] attempts
    fail it returns [None] (it does not raise), having made exactly
    [retries] requests with a 1 s sleep between them and printed the error
    of the last one. *)
Theorem fetch_page_retries (net : network) (url : value) (retries : Z) :
  1 ≤ retries →
  (∀ i body,
      (Z.of_nat i < retries) →
      net i = Response body →
      (∀ j, (j < i)%nat → ∃ e, net j = TransportError e) →
      fetch_page net url retries
      = (Some body, concat (replicate i (retry_round url)) ++ [Get url 30]))
  ∧
  ((∀ j, Z.of_nat j < retries → ∃ e, net j = TransportError e) →
   ∃ e, net (Z.to_nat (retries - 1)) = TransportError e ∧
        fetch_page net url retries
        = (None, concat (replicate (Z.to_nat (retries - 1)) (retry_round url))
                   ++ [Get url 30; Print (FetchFailed url e)])).
Proof.
  intros Hr. unfold fetch_page. split.
  - intros i body Hi Hnet Hfail.
    apply (fetch_attempts_success net url retries i 0%nat); [lia|lia|done|done].
  - intros Hfail.
    destruct (fetch_attempts_exhausted net url retries (Z.to_nat retries) 0%nat)
      as (e & He & ->); [lia|lia| |].
    + intros j Hj. apply Hfail. lia.
    + exists e. replace (Z.to_nat (retries - 1)) with (0 + Z.to_nat retries - 1)%nat by lia.
      split; [done|]. by replace (0 + Z.to_nat retries - 1)%nat with (Z.to_nat retries - 1)%nat by lia.
Qed.

Definition flaky_once : network :=
  λ i, match i with
       | 0%nat => TransportError (u "timeout")
       | _ => Response (u "<html>ok</html>")
       end.

Lemma fetch_page_retries_witness :
  fetch_page flaky_once (VStr (u "https://www.apple.com.cn/shop/refurbished/mac")) 3
  = (Some (u "<html>ok</html>"),
     concat (replicate 1 (retry_round (VStr (u "https://www.apple.com.cn/shop/refurbished/mac"))))
       ++ [Get (VStr (u "https://www.apple.com.cn/shop/refurbished/mac")) 30]).
Proof.
  apply (proj1 (fetch_page_retries flaky_once
                  (VStr (u "https://www.apple.com.cn/shop/refurbished/mac")) 3 ltac:(lia))
               1%nat (u "<html>ok</html>")).
  - lia.
  - reflexivity.
  - intros j Hj. assert (j = 0%nat) as -> by lia. by eexists.
Defined.

(** ** create_dataframe: filling from the title *)

Definition title_keys : list string :=
  ["model"; "screen_size"; "chip"; "cpu_cores"; "gpu_cores"; "color"]%string.

Lemma items_keys d : (items d).*1 = title_keys.
Proof. reflexivity. Qed.

Lemma fill_key_lookup_eq (product : dict) k v :
  fill_key product (k, v) !! k
  = if truthy_opt (product !! k) then product !! k else Some v.
Proof.
  unfold fill_key. destruct (product !! k) as [w|] eqn:E; simpl.
  - destruct (truthy w); simpl.
    + rewrite orb_false_r. rewrite bool_decide_eq_false_2; [done|].
      intros H. apply H. apply elem_of_dom. by eexists.
    + rewrite orb_true_r. by rewrite lookup_insert_eq.
  - rewrite orb_true_r. by rewrite lookup_insert_eq.
Qed.

Lemma fill_key_lookup_ne (product : dict) k v k' :
  k ≠ k' → fill_key product (k, v) !! k' = product !! k'.
Proof.
  intros Hne. unfold fill_key. destruct (_ || _); [|done].
  by rewrite lookup_insert_ne.
Qed.

Lemma foldl_fill_key_other (kvs : list (string * value)) (product : dict) k :
  k ∉ kvs.*1 → foldl fill_key product kvs !! k = product !! k.
Proof.
  revert product. induction kvs as [|[k0 v0] kvs IH]; intros product Hk; [done|].
  rewrite fmap_cons in Hk. apply not_elem_of_cons in Hk as [Hne Hk].
  cbn [foldl]. rewrite IH by done. by apply fill_key_lookup_ne.
Qed.

Lemma foldl_fill_key_at (kvs : list (string * value)) (product : dict) k v :
  NoDup kvs.*1 → (k, v) ∈ kvs →
  foldl fill_key product kvs !! k
  = if truthy_opt (product !! k) then product !! k else Some v.
Proof.
  revert product. induction kvs as [|[k0 v0] kvs IH]; intros product Hnd Hin.
  - by apply elem_of_nil in Hin.
  - rewrite fmap_cons in Hnd. apply NoDup_cons in Hnd as [Hk0 Hnd]. cbn [foldl].
    apply elem_of_cons in Hin as [[= -> ->]|Hin].
    + rewrite foldl_fill_key_other by done. apply fill_key_lookup_eq.
    + assert (k0 ≠ k) as Hne.
      { intros ->. apply Hk0. apply list_elem_of_fmap. by exists (k, v). }
      rewrite IH by done. by rewrite fill_key_lookup_ne.
Qed.

Lemma title_keys_NoDup : NoDup title_keys.
Proof. unfold title_keys. repeat (apply NoDup_cons; split; [list_not_elem|]). apply NoDup_nil_2. Qed.

(** C5.  For every record with a title and every title-derived field
    (model, screen_size, chip, cpu_cores, gpu_cores, color) with its
    title-derived value [v]: filling succeeds, and in the filled record the
    field keeps the record's own value when that value is there and not
    empty (truthy), and holds [v] exactly when the field was absent or
    empty; a field is thus changed only when it was absent or empty (for a
    str field: the empty string).  No other key of the record is touched. *)
Theorem fill_precedence (product : dict) (title : str) (key : string) (v : value) :
  product !! "title" = Some (VStr title) →
  (key, v) ∈ items (extract_basic_details title) →
  ∃ filled,
    fill_basic_details product = Ok filled ∧
    (∀ w, product !! key = Some w → truthy w = true → filled !! key = Some w) ∧
    (product !! key = None → filled !! key = Some v) ∧
    (∀ w, product !! key = Some w → truthy w = false → filled !! key = Some v) ∧
    (filled !! key ≠ product !! key →
       product !! key = None ∨ product !! key = Some (VStr []) ∨
       product !! key = Some (VInt 0)) ∧
    (∀ k, k ∉ title_keys → filled !! k = product !! k).
Proof.
  intros Ht Hin. unfold fill_basic_details. rewrite Ht. eexists. split; [done|].
  pose proof (foldl_fill_key_at (items (extract_basic_details title)) product key v) as H.
  rewrite items_keys in H. specialize (H title_keys_NoDup Hin).
  repeat split.
  - intros w Hw Htr. rewrite H, Hw. simpl. by rewrite Htr.
  - intros Hn. rewrite H, Hn. done.
  - intros w Hw Htr. rewrite H, Hw. simpl. by rewrite Htr.
  - rewrite H. destruct (product !! key) as [w|] eqn:E; simpl; [|by left].
    destruct w as [[|c s]|[|z|z]]; simpl; intros Hne; try done; eauto.
  - intros k Hk. apply foldl_fill_key_other. by rewrite items_keys.
Qed.

(** ** create_dataframe: the frame *)

Lemma lookup_list_to_map_tabulate {A} (f : string → A) (cols : list string) c :
  (list_to_map (map (λ c, (c, f c)) cols) : gmap string A) !! c
  = if bool_decide (c ∈ cols) then Some (f c) else None.
Proof.
  induction cols as [|c0 cols IH]; simpl.
  - by rewrite lookup_empty.
  - destruct (decide (c0 = c)) as [->|Hne].
    + rewrite lookup_insert_eq. rewrite bool_decide_eq_true_2; [done|]. by left.
    + rewrite lookup_insert_ne by done. rewrite IH.
      destruct (bool_decide (c ∈ cols)) eqn:E.
      * apply bool_decide_eq_true in E. rewrite bool_decide_eq_true_2; [done|]. by right.
      * apply bool_decide_eq_false in E. rewrite bool_decide_eq_false_2; [done|].
        intros H. apply elem_of_cons in H as [->|H]; done.
Qed.

Lemma lookup_list_to_map_project {A} (row : gmap string A) (cols : list string) c :
  (list_to_map (omap (λ c, (λ x, (c, x)) <$> row !! c) cols) : gmap string A) !! c
  = if bool_decide (c ∈ cols) then row !! c else None.
Proof.
  induction cols as [|c0 cols IH]; simpl.
  - by rewrite lookup_empty.
  - destruct (decide (c0 = c)) as [->|Hne].
    + rewrite (bool_decide_eq_true_2 (c ∈ c :: cols)) by (by left).
      destruct (row !! c) as [x|] eqn:E; simpl.
      * by rewrite lookup_insert_eq.
      * destruct (bool_decide (c ∈ cols)); exact IH.
    + assert (bool_decide (c ∈ c0 :: cols) = bool_decide (c ∈ cols)) as ->.
      { apply bool_decide_ext. rewrite elem_of_cons. naive_solver. }
      destruct (row !! c0) as [x|]; simpl; [|done].
      by rewrite lookup_insert_ne.
Qed.

(** The rows of two frames carry the same cell in column [c]. *)
Definition same_column (c : string) (rows rows' : list (gmap string cell)) : Prop :=
  Forall2 (λ r r' : gmap string cell, r' !! c = r !! c) rows rows'.

Lemma same_column_refl c rows : same_column c rows rows.
Proof. unfold same_column. by apply Forall_Forall2_diag, Forall_forall. Qed.

Lemma same_column_trans c r1 r2 r3 :
  same_column c r1 r2 → same_column c r2 r3 → same_column c r1 r3.
Proof.
  unfold same_column. intros H12. revert r3.
  induction H12 as [|a b l1 l2 Hab H12 IH]; intros r3 H23.
  - by apply Forall2_nil_inv_l in H23 as ->.
  - apply Forall2_cons_inv_l in H23 as (c' & l3 & Hbc & H23 & ->).
    constructor; [congruence|by apply IH].
Qed.

Lemma ensure_column_spec df col :
  let df' := ensure_column df col in
  col ∈ df_columns df' ∧
  (∀ c, c ∈ df_columns df → c ∈ df_columns df') ∧
  df_index df' = df_index df ∧
  (∀ c, c ∈ df_columns df → same_column c (df_rows df) (df_rows df')).
Proof.
  unfold ensure_column. case_bool_decide as Hc; simpl.
  - repeat split.
    + apply elem_of_app. right. by left.
    + intros c Hin. apply elem_of_app. by left.
    + intros c Hin. unfold same_column. apply Forall2_fmap_r, Forall_Forall2_diag, Forall_forall.
      intros r _. unfold compose. apply lookup_insert_ne. by intros ->.
  - repeat split; [|done|intros; apply same_column_refl].
    by destruct (decide (col ∈ df_columns df)).
Qed.

Lemma ensure_columns_spec cols df :
  let df' := foldl ensure_column df cols in
  (∀ c, c ∈ cols → c ∈ df_columns df') ∧
  (∀ c, c ∈ df_columns df → c ∈ df_columns df') ∧
  df_index df' = df_index df ∧
  (∀ c, c ∈ df_columns df → same_column c (df_rows df) (df_rows df')).
Proof.
  revert df. induction cols as [|col cols IH]; intros df; cbn [foldl].
  - repeat split; [by intros c H%elem_of_nil|done|intros; apply same_column_refl].
  - destruct (ensure_column_spec df col) as (H1 & H2 & H3 & H4).
    destruct (IH (ensure_column df col)) as (I1 & I2 & I3 & I4).
    repeat split.
    + intros c Hc. apply elem_of_cons in Hc as [->|Hc]; [by apply I2|by apply I1].
    + intros c Hc. by apply I2, H2.
    + by rewrite I3.
    + intros c Hc. eapply same_column_trans; [by apply H4|]. by apply I4, H2.
Qed.

Lemma select_columns_spec cols df :
  (∀ c, c ∈ cols → c ∈ df_columns df) →
  ∃ df', select_columns cols df = Ok df' ∧
         df_columns df' = cols ∧ df_index df' = df_index df ∧
         (∀ c, c ∈ cols → same_column c (df_rows df) (df_rows df')).
Proof.
  intros Hall. unfold select_columns.
  destruct (List.find _ cols) as [c|] eqn:E.
  - apply find_some in E as [Hin Hc]. apply bool_decide_eq_true in Hc.
    destruct Hc. apply Hall. by apply list_elem_of_In.
  - eexists. split; [done|]. simpl. repeat split.
    intros c Hc. unfold same_column. apply Forall2_fmap_r, Forall_Forall2_diag, Forall_forall.
    intros r _. unfold compose. rewrite lookup_list_to_map_project.
    by rewrite bool_decide_eq_true_2.
Qed.

Lemma select_columns_columns cols df df' :
  select_columns cols df = Ok df' → df_columns df' = cols.
Proof.
  unfold select_columns. destruct (List.find _ cols); [done|]. by intros [= <-].
Qed.

Lemma sort_values_columns tie c df df' :
  sort_values tie c df = Ok df' → df_columns df' = df_columns df.
Proof.
  unfold sort_values. case_bool_decide; [done|].
  destruct (argsort _ _); [|done]. by intros [= <-].
Qed.

(** C10.  Given no records, [create_dataframe] returns the empty frame,
    which has no column (and no row) at all; whereas every frame it
    returns for a non-empty input has exactly the twelve canonical columns,
    model through url. *)
Theorem empty_input_empty_frame :
  (∀ tie, create_dataframe tie [] = Ok empty_frame) ∧
  df_columns empty_frame = [] ∧ df_rows empty_frame = [] ∧
  (∀ tie products df,
     products ≠ [] → create_dataframe tie products = Ok df →
     df_columns df =
       ["model"; "screen_size"; "chip"; "cpu_cores"; "gpu_cores"; "color";
        "memory"; "storage"; "release_year"; "price"; "title"; "url"]%string).
Proof.
  repeat split. intros tie products df Hne.
  unfold create_dataframe. destruct products as [|p ps]; [done|].
  destruct (fill_all (p :: ps)) as [filled|e]; [|done].
  destruct (select_columns _ _) as [df'|e] eqn:E; [|done].
  destruct (sort_values tie "price" df') as [df''|e] eqn:Es; [|done].
  intros [= <-]. simpl. rewrite (sort_values_columns _ _ _ _ Es).
  by apply select_columns_columns in E.
Qed.

(** ** create_dataframe: sorting by price *)

(** An enriched record, as far as the aggregator needs it: a str title and
    an integer price. *)
Definition enriched (product : dict) : Prop :=
  (∃ t, product !! "title" = Some (VStr t)) ∧
  (∃ p, product !! "price" = Some (VInt p)).

Definition price_of (product : dict) : option Z :=
  match product !! "price" with
  | Some (VInt p) => Some p
  | _ => None
  end.

Definition prices (products : list dict) : list Z := omap price_of products.

(** What the frame of [records] shows in column [c] for a record that has
    [v] there: the column's cell, or the empty string of lines 228-230 when
    no record has the column. *)
Definition shown (records : list dict) (c : string) (v : option value) : cell :=
  if bool_decide (Exists (λ f : dict, is_Some (f !! c)) records)
  then column_cell records c v
  else Val (VStr []).

(** The row is that of the record, in every canonical column. *)
Definition carries (records : list dict) (row : gmap string cell) (product : dict)
  : Prop :=
  ∀ c, c ∈ columns_order → row !! c = Some (shown records c (product !! c)).

Lemma Ok_inj {A} (a b : A) : Ok a = Ok b → a = b.
Proof. by intros [= ->]. Qed.

Lemma fill_all_spec products :
  Forall enriched products →
  ∃ filled, fill_all products = Ok filled ∧
            Forall2 (λ p f : dict, fill_basic_details p = Ok f) products filled.
Proof.
  induction 1 as [|p ps [[t Ht] _] _ (filled & E & IH)]; simpl.
  - by exists [].
  - unfold fill_basic_details at 1. rewrite Ht. rewrite E.
    eexists. split; [done|]. constructor; [|done].
    unfold fill_basic_details. by rewrite Ht.
Qed.

Lemma fill_all_Ok products filled :
  fill_all products = Ok filled →
  Forall2 (λ p f : dict, fill_basic_details p = Ok f) products filled.
Proof.
  revert filled. induction products as [|p ps IH]; intros filled; cbn [fill_all].
  - intros H%Ok_inj. subst. constructor.
  - destruct (fill_basic_details p) as [f|e] eqn:Ef; [|done].
    destruct (fill_all ps) as [fs|e] eqn:Efs; [|done].
    intros H%Ok_inj. subst. constructor; [done|by apply IH].
Qed.

Lemma fill_basic_details_other p f key :
  fill_basic_details p = Ok f → key ∉ title_keys → f !! key = p !! key.
Proof.
  unfold fill_basic_details.
  destruct (p !! "title") as [[t|z]|]; [|discriminate|discriminate].
  intros H%Ok_inj Hk. subst f. apply foldl_fill_key_other. by rewrite items_keys.
Qed.

Lemma fill_basic_details_price p f :
  fill_basic_details p = Ok f → price_of f = price_of p.
Proof.
  intros H. unfold price_of.
  rewrite (fill_basic_details_other _ _ "price" H); [done|].
  unfold title_keys. list_not_elem.
Qed.

Lemma fill_all_prices products filled :
  Forall2 (λ p f : dict, fill_basic_details p = Ok f) products filled →
  prices filled = prices products.
Proof.
  unfold prices. induction 1 as [|p f ps fs H _ IH]; [reflexivity|].
  cbn [omap list_omap]. rewrite (fill_basic_details_price p f H).
  destruct (price_of p); [f_equal|]; exact IH.
Qed.

Lemma prices_enriched products :
  Forall enriched products →
  Forall2 (λ (p : dict) z, price_of p = Some z) products (prices products).
Proof.
  unfold prices. induction 1 as [|p ps [_ [z Hz]] _ IH]; [constructor|].
  assert (price_of p = Some z) as Hp by (unfold price_of; by rewrite Hz).
  cbn [omap list_omap]. rewrite Hp. constructor; [exact Hp|exact IH].
Qed.

Lemma fill_all_enriched products filled :
  Forall enriched products →
  Forall2 (λ p f : dict, fill_basic_details p = Ok f) products filled →
  Forall enriched filled.
Proof.
  intros Hen F2. apply Forall_forall. intros f' Hf'.
  apply list_elem_of_lookup in Hf' as [j Hj].
  destruct (Forall2_lookup_r _ _ _ _ _ F2 Hj) as (p' & Hp' & Hfp).
  pose proof (proj1 (Forall_forall _ _) Hen p' (list_elem_of_lookup_2 _ _ _ Hp'))
    as [[t Ht] [z' Hz'']].
  split.
  - exists t. rewrite (fill_basic_details_other _ _ "title" Hfp); [done|].
    unfold title_keys. list_not_elem.
  - exists z'. rewrite (fill_basic_details_other _ _ "price" Hfp); [done|].
    unfold title_keys. list_not_elem.
Qed.

(** *** The frame before sorting *)

Lemma frame_of_records_columns (records : list dict) c :
  c ∈ df_columns (frame_of_records records)
  ↔ Exists (λ f : dict, is_Some (f !! c)) records.
Proof.
  unfold frame_of_records. cbn [df_columns].
  rewrite elem_of_remove_dups, list_elem_of_In, in_concat, Exists_exists. split.
  - intros (ks & Hks & Hc). apply in_map_iff in Hks as (f & <- & Hf).
    apply list_elem_of_In in Hf, Hc.
    apply list_elem_of_fmap in Hc as ([c' v] & -> & Hcv).
    apply elem_of_map_to_list in Hcv. exists f. split; [done|]. by exists v.
  - intros (f & Hf & [v Hv]). exists ((map_to_list f).*1). split.
    + apply (in_map (λ p : dict, (map_to_list p).*1)). by apply list_elem_of_In.
    + apply list_elem_of_In, list_elem_of_fmap. exists (c, v). split; [done|].
      by apply elem_of_map_to_list.
Qed.

Lemma frame_of_records_rows (records : list dict) :
  Forall2 (λ (f : dict) (row : gmap string cell),
             ∀ c, c ∈ df_columns (frame_of_records records) →
                  row !! c = Some (column_cell records c (f !! c)))
          records (df_rows (frame_of_records records)).
Proof.
  unfold frame_of_records at 2. cbn [df_rows].
  apply Forall2_fmap_r, Forall_Forall2_diag, Forall_forall.
  intros f Hf c Hc. rewrite lookup_list_to_map_tabulate.
  by rewrite bool_decide_eq_true_2.
Qed.

Lemma Forall2_same_column {A} (P : A → gmap string cell → Prop) c l rows rows' :
  (∀ a r r', P a r → r' !! c = r !! c → P a r') →
  Forall2 P l rows → same_column c rows rows' → Forall2 P l rows'.
Proof.
  intros HP H. revert rows'. induction H as [|a r l rows Har H IH]; intros rows' Hs.
  - by apply Forall2_nil_inv_l in Hs as ->.
  - apply Forall2_cons_inv_l in Hs as (r' & rows2 & Hr & Hs & ->).
    constructor; [by eapply HP|by apply IH].
Qed.

Lemma ensure_columns_length cols df :
  length (df_rows (foldl ensure_column df cols)) = length (df_rows df).
Proof.
  revert df. induction cols as [|col cols IH]; intros df; cbn [foldl]; [done|].
  rewrite IH. unfold ensure_column. case_bool_decide; simpl; [|done].
  by rewrite length_map.
Qed.

Lemma select_columns_length cols df df' :
  select_columns cols df = Ok df' → length (df_rows df') = length (df_rows df).
Proof.
  unfold select_columns. destruct (List.find _ cols); [done|]. intros [= <-]. simpl.
  by rewrite length_map.
Qed.

(** A column that lines 228-230 add holds the empty string in every row. *)
Lemma ensure_columns_new cols df c :
  c ∉ df_columns df → c ∈ cols →
  Forall (λ row : gmap string cell, row !! c = Some (Val (VStr [])))
         (df_rows (foldl ensure_column df cols)).
Proof.
  revert df. induction cols as [|col cols IH]; intros df Hc Hin; cbn [foldl].
  { by apply elem_of_nil in Hin. }
  destruct (decide (c = col)) as [->|Hne].
  - assert (Forall (λ row : gmap string cell, row !! col = Some (Val (VStr [])))
              (df_rows (ensure_column df col))) as H1.
    { unfold ensure_column. rewrite bool_decide_eq_true_2 by done. cbn [df_rows].
      apply Forall_fmap, Forall_forall. intros row _. apply lookup_insert_eq. }
    destruct (ensure_column_spec df col) as (Hcol & _).
    destruct (ensure_columns_spec cols (ensure_column df col)) as (_ & _ & _ & Hsame).
    specialize (Hsame col Hcol). unfold same_column in Hsame.
    apply Forall_forall. intros row' Hrow'.
    apply list_elem_of_lookup in Hrow' as [i Hi].
    destruct (Forall2_lookup_r _ _ _ _ _ Hsame Hi) as (row & Hrow & ->).
    apply (proj1 (Forall_forall _ _) H1). by eapply list_elem_of_lookup_2.
  - apply IH.
    + unfold ensure_column. case_bool_decide; [|done]. cbn [df_columns].
      intros [Hx|Hx]%elem_of_app; [done|]. by apply list_elem_of_singleton in Hx.
    + apply elem_of_cons in Hin as [->|Hin]; done.
Qed.

(** The frame before sorting (lines 222-236): one row per filled record,
    in the records' order, with the canonical columns. *)
Lemma frame_before_sort (filled : list dict) :
  ∃ df,
    select_columns columns_order
      (foldl ensure_column (frame_of_records filled) required_columns) = Ok df ∧
    df_columns df = columns_order ∧
    df_index df = seq 0 (length filled) ∧
    Forall2 (λ (f : dict) (row : gmap string cell), carries filled row f)
            filled (df_rows df).
Proof.
  pose proof (frame_of_records_rows filled) as H0.
  pose proof (frame_of_records_columns filled) as Hcols.
  set (df0 := frame_of_records filled) in *.
  destruct (ensure_columns_spec required_columns df0) as (E1 & E2 & E3 & E4).
  pose proof (ensure_columns_length required_columns df0) as EL.
  pose proof (ensure_columns_new required_columns df0) as EN.
  set (df1 := foldl ensure_column df0 required_columns) in *.
  destruct (select_columns_spec columns_order df1) as (df & Hsel & S1 & S2 & S3).
  { intros c Hc. by apply E1. }
  pose proof (select_columns_length _ _ _ Hsel) as SL.
  exists df. repeat split; [done|done|by rewrite S2, E3|].
  assert (length filled = length (df_rows df)) as Hlen.
  { rewrite SL, EL. by apply Forall2_length in H0. }
  apply Forall2_same_length_lookup. split; [done|].
  intros i f row Hf Hrow c Hc.
  destruct (Forall2_lookup_l _ _ _ _ _ H0 Hf) as (row0 & Hrow0 & Hr0).
  assert (is_Some (df_rows df1 !! i)) as [row1 Hrow1].
  { apply lookup_lt_is_Some. rewrite EL. by eapply lookup_lt_Some. }
  destruct (Forall2_lookup_l _ _ _ _ _ (S3 c Hc) Hrow1) as (row2 & Hrow2 & Hr2).
  assert (row2 = row) as -> by congruence. rewrite Hr2.
  unfold shown. case_bool_decide as Hex.
  - apply Hcols in Hex.
    destruct (Forall2_lookup_l _ _ _ _ _ (E4 c Hex) Hrow0) as (row1' & Hrow1' & Hr1).
    assert (row1' = row1) as -> by congruence. rewrite Hr1. by apply Hr0.
  - assert (c ∉ df_columns df0) as Hnc by (by rewrite Hcols).
    apply (proj1 (Forall_forall _ _) (EN c Hnc Hc)).
    by eapply list_elem_of_lookup_2.
Qed.

(** A str is shown as it is. *)
Lemma shown_str (records : list dict) (f : dict) c s :
  f ∈ records → f !! c = Some (VStr s) → shown records c (f !! c) = Val (VStr s).
Proof.
  intros Hf Hc. unfold shown. rewrite bool_decide_eq_true_2.
  - by rewrite Hc.
  - apply Exists_exists. exists f. split; [done|]. by rewrite Hc.
Qed.

Lemma existsb_is_missing (records : list dict) c :
  Forall (λ f : dict, is_Some (f !! c)) records →
  existsb is_missing (map (λ p : dict, p !! c) records) = false.
Proof.
  induction 1 as [|f records [v Hv] _ IH]; [done|].
  cbn [map existsb]. rewrite Hv. exact IH.
Qed.

(** In a column that every record has, a value is shown as it is. *)
Lemma shown_total (records : list dict) (f : dict) c v :
  Forall (λ f : dict, is_Some (f !! c)) records →
  f ∈ records → f !! c = Some v → shown records c (f !! c) = Val v.
Proof.
  intros Hall Hf Hc. unfold shown. rewrite bool_decide_eq_true_2.
  - rewrite Hc. destruct v as [s|z]; [done|]. cbn [column_cell].
    unfold float64_column. by rewrite (existsb_is_missing _ _ Hall).
  - apply Exists_exists. exists f. split; [done|]. by rewrite Hc.
Qed.

(** *** The sort *)

Lemma insert_by_Permutation {A} (before : A → A → bool) x l :
  insert_by before x l ≡ₚ x :: l.
Proof.
  induction l as [|y l IH]; cbn [insert_by]; [done|].
  destruct (before x y); [done|]. rewrite IH. apply Permutation_swap.
Qed.

Lemma sort_by_Permutation {A} (before : A → A → bool) (l : list A) :
  sort_by before l ≡ₚ l.
Proof.
  unfold sort_by. induction l as [|x l IH]; cbn [foldr]; [done|].
  rewrite insert_by_Permutation. by rewrite IH.
Qed.

Lemma insert_by_Sorted {A} (before : A → A → bool) x l :
  (∀ a b, before a b = false → before b a = true) →
  Sorted (λ a b, before a b = true) l →
  Sorted (λ a b, before a b = true) (insert_by before x l).
Proof.
  intros Htot. induction 1 as [|y l Hs IH Hhd]; cbn [insert_by].
  - repeat constructor.
  - destruct (before x y) eqn:E.
    + constructor; [by constructor|by constructor].
    + constructor; [exact IH|]. destruct Hhd as [|z l' Hyz]; cbn [insert_by].
      * constructor. by apply Htot.
      * destruct (before x z); constructor; [by apply Htot|done].
Qed.

Lemma sort_by_Sorted {A} (before : A → A → bool) (l : list A) :
  (∀ a b, before a b = false → before b a = true) →
  Sorted (λ a b, before a b = true) (sort_by before l).
Proof.
  intros Htot. unfold sort_by. induction l as [|x l IH]; cbn [foldr].
  - constructor.
  - by apply insert_by_Sorted.
Qed.

Lemma tie_before_total tie i j : tie_before tie i j = false → tie_before tie j i = true.
Proof.
  unfold tie_before.
  destruct (Nat.ltb_spec (tie i) (tie j)), (Nat.ltb_spec (tie j) (tie i)),
    (Nat.eqb_spec (tie i) (tie j)), (Nat.eqb_spec (tie j) (tie i)),
    (Nat.leb_spec i j), (Nat.leb_spec j i); simpl; try done; lia.
Qed.

Lemma entry_before_total tie x y :
  entry_before tie x y = false → entry_before tie y x = true.
Proof.
  unfold entry_before. intros [H1 H2]%orb_false_iff. rewrite H1.
  destruct (key_lt y.2 x.2); [done|]. simpl in *. by apply tie_before_total.
Qed.

Lemma present_fst i (ks : list sort_key) :
  (present i (Some <$> ks)).*1 = seq i (length ks).
Proof.
  revert i. induction ks as [|k ks IH]; intros i; [done|].
  rewrite fmap_cons. cbn [present]. rewrite fmap_cons. cbn [length seq fst].
  by rewrite IH.
Qed.

Lemma present_snd i (keys : list (option sort_key)) :
  (present i keys).*2 = omap id keys.
Proof.
  revert i. induction keys as [|[k|] keys IH]; intros i; cbn [present omap list_omap].
  - done.
  - rewrite fmap_cons. cbn [id snd]. by rewrite IH.
  - apply IH.
Qed.

Lemma missing_none i (ks : list sort_key) : missing i (Some <$> ks) = [].
Proof.
  revert i. induction ks as [|k ks IH]; intros i; [done|].
  rewrite fmap_cons. cbn [missing]. apply IH.
Qed.

Lemma elem_of_present i keys j k :
  (j, k) ∈ present i keys → (i ≤ j)%nat ∧ keys !! (j - i)%nat = Some (Some k).
Proof.
  revert i. induction keys as [|[k0|] keys IH]; intros i; cbn [present].
  - by intros H%elem_of_nil.
  - intros [[= -> ->]|H]%elem_of_cons.
    + split; [lia|]. by rewrite Nat.sub_diag.
    + apply IH in H as [Hle H]. split; [lia|].
      replace (j - i)%nat with (S (j - S i)) by lia. exact H.
  - intros H. apply IH in H as [Hle H]. split; [lia|].
    replace (j - i)%nat with (S (j - S i)) by lia. exact H.
Qed.

Lemma elem_of_missing i keys j :
  j ∈ missing i keys → (i ≤ j)%nat ∧ keys !! (j - i)%nat = Some None.
Proof.
  revert i. induction keys as [|[k0|] keys IH]; intros i; cbn [missing].
  - by intros H%elem_of_nil.
  - intros H. apply IH in H as [Hle H]. split; [lia|].
    replace (j - i)%nat with (S (j - S i)) by lia. exact H.
  - intros [->|H]%elem_of_cons.
    + split; [lia|]. by rewrite Nat.sub_diag.
    + apply IH in H as [Hle H]. split; [lia|].
      replace (j - i)%nat with (S (j - S i)) by lia. exact H.
Qed.

(** Every position of an indexer is that of a row. *)
Lemma argsort_in_range tie keys indexer :
  argsort tie keys = Ok indexer → Forall (λ i, i < length keys)%nat indexer.
Proof.
  unfold argsort. destruct (_ && _); [done|]. intros H%Ok_inj. subst indexer.
  apply Forall_app. split; apply Forall_forall; intros j Hj.
  - apply list_elem_of_fmap in Hj as ([j' k] & -> & Hjk).
    rewrite sort_by_Permutation in Hjk. apply elem_of_present in Hjk as [_ H].
    apply lookup_lt_Some in H. simpl. lia.
  - apply elem_of_missing in Hj as [_ H]. apply lookup_lt_Some in H. lia.
Qed.

Definition key_num (k : sort_key) : Z :=
  match k with
  | KNum z => z
  | KStr _ => 0
  end.

Lemma Sorted_entries_num tie (entries : list (nat * sort_key)) :
  Forall (λ e, is_num e.2 = true) entries →
  Sorted (λ a b, entry_before tie a b = true) entries →
  Sorted Z.le ((λ e, key_num e.2) <$> entries).
Proof.
  intros Hnum. induction 1 as [|[i a] l Hs IH Hhd]; [constructor|].
  apply Forall_cons in Hnum as [Ha Hnum]. rewrite fmap_cons.
  constructor; [by apply IH|].
  destruct Hhd as [|[j b] l' Hab]; [constructor|]. rewrite fmap_cons. constructor.
  apply Forall_cons in Hnum as [Hb _]. cbn [snd] in *.
  destruct a as [x|?], b as [y|?]; try done. cbn [key_num].
  unfold entry_before in Hab. cbn [key_lt fst snd] in Hab.
  destruct (Z.ltb_spec x y), (Z.ltb_spec y x); simpl in Hab; try done; lia.
Qed.

Lemma existsb_is_str_num (zs : list Z) :
  existsb (λ k, negb (is_num k)) (omap id ((λ z, Some (KNum z)) <$> zs)) = false.
Proof. induction zs as [|z zs IH]; [done|]. exact IH. Qed.

(** On a column of integers the indexer is a rearrangement of the rows'
    positions that puts the integers in ascending order. *)
Lemma argsort_integers tie (zs : list Z) :
  ∃ indexer,
    argsort tie ((λ z, Some (KNum z)) <$> zs) = Ok indexer ∧
    indexer ≡ₚ seq 0 (length zs) ∧
    Sorted Z.le (omap (λ i, zs !! i) indexer).
Proof.
  assert ((λ z, Some (KNum z)) <$> zs = Some <$> (KNum <$> zs)) as Hks
    by (by rewrite <-list_fmap_compose).
  unfold argsort. rewrite present_snd, existsb_is_str_num, andb_false_r.
  rewrite Hks, missing_none, app_nil_r. eexists. split; [reflexivity|].
  set (entries := present 0 (Some <$> (KNum <$> zs))).
  pose proof (sort_by_Permutation (entry_before tie) entries) as Hperm.
  pose proof (sort_by_Sorted (entry_before tie) entries (entry_before_total tie))
    as Hsorted.
  set (sorted := sort_by (entry_before tie) entries) in *.
  assert (Forall (λ e : nat * sort_key, zs !! e.1 = Some (key_num e.2)
                                        ∧ is_num e.2 = true) sorted) as Hall.
  { apply Forall_forall. intros [j k] Hjk. rewrite Hperm in Hjk.
    apply elem_of_present in Hjk as [_ H]. rewrite Nat.sub_0_r in H.
    rewrite list_lookup_fmap, list_lookup_fmap in H. cbn [fst snd].
    destruct (zs !! j) as [z|]; [|done]. simpl in H. by injection H as <-. }
  split.
  - rewrite Hperm. subst entries. rewrite present_fst. by rewrite length_fmap.
  - assert (omap (λ i, zs !! i) sorted.*1 = (λ e, key_num e.2) <$> sorted) as ->.
    { clear Hperm Hsorted. induction Hall as [|[j k] l [Hj _] _ IH]; [done|].
      rewrite !fmap_cons. cbn [omap list_omap fst snd] in *. rewrite Hj. simpl.
      f_equal. exact IH. }
    apply (Sorted_entries_num tie); [|done].
    eapply Forall_impl; [exact Hall|]. by intros e [_ H].
Qed.

Lemma omap_lookup_total {A} (l : list A) (idx : list nat) :
  Forall (λ i, i < length l)%nat idx →
  Forall2 (λ i x, l !! i = Some x) idx (omap (λ i, l !! i) idx).
Proof.
  induction 1 as [|i idx Hi _ IH]; simpl; [constructor|].
  destruct (lookup_lt_is_Some_2 l i Hi) as [x Hx]. rewrite Hx. simpl.
  by constructor.
Qed.

Lemma Sorted_adjacent (l : list Z) i p q :
  Sorted Z.le l → l !! i = Some p → l !! S i = Some q → p ≤ q.
Proof.
  intros H. revert i. induction H as [|a l Hs IH Hhd]; intros i Hp Hq; [done|].
  destruct i as [|i]; simpl in *.
  - injection Hp as ->. destruct l as [|b l]; [done|]. simpl in Hq.
    injection Hq as ->. by inversion Hhd.
  - by eapply IH.
Qed.

Lemma omap_lookup_seq {A} (l1 l2 : list A) :
  omap (λ i, (l1 ++ l2) !! i) (seq (length l1) (length l2)) = l2.
Proof.
  revert l1. induction l2 as [|x l2 IH]; intros l1; simpl; [done|].
  rewrite lookup_app_r by lia. rewrite Nat.sub_diag. simpl. f_equal.
  specialize (IH (l1 ++ [x])). rewrite <-(assoc_L (++)) in IH. simpl in IH.
  rewrite length_app in IH. simpl in IH.
  by replace (length l1 + 1)%nat with (S (length l1)) in IH by lia.
Qed.

Lemma omap_lookup_permutation {A} (l : list A) (idx : list nat) :
  idx ≡ₚ seq 0 (length l) → omap (λ i, l !! i) idx ≡ₚ l.
Proof.
  intros ->. pose proof (omap_lookup_seq [] l) as H. simpl in H. by rewrite H.
Qed.

(** *** The frame *)

(** The keys of the price column of the frame of [filled]. *)
Definition price_keys (filled : list dict) : list (option sort_key) :=
  (λ f : dict, key_of_cell (shown filled "price" (f !! "price"))) <$> filled.

Lemma price_in_columns : "price"%string ∈ columns_order.
Proof. unfold columns_order. list_elem. Qed.

Lemma price_column_keys (g : dict → cell) (fs : list dict)
    (rows : list (gmap string cell)) :
  Forall2 (λ (f : dict) (row : gmap string cell), row !! "price" = Some (g f)) fs rows →
  map (λ row : gmap string cell, key_of_cell (default NaN (row !! "price"))) rows
  = (λ f, key_of_cell (g f)) <$> fs.
Proof.
  induction 1 as [|f row fs rows Hc _ IH]; [done|].
  cbn [map fmap list_fmap]. rewrite Hc. cbn [default from_option id].
  f_equal. exact IH.
Qed.

(** [create_dataframe] on records that can be filled: the frame before
    sorting, and what sorting makes of it. *)
Lemma create_dataframe_filled tie (products filled : list dict) :
  products ≠ [] → fill_all products = Ok filled →
  ∃ df0,
    df_columns df0 = columns_order ∧
    Forall2 (λ (f : dict) (row : gmap string cell), carries filled row f)
            filled (df_rows df0) ∧
    create_dataframe tie products
    = match argsort tie (price_keys filled) with
      | Raise e => Raise e
      | Ok indexer => Ok (reset_index (take_rows indexer df0))
      end.
Proof.
  intros Hne Hfill.
  destruct (frame_before_sort filled) as (df0 & Hsel & Hcols & _ & Hrows).
  exists df0. split; [done|]. split; [done|].
  unfold create_dataframe. destruct products as [|p0 ps]; [done|].
  rewrite Hfill, Hsel. unfold sort_values.
  rewrite bool_decide_eq_false_2
    by (rewrite Hcols; intros H; apply H; apply price_in_columns).
  rewrite (price_column_keys (λ f, shown filled "price" (f !! "price")) filled).
  - fold (price_keys filled). by destruct (argsort tie (price_keys filled)).
  - eapply Forall2_impl; [exact Hrows|]. intros f row Hc.
    apply (Hc "price"%string price_in_columns).
Qed.

(** Every row of a frame made is that of a filled record of the input. *)
Lemma create_dataframe_rows tie products df row :
  create_dataframe tie products = Ok df → row ∈ df_rows df →
  ∃ filled p f,
    fill_all products = Ok filled ∧ p ∈ products ∧ f ∈ filled ∧
    fill_basic_details p = Ok f ∧ carries filled row f.
Proof.
  destruct products as [|p0 ps].
  { intros H%Ok_inj. subst. by intros H%elem_of_nil. }
  destruct (fill_all (p0 :: ps)) as [filled|e] eqn:Efill.
  2: { unfold create_dataframe. by rewrite Efill. }
  destruct (create_dataframe_filled tie (p0 :: ps) filled) as (df0 & _ & Hrows & ->);
    [done|done|].
  destruct (argsort tie (price_keys filled)) as [indexer|e]; [|done].
  intros H%Ok_inj. subst df. cbn [reset_index take_rows df_rows].
  intros Hrow. apply list_elem_of_omap in Hrow as (i & _ & Hi).
  destruct (Forall2_lookup_r _ _ _ _ _ Hrows Hi) as (f & Hf & Hc).
  apply fill_all_Ok in Efill as F2.
  destruct (Forall2_lookup_r _ _ _ _ _ F2 Hf) as (p & Hp & Hpf).
  exists filled, p, f. split; [done|].
  split; [by eapply list_elem_of_lookup_2|].
  split; [by eapply list_elem_of_lookup_2|done].
Qed.

Lemma keys_of_prices (g : dict → option sort_key) (l : list dict) :
  Forall (λ f, ∃ z, price_of f = Some z ∧ g f = Some (KNum z)) l →
  g <$> l = (λ z, Some (KNum z)) <$> omap price_of l.
Proof.
  induction 1 as [|f l (z & Hz & Hg) _ IH]; [done|].
  cbn [fmap list_fmap omap list_omap]. rewrite Hz, Hg.
  cbn [fmap list_fmap mbind option_bind]. f_equal. exact IH.
Qed.

Lemma price_keys_enriched (filled : list dict) :
  Forall enriched filled →
  price_keys filled = (λ z, Some (KNum z)) <$> prices filled.
Proof.
  intros Hen. unfold price_keys, prices. apply keys_of_prices.
  assert (Forall (λ f : dict, is_Some (f !! "price")) filled) as Hall.
  { eapply Forall_impl; [exact Hen|]. intros f [_ [z Hz]]. by rewrite Hz. }
  apply Forall_forall. intros f Hf.
  destruct (proj1 (Forall_forall _ _) Hen f Hf) as [_ [z Hz]].
  exists z. split; [unfold price_of; by rewrite Hz|].
  by rewrite (shown_total filled f "price" (VInt z) Hall Hf Hz).
Qed.

(** [create_dataframe] on enriched records. *)
Lemma create_dataframe_enriched tie (products : list dict) :
  products ≠ [] → Forall enriched products →
  ∃ filled df0 indexer,
    fill_all products = Ok filled ∧
    Forall2 (λ p f : dict, fill_basic_details p = Ok f) products filled ∧
    Forall enriched filled ∧
    df_columns df0 = columns_order ∧
    Forall2 (λ (f : dict) (row : gmap string cell), carries filled row f)
            filled (df_rows df0) ∧
    argsort tie ((λ z, Some (KNum z)) <$> prices products) = Ok indexer ∧
    indexer ≡ₚ seq 0 (length products) ∧
    Sorted Z.le (omap (λ i, prices products !! i) indexer) ∧
    create_dataframe tie products = Ok (reset_index (take_rows indexer df0)).
Proof.
  intros Hne Hen.
  destruct (fill_all_spec products Hen) as (filled & Hfill & F2).
  pose proof (fill_all_enriched _ _ Hen F2) as Hen'.
  destruct (create_dataframe_filled tie products filled Hne Hfill)
    as (df0 & Hcols & Hrows & Hdf).
  rewrite (price_keys_enriched filled Hen'), (fill_all_prices _ _ F2) in Hdf.
  destruct (argsort_integers tie (prices products)) as (indexer & Harg & Hperm & Hs).
  rewrite Harg in Hdf. exists filled, df0, indexer.
  pose proof (Forall2_length _ _ _ (prices_enriched products Hen)) as Hlen.
  rewrite <-Hlen in Hperm. done.
Qed.

(** The price and the title of an enriched record, in its row. *)
Lemma carries_enriched (filled : list dict) row (f : dict) :
  Forall enriched filled → f ∈ filled → carries filled row f →
  row !! "title" = Val <$> f !! "title" ∧ row !! "price" = Val <$> f !! "price".
Proof.
  intros Hen Hf Hc.
  destruct (proj1 (Forall_forall _ _) Hen f Hf) as [[t Ht] [z Hz]].
  split.
  - rewrite (Hc "title"%string) by (unfold columns_order; list_elem).
    rewrite (shown_str filled f "title" t Hf Ht). by rewrite Ht.
  - rewrite (Hc "price"%string price_in_columns).
    rewrite (shown_total filled f "price" (VInt z)); [by rewrite Hz| |done|done].
    eapply Forall_impl; [exact Hen|]. intros f' [_ [z' Hz']]. by rewrite Hz'.
Qed.

(** C4, as the code has it.  For every non-empty sequence of enriched
    records, and whatever order the array library leaves equal prices in:
    [create_dataframe] returns a frame with the canonical columns, whose
    rows are those of the filled records, each once, with the record's title
    and price; the prices, compared as integers, are a rearrangement of the
    input's and ascending, so that each price is at most the next one; and
    the index is renumbered 0, 1, 2, ...  Nothing is said of the order among
    records of equal price. *)
Theorem create_dataframe_sorted (tie : nat → nat) (products : list dict) :
  products ≠ [] →
  Forall enriched products →
  ∃ df filled indexer ps,
    create_dataframe tie products = Ok df ∧
    fill_all products = Ok filled ∧
    df_columns df = columns_order ∧
    df_index df = seq 0 (length products) ∧
    indexer ≡ₚ seq 0 (length products) ∧
    Forall2 (λ row i, ∃ f, filled !! i = Some f ∧ carries filled row f ∧
                           row !! "title" = Val <$> f !! "title" ∧
                           row !! "price" = Val <$> f !! "price")
            (df_rows df) indexer ∧
    Forall2 (λ row p, price_of_row row = Some p) (df_rows df) ps ∧
    ps ≡ₚ prices products ∧
    Sorted Z.le ps ∧
    (∀ i p q, ps !! i = Some p → ps !! S i = Some q → p ≤ q).
Proof.
  intros Hne Hen.
  destruct (create_dataframe_enriched tie products Hne Hen)
    as (filled & df0 & indexer & Hfill & F2 & Hen' & Hcols & Hrows & _ & Hperm
        & Hsorted & Hdf).
  pose proof (fill_all_prices _ _ F2) as Hpr.
  pose proof (Forall2_length _ _ _ F2) as Hlen1.
  pose proof (Forall2_length _ _ _ Hrows) as Hlen2.
  pose proof (Forall2_length _ _ _ (prices_enriched products Hen)) as Hlen3.
  assert (Forall (λ i, i < length products)%nat indexer) as Hrange.
  { apply Forall_forall. intros i Hi. rewrite Hperm in Hi.
    apply elem_of_seq in Hi. lia. }
  set (ps := omap (λ i, prices products !! i) indexer) in *.
  assert (Forall2 (λ i row, df_rows df0 !! i = Some row) indexer
            (omap (λ i, df_rows df0 !! i) indexer)) as Htake.
  { apply omap_lookup_total. eapply Forall_impl; [exact Hrange|]. simpl. lia. }
  assert (Forall2 (λ i z, prices products !! i = Some z) indexer ps) as Hkeys.
  { apply omap_lookup_total. eapply Forall_impl; [exact Hrange|]. simpl. lia. }
  exists (reset_index (take_rows indexer df0)), filled, indexer, ps.
  split; [done|]. split; [done|]. split; [done|]. split.
  { simpl. f_equal. rewrite <-(Forall2_length _ _ _ Htake).
    rewrite Hperm, length_seq. lia. }
  split; [done|].
  assert (Forall2 (λ row i, ∃ f, filled !! i = Some f ∧ carries filled row f ∧
                                 row !! "title" = Val <$> f !! "title" ∧
                                 row !! "price" = Val <$> f !! "price")
            (omap (λ i, df_rows df0 !! i) indexer) indexer) as Hfrom.
  { apply Forall2_flip. eapply Forall2_impl; [exact Htake|].
    intros i row Hrow. simpl.
    destruct (Forall2_lookup_r _ _ _ _ _ Hrows Hrow) as (f & Hf & Hc).
    exists f. split; [done|]. split; [done|].
    apply (carries_enriched filled); [done| |done].
    by eapply list_elem_of_lookup_2. }
  split; [exact Hfrom|]. split.
  { eapply Forall2_trans; [|exact Hfrom|exact Hkeys].
    intros row i z (f & Hf & _ & _ & Hprice) Hz. unfold price_of_row. rewrite Hprice.
    assert (prices filled !! i = Some z) as Hz' by (by rewrite Hpr).
    destruct (Forall2_lookup_l _ _ _ _ _ (prices_enriched filled Hen') Hf)
      as (z2 & Hz2 & Hfz).
    assert (z2 = z) as -> by congruence. unfold price_of in Hfz.
    by destruct (f !! "price") as [[?|?]|]; simplify_eq. }
  split.
  { subst ps. apply omap_lookup_permutation. by rewrite <-Hlen3. }
  split; [done|].
  intros i p q. by apply Sorted_adjacent.
Qed.

(** *** Ties *)

(** The row is the record's, told by title and url. *)
Definition shows (row : gmap string cell) (product : dict) : Prop :=
  row !! "title" = Val <$> product !! "title" ∧
  row !! "url" = Val <$> product !! "url".

(** Rows of equal price stand in the order their records had in the input. *)
Definition stable_for_ties (products : list dict) (df : DataFrame) : Prop :=
  ∀ j1 j2 r1 r2 p,
    (j1 < j2)%nat →
    df_rows df !! j1 = Some r1 → df_rows df !! j2 = Some r2 →
    price_of_row r1 = Some p → price_of_row r2 = Some p →
    ∃ i1 i2 f1 f2,
      (i1 < i2)%nat ∧ products !! i1 = Some f1 ∧ products !! i2 = Some f2 ∧
      shows r1 f1 ∧ shows r2 f2.

(** C4 with its stability clause, as the specification words it: whatever
    the sort does with equal prices, they keep the input's order. *)
Definition sort_is_stable : Prop :=
  ∀ tie products df,
    products ≠ [] → Forall enriched products →
    create_dataframe tie products = Ok df →
    stable_for_ties products df.

(** The two capital letters that number an offer: AA, AB, ..., AZ, BA, ... *)
Definition offer_code (i : nat) : str :=
  [N.of_nat (65 + i / 26); N.of_nat (65 + i mod 26)].

(** Three hundred offers at the same price, told apart by their codes. *)
Definition same_price_offer (i : nat) : dict :=
  <["title" := VStr (u "翻新 Mac mini " ++ offer_code i)]>
    (<["url" := VStr (u "https://www.apple.com.cn/shop/product/" ++ offer_code i)]>
       (<["price" := VInt 3999]> ∅)).

Definition same_price_offers : list dict := map same_price_offer (seq 0 300).

(** A sort that leaves equal prices in the reverse of the order they came
    in, as a partitioning sort does with what it moves across its pivot. *)
Definition reversing : nat → nat := λ i, (300 - i)%nat.

Lemma same_price_offers_enriched : Forall enriched same_price_offers.
Proof.
  unfold same_price_offers. apply Forall_forall. intros f Hf.
  apply list_elem_of_fmap in Hf as (i & -> & _). split; eexists; reflexivity.
Qed.

Lemma same_price_offers_title i f :
  same_price_offers !! i = Some f →
  f !! "title" = Some (VStr (u "翻新 Mac mini " ++ offer_code i)).
Proof.
  unfold same_price_offers. rewrite list_lookup_fmap.
  destruct (seq 0 300 !! i) as [j|] eqn:E; [|done].
  apply lookup_seq in E as [-> _]. by intros [= <-].
Qed.

Lemma same_price_offers_price i f :
  same_price_offers !! i = Some f → f !! "price" = Some (VInt 3999).
Proof.
  unfold same_price_offers. rewrite list_lookup_fmap.
  destruct (seq 0 300 !! i) as [j|]; [|done]. intros [= <-].
  unfold same_price_offer. rewrite !lookup_insert_ne by done. apply lookup_insert_eq.
Qed.

Lemma offer_code_inj i j : offer_code i = offer_code j → i = j.
Proof.
  unfold offer_code. intros H.
  assert (65 + i / 26 = 65 + j / 26 ∧ 65 + i mod 26 = 65 + j mod 26)%nat as [H1 H2].
  { split; apply Nat2N.inj; congruence. }
  rewrite (Nat.div_mod_eq i 26), (Nat.div_mod_eq j 26). lia.
Qed.

Lemma same_price_offers_prices : prices same_price_offers = replicate 300 3999.
Proof. by vm_compute. Qed.

Lemma reversing_indexer :
  argsort reversing ((λ z, Some (KNum z)) <$> replicate 300 3999)
  = Ok (reverse (seq 0 300)).
Proof. by vm_compute. Qed.

Lemma title_cell_inj (pre a b : str) :
  Val <$> Some (VStr (pre ++ a)) = Val <$> Some (VStr (pre ++ b)) → a = b.
Proof.
  intros H. assert (pre ++ a = pre ++ b) as H'.
  { cbn [fmap option_fmap option_map] in H. congruence. }
  by apply app_inv_head in H'.
Qed.

(** C4, the stability clause fails: of three hundred records of one price,
    a sort that reverses equal prices puts the last record first. *)
Lemma sort_not_stable : ¬ sort_is_stable.
Proof.
  intros H.
  destruct (create_dataframe_enriched reversing same_price_offers)
    as (filled & df0 & indexer & Hfill & F2 & Hen' & Hcols & Hrows & Harg & _ & _ & Hdf);
    [done|exact same_price_offers_enriched|].
  rewrite same_price_offers_prices, reversing_indexer in Harg.
  apply Ok_inj in Harg. subst indexer.
  specialize (H reversing same_price_offers _ ltac:(done)
                same_price_offers_enriched Hdf).
  pose proof (Forall2_length _ _ _ F2) as Hlen1.
  pose proof (Forall2_length _ _ _ Hrows) as Hlen2.
  assert (length same_price_offers = 300%nat) as Hlen by reflexivity.
  assert (∀ j i, reverse (seq 0 300) !! j = Some i →
                 ∃ row p f,
                   df_rows (reset_index (take_rows (reverse (seq 0 300)) df0)) !! j = Some row ∧
                   same_price_offers !! i = Some p ∧
                   row !! "title" = Val <$> p !! "title" ∧
                   price_of_row row = Some 3999 ∧ filled !! i = Some f) as Hrow.
  { intros j i Hj.
    assert (i < 300)%nat as Hi.
    { apply list_elem_of_lookup_2, elem_of_reverse, elem_of_seq in Hj. lia. }
    destruct (lookup_lt_is_Some_2 same_price_offers i) as [p Hp]; [lia|].
    destruct (Forall2_lookup_l _ _ _ _ _ F2 Hp) as (f & Hf & Hpf).
    destruct (Forall2_lookup_l _ _ _ _ _ Hrows Hf) as (row & Hr & Hc).
    exists row, p, f. cbn [reset_index take_rows df_rows].
    assert (omap (λ i0, df_rows df0 !! i0) (reverse (seq 0 300)) !! j = Some row) as Hjr.
    { assert (Forall2 (λ i0 x, df_rows df0 !! i0 = Some x) (reverse (seq 0 300))
                (omap (λ i0, df_rows df0 !! i0) (reverse (seq 0 300)))) as Ht.
      { apply omap_lookup_total. apply Forall_forall. intros i0 Hi0.
        apply elem_of_reverse, elem_of_seq in Hi0. lia. }
      destruct (Forall2_lookup_l _ _ _ _ _ Ht Hj) as (row' & Hrow' & Hr').
      congruence. }
    split; [done|]. split; [done|].
    destruct (carries_enriched filled row f Hen') as [Htitle Hprice];
      [by eapply list_elem_of_lookup_2|done|].
    split.
    - rewrite Htitle. rewrite (fill_basic_details_other _ _ "title" Hpf); [done|].
      unfold title_keys. list_not_elem.
    - unfold price_of_row. rewrite Hprice.
      rewrite (fill_basic_details_other _ _ "price" Hpf)
        by (unfold title_keys; list_not_elem).
      rewrite (same_price_offers_price _ _ Hp). split; [reflexivity|exact Hf]. }
  destruct (Hrow 0%nat 299%nat eq_refl) as (r1 & p1 & _ & Hr1 & Hp1 & Ht1 & Hz1 & _).
  destruct (Hrow 1%nat 298%nat eq_refl) as (r2 & p2 & _ & Hr2 & Hp2 & Ht2 & Hz2 & _).
  destruct (H 0%nat 1%nat r1 r2 3999 ltac:(lia) Hr1 Hr2 Hz1 Hz2)
    as (i1 & i2 & f1 & f2 & Hlt & H1 & H2 & [S1 _] & [S2 _]).
  apply same_price_offers_title in H1, H2, Hp1, Hp2.
  rewrite Ht1, Hp1, H1 in S1. rewrite Ht2, Hp2, H2 in S2.
  apply title_cell_inj, offer_code_inj in S1. apply title_cell_inj, offer_code_inj in S2.
  lia.
Qed.

(** *** The theorems at concrete records *)

Definition scenario_title : str :=
  u "翻新 MacBook Air 13 英寸机型搭载 Apple M2 芯片 8 核中央处理器 10 核图形处理器 深空灰色".

Definition offer (title : str) (price : Z) : dict :=
  <["title" := VStr title]>
    (<["url" := VStr (u "https://www.apple.com.cn/shop/product/FLXW3CH/A")]>
       (<["price" := VInt price]> ∅)).

Definition three_offers : list dict :=
  [offer scenario_title 9999; offer (u "翻新 Mac mini") 3999;
   offer (u "翻新 iMac") 7999].

Lemma offer_enriched title price : enriched (offer title price).
Proof. split; eexists; reflexivity. Qed.

(** A sort that leaves equal prices in the order they came in. *)
Definition in_order : nat → nat := λ _, 0%nat.

Lemma create_dataframe_sorted_witness :
  ∃ df filled indexer ps,
    create_dataframe in_order three_offers = Ok df ∧
    fill_all three_offers = Ok filled ∧
    df_columns df = columns_order ∧
    df_index df = seq 0 (length three_offers) ∧
    indexer ≡ₚ seq 0 (length three_offers) ∧
    Forall2 (λ row i, ∃ f, filled !! i = Some f ∧ carries filled row f ∧
                           row !! "title" = Val <$> f !! "title" ∧
                           row !! "price" = Val <$> f !! "price")
            (df_rows df) indexer ∧
    Forall2 (λ row p, price_of_row row = Some p) (df_rows df) ps ∧
    ps ≡ₚ prices three_offers ∧
    Sorted Z.le ps ∧
    (∀ i p q, ps !! i = Some p → ps !! S i = Some q → p ≤ q).
Proof.
  apply (create_dataframe_sorted in_order three_offers).
  - discriminate.
  - repeat constructor; apply offer_enriched.
Defined.

Lemma fill_precedence_witness :
  ∃ filled,
    fill_basic_details (<["chip" := VStr (u "M3")]> (offer scenario_title 9999))
    = Ok filled ∧
    filled !! "chip" = Some (VStr (u "M3")) ∧
    filled !! "model" = Some (VStr (u "MacBook Air")).
Proof.
  destruct (fill_precedence (<["chip" := VStr (u "M3")]> (offer scenario_title 9999))
              scenario_title "chip" (VStr (u "M2")))
    as (filled & Hfill & Hkeep & _).
  { by vm_compute. }
  { vm_compute. list_elem. }
  exists filled. split; [exact Hfill|]. split.
  - by apply Hkeep.
  - apply Ok_inj in Hfill. subst filled. by vm_compute.
Defined.

Lemma empty_input_empty_frame_witness :
  ∃ df, create_dataframe in_order [offer (u "翻新 Mac mini") 3999] = Ok df ∧
        df_columns df =
          ["model"; "screen_size"; "chip"; "cpu_cores"; "gpu_cores"; "color";
           "memory"; "storage"; "release_year"; "price"; "title"; "url"]%string.
Proof.
  destruct (create_dataframe in_order [offer (u "翻新 Mac mini") 3999])
    as [df|e] eqn:E; [|by vm_compute in E].
  exists df. split; [reflexivity|].
  apply (proj2 (proj2 (proj2 empty_input_empty_frame)) in_order
               [offer (u "翻新 Mac mini") 3999] df); [discriminate|exact E].
Defined.

(** ** parse_product_list *)

(** [rec] is the record of the link at [pos]: the link is a refurbished one,
    the record has its title and its normalized URL, and no refurbished
    link before it has that URL. *)
Definition first_sighting (links : list (str * str)) (pos : nat) (rec : dict) : Prop :=
  ∃ href title,
    links !! pos = Some (href, title) ∧
    startswith title REFURB_MARKER = true ∧
    rec = candidate title (normalize_url href) ∧
    ∀ pos' href' title',
      (pos' < pos)%nat → links !! pos' = Some (href', title') →
      startswith title' REFURB_MARKER = true →
      normalize_url href' ≠ normalize_url href.

Definition record_url (rec : dict) : option value := rec !! "url".

Lemma record_url_candidate title url : record_url (candidate title url) = Some (VStr url).
Proof. reflexivity. Qed.

Lemma first_sighting_app links x pos rec :
  first_sighting links pos rec → first_sighting (links ++ [x]) pos rec.
Proof.
  intros (href & title & Hl & Hm & -> & Hfirst).
  pose proof (lookup_lt_Some _ _ _ Hl) as Hlt.
  exists href, title. split; [by rewrite lookup_app_l|]. split; [done|]. split; [done|].
  intros pos' href' title' Hp Hl'. rewrite lookup_app_l in Hl' by lia. by eapply Hfirst.
Qed.

Lemma StronglySorted_snoc (l : list nat) n :
  StronglySorted lt l → Forall (λ p, p < n)%nat l → StronglySorted lt (l ++ [n]).
Proof.
  induction 1 as [|a l Hs IH Ha]; intros Hn; simpl.
  - repeat constructor.
  - apply Forall_cons in Hn as [Han Hn]. constructor; [by apply IH|].
    apply Forall_app. split; [done|]. by constructor.
Qed.

Lemma visit_links_invariant (links : list (str * str)) :
  ∃ positions,
    StronglySorted lt positions ∧
    Forall (λ p, p < length links)%nat positions ∧
    Forall2 (first_sighting links) positions (foldl visit_link (∅, []) links).2 ∧
    (∀ url, url ∈ (foldl visit_link (∅, []) links).1 ↔
            ∃ title, candidate title url ∈ (foldl visit_link (∅, []) links).2) ∧
    (∀ pos href title,
        links !! pos = Some (href, title) → startswith title REFURB_MARKER = true →
        normalize_url href ∈ (foldl visit_link (∅, []) links).1) ∧
    NoDup (record_url <$> (foldl visit_link (∅, []) links).2).
Proof.
  induction links as [|[href title] links IH] using rev_ind.
  - exists []. simpl. repeat split; try constructor.
    + intros H. by apply elem_of_empty in H.
    + intros [t H]. by apply elem_of_nil in H.
    + intros pos h t H. done.
  - destruct IH as (positions & I1 & I2 & I3 & I4 & I5 & I6).
    rewrite foldl_app. cbn [foldl].
    destruct (foldl visit_link (∅, []) links) as [seen products] eqn:Est.
    cbn [fst snd] in *. unfold visit_link.
    assert (∀ pos h t, (links ++ [(href, title)]) !! pos = Some (h, t) →
              (pos < length links ∧ links !! pos = Some (h, t))%nat ∨
              (pos = length links ∧ h = href ∧ t = title)) as Hsplit.
    { intros pos h t Hl. destruct (decide (pos < length links)%nat) as [Hlt|Hge].
      - left. by rewrite lookup_app_l in Hl.
      - right. rewrite lookup_app_r in Hl by lia.
        destruct (pos - length links)%nat as [|k] eqn:Ek; simpl in Hl; [|done].
        injection Hl as <- <-. split; [lia|done]. }
    assert (Forall (λ p, p < length (links ++ [(href, title)]))%nat positions) as I2'.
    { eapply Forall_impl; [exact I2|]. intros p Hp. simpl in Hp. rewrite length_app. simpl. lia. }
    assert (Forall2 (first_sighting (links ++ [(href, title)])) positions products) as I3'.
    { eapply Forall2_impl; [exact I3|]. intros p r. apply first_sighting_app. }
    destruct (startswith title REFURB_MARKER) eqn:Hm.
    + case_bool_decide as Hseen.
      * exists (positions ++ [length links]). cbn [fst snd].
        split; [by apply StronglySorted_snoc|]. split.
        { apply Forall_app. split; [done|]. constructor; [|constructor].
          rewrite length_app. simpl. lia. }
        split.
        { apply Forall2_app; [done|]. constructor; [|constructor].
          exists href, title. split; [by rewrite lookup_app_r, Nat.sub_diag|].
          split; [done|]. split; [done|].
          intros pos' h' t' Hp Hl' Hm' Heq. rewrite lookup_app_l in Hl' by lia.
          apply Hseen. rewrite <-Heq. by eapply I5. }
        split.
        { intros url. rewrite elem_of_union, elem_of_singleton, I4. split.
          - intros [->|[t Ht]].
            + exists title. apply elem_of_app. right. by apply list_elem_of_singleton.
            + exists t. apply elem_of_app. by left.
          - intros [t Ht]. apply elem_of_app in Ht as [Ht|Ht]; [right; by exists t|].
            apply list_elem_of_singleton in Ht. left.
            assert (record_url (candidate t url)
                    = record_url (candidate title (normalize_url href))) as Hu
              by (by rewrite Ht).
            rewrite !record_url_candidate in Hu. by injection Hu. }
        split.
        { intros pos h t Hl Hmt. apply elem_of_union.
          destruct (Hsplit _ _ _ Hl) as [[_ Hl']|(_ & -> & ->)].
          - right. by eapply I5.
          - left. by apply elem_of_singleton. }
        { rewrite fmap_app. apply NoDup_app. split; [done|]. split.
          - intros x Hx Hx'. apply list_elem_of_singleton in Hx'.
            apply list_elem_of_fmap in Hx as (r & -> & Hr).
            destruct (list_elem_of_lookup_1 _ _ Hr) as [j Hj].
            destruct (Forall2_lookup_r _ _ _ _ _ I3 Hj) as (pj & _ & h' & t' & _ & _ & -> & _).
            simpl in Hx'. rewrite !record_url_candidate in Hx'. injection Hx' as Hx'.
            apply Hseen. apply I4. exists t'. rewrite <-Hx'. done.
          - apply NoDup_singleton. }
      * exists positions. cbn [fst snd]. repeat split; try done.
        -- apply I4.
        -- apply I4.
        -- intros pos h t Hl Hmt.
           destruct (Hsplit _ _ _ Hl) as [[_ Hl']|(_ & -> & ->)]; [by eapply I5|].
           exact Hseen.
    + exists positions. cbn [fst snd]. repeat split; try done.
      * apply I4.
      * apply I4.
      * intros pos h t Hl Hmt.
        destruct (Hsplit _ _ _ Hl) as [[_ Hl']|(_ & -> & ->)]; [by eapply I5|].
        congruence.
Qed.

Lemma split_head_app_sep sep h q :
  sep ∉ h → split_head sep (h ++ sep :: q) = h.
Proof.
  unfold split_head. induction h as [|c h IH]; intros Hn; simpl.
  - by rewrite N.eqb_refl.
  - apply not_elem_of_cons in Hn as [Hne Hn].
    destruct (N.eqb_spec c sep) as [->|_]; [done|]. simpl. by rewrite IH.
Qed.

Lemma split_head_id sep s : sep ∉ s → split_head sep s = s.
Proof.
  unfold split_head. induction s as [|c s IH]; intros Hn; simpl; [done|].
  apply not_elem_of_cons in Hn as [Hne Hn].
  destruct (N.eqb_spec c sep) as [->|_]; [done|]. simpl. by rewrite IH.
Qed.

Lemma split_head_no_sep sep s : sep ∉ split_head sep s.
Proof.
  unfold split_head. induction s as [|c s IH]; simpl; [by intros H%elem_of_nil|].
  destruct (N.eqb_spec c sep) as [->|Hne]; simpl; [by intros H%elem_of_nil|].
  intros H. apply elem_of_cons in H as [->|H]; done.
Qed.

Lemma split_head_origin href :
  split_head QUESTION_MARK (ORIGIN ++ href) = ORIGIN ++ split_head QUESTION_MARK href.
Proof. reflexivity. Qed.

Lemma normalize_url_cases href :
  normalize_url href =
    if startswith href HTTP then split_head QUESTION_MARK href
    else ORIGIN ++ split_head QUESTION_MARK href.
Proof.
  unfold normalize_url. destruct (startswith href HTTP); simpl; [done|].
  apply split_head_origin.
Qed.

Lemma startswith_http_query href query :
  QUESTION_MARK ∉ href →
  startswith (href ++ QUESTION_MARK :: query) HTTP = startswith href HTTP.
Proof.
  intros Hn. unfold startswith, HTTP.
  destruct href as [|c1 [|c2 [|c3 [|c4 r]]]]; cbn [strip_prefix app];
    repeat (match goal with |- context [(?a =? ?b)%N] =>
              destruct (N.eqb_spec a b) end);
    try reflexivity; try discriminate.
Qed.

Lemma normalize_url_query href query :
  QUESTION_MARK ∉ href →
  normalize_url (href ++ QUESTION_MARK :: query) = normalize_url href.
Proof.
  intros Hn. rewrite !normalize_url_cases. rewrite startswith_http_query by done.
  rewrite split_head_app_sep by done. rewrite split_head_id by done. done.
Qed.

(** The record of a link: its text as title, its URL as url, and no other
    key. *)
Definition record_of (rec : dict) (title url : str) : Prop :=
  rec !! "title" = Some (VStr title) ∧ rec !! "url" = Some (VStr url) ∧
  ∀ key, key ≠ "title"%string → key ≠ "url"%string → rec !! key = None.

(** [rec] is the record of the link at [pos]: the link is a refurbished one,
    the record has its title and its normalized URL, and no refurbished
    link before it has that URL. *)
Definition first_seen (links : list (str * str)) (pos : nat) (rec : dict) : Prop :=
  ∃ href title,
    links !! pos = Some (href, title) ∧
    startswith title REFURB_MARKER = true ∧
    record_of rec title (normalize_url href) ∧
    ∀ pos' href' title',
      (pos' < pos)%nat → links !! pos' = Some (href', title') →
      startswith title' REFURB_MARKER = true →
      normalize_url href' ≠ normalize_url href.

(** [link] is what a product link's <a> tag gives: its href, in which the
    product pattern occurs, and its text. *)
Definition product_link (is_word : char → bool) (a : anchor) (link : str * str)
  : Prop :=
  a_href a = Some link.1 ∧ a_text a = link.2 ∧
  ¬ nowhere (PRODUCT_HREF is_word) link.1.

Lemma candidate_record title url : record_of (candidate title url) title url.
Proof.
  unfold record_of, candidate. split; [by rewrite lookup_insert_eq|]. split.
  - rewrite lookup_insert_ne by done. by rewrite lookup_insert_eq.
  - intros key H1 H2. by rewrite !lookup_insert_ne, lookup_empty by done.
Qed.

Lemma first_sighting_seen links pos rec :
  first_sighting links pos rec → first_seen links pos rec.
Proof.
  intros (href & title & Hl & Hm & -> & Hfirst). exists href, title.
  split; [done|]. split; [done|]. split; [apply candidate_record|done].
Qed.

(** What [omap] keeps, by position. *)
Lemma omap_positions {A B} (f : A → option B) (l : list A) :
  ∃ kept,
    StronglySorted lt kept ∧
    Forall (λ i, i < length l)%nat kept ∧
    Forall2 (λ i y, ∃ x, l !! i = Some x ∧ f x = Some y) kept (omap f l) ∧
    ∀ i x y, l !! i = Some x → f x = Some y → i ∈ kept.
Proof.
  induction l as [|x l (kept & I1 & I2 & I3 & I4)] using rev_ind.
  - exists []. split; [constructor|]. split; [constructor|]. split; [constructor|].
    by intros i x y H.
  - rewrite omap_app. cbn [omap list_omap].
    assert (Forall (λ i, i < length (l ++ [x]))%nat kept) as I2'.
    { eapply Forall_impl; [exact I2|]. intros i Hi. rewrite length_app.
      simpl in *. lia. }
    assert (Forall2 (λ i y, ∃ x0, (l ++ [x]) !! i = Some x0 ∧ f x0 = Some y)
              kept (omap f l)) as I3'.
    { apply Forall2_same_length_lookup. split; [by eapply Forall2_length|].
      intros j i y Hi Hy.
      destruct (Forall2_lookup_l _ _ _ _ _ I3 Hi) as (y' & Hy' & x0 & Hx0 & Hf).
      assert (y' = y) as -> by congruence. exists x0. split; [|done].
      by apply lookup_app_l_Some. }
    destruct (f x) as [y|] eqn:E.
    + exists (kept ++ [length l]). split; [by apply StronglySorted_snoc|]. split.
      { apply Forall_app. split; [done|]. constructor; [|constructor].
        rewrite length_app. simpl. lia. }
      split.
      { apply Forall2_app; [done|]. constructor; [|constructor].
        exists x. split; [|done]. by rewrite lookup_app_r, Nat.sub_diag by lia. }
      intros i x0 y0 Hi Hf. apply elem_of_app.
      destruct (decide (i < length l)%nat) as [Hlt|Hge].
      * left. rewrite lookup_app_l in Hi by done. by eapply I4.
      * right. apply lookup_lt_Some in Hi as Hi'. rewrite length_app in Hi'.
        simpl in Hi'. assert (i = length l) as -> by lia. by left.
    + exists kept. rewrite app_nil_r. split; [done|]. split; [done|]. split; [done|].
      intros i x0 y0 Hi Hf.
      destruct (decide (i < length l)%nat) as [Hlt|Hge].
      * rewrite lookup_app_l in Hi by done. by eapply I4.
      * apply lookup_lt_Some in Hi as Hi'. rewrite length_app in Hi'. simpl in Hi'.
        assert (i = length l) as -> by lia.
        rewrite lookup_app_r, Nat.sub_diag in Hi by lia. injection Hi as <-.
        congruence.
Qed.

(** C3, as the code has it.  For every listing HTML, with [links] the
    product links the HTML collaborator finds in it (the <a> tags that have
    an href in which the product pattern occurs, in document order, each as
    its href and its text): the records [parse_product_list] returns are the
    first sightings of the refurbished links' normalized URLs, in the order
    of the links (there are strictly increasing positions, one per record,
    each the first refurbished link with that normalized URL; the record
    has that link's text as its title, the normalized URL as its url, and
    no other key); no two records share a URL; every refurbished link's
    normalized URL has a record.  The normalized URL is the href with the
    site origin put in front unless it begins with "http" (so in front of
    every href that begins with "/"), cut at its first "?"; so links that
    differ only in their query string share one. *)
Theorem parse_product_list_dedup (soup_anchors : str → list anchor)
    (is_word : char → bool) (html_content : str) :
  let anchors := soup_anchors html_content in
  let links := find_all_a soup_anchors is_word html_content in
  let products := parse_product_list soup_anchors is_word html_content in
  (∃ kept,
      StronglySorted lt kept ∧
      Forall2 (λ i link, ∃ a, anchors !! i = Some a ∧ product_link is_word a link)
              kept links ∧
      ∀ i a link, anchors !! i = Some a → product_link is_word a link → i ∈ kept) ∧
  (∃ positions,
      StronglySorted lt positions ∧
      Forall2 (first_seen links) positions products) ∧
  NoDup (record_url <$> products) ∧
  (∀ pos href title,
      links !! pos = Some (href, title) →
      startswith title REFURB_MARKER = true →
      ∃ rec title0, rec ∈ products ∧ record_of rec title0 (normalize_url href)) ∧
  (∀ href,
      normalize_url href =
        if startswith href HTTP then split_head QUESTION_MARK href
        else ORIGIN ++ split_head QUESTION_MARK href) ∧
  (∀ href rest,
      href = u "/" ++ rest →
      normalize_url href = ORIGIN ++ split_head QUESTION_MARK href) ∧
  (∀ href query,
      QUESTION_MARK ∉ href →
      normalize_url (href ++ QUESTION_MARK :: query) = normalize_url href).
Proof.
  intros anchors links products. split.
  { subst links. unfold find_all_a. fold anchors.
    set (f := λ a : anchor,
                match a_href a with
                | Some href =>
                    match search (PRODUCT_HREF is_word) href with
                    | Some _ => Some (href, a_text a)
                    | None => None
                    end
                | None => None
                end).
    destruct (omap_positions f anchors) as (kept & K1 & _ & K3 & K4).
    assert (∀ a link, f a = Some link ↔ product_link is_word a link) as Hf.
    { intros a [href title]. unfold f, product_link. cbn [fst snd].
      destruct (a_href a) as [href'|]; [|by split; [|intros [? _]]].
      destruct (search (PRODUCT_HREF is_word) href') as [m|] eqn:Es.
      - split.
        + intros [= -> <-]. split; [done|]. split; [done|].
          intros Hn%search_None. congruence.
        + by intros ([= ->] & -> & _).
      - split; [done|]. intros ([= ->] & _ & Hn). destruct Hn. by apply search_None. }
    exists kept. split; [done|]. split.
    - eapply Forall2_impl; [exact K3|]. intros i link (a & Ha & Hl).
      exists a. split; [done|]. by apply Hf.
    - intros i a link Ha Hl. eapply K4; [done|]. by apply Hf. }
  subst products. unfold parse_product_list. fold links.
  destruct (visit_links_invariant links) as (positions & I1 & I2 & I3 & I4 & I5 & I6).
  split.
  { exists positions. split; [done|]. eapply Forall2_impl; [exact I3|].
    intros pos rec. apply first_sighting_seen. }
  split; [done|]. split.
  { intros pos href title Hl Hm.
    destruct (proj1 (I4 (normalize_url href))) as [title0 Hin]; [by eapply I5|].
    exists (candidate title0 (normalize_url href)), title0.
    split; [done|apply candidate_record]. }
  split; [apply normalize_url_cases|]. split; [|apply normalize_url_query].
  intros href rest ->. by rewrite normalize_url_cases.
Qed.

(** A listing with an upsell link and two links to one product, the second
    with a query string. *)
Definition sample_anchors : list anchor :=
  [ {| a_href := Some (u "/shop/product/ABC1/a"); a_text := u "新款 MacBook Air" |};
    {| a_href := Some (u "/shop/product/FLXW3CH/a"); a_text := u "翻新 Mac mini" |};
    {| a_href := None; a_text := u "翻新" |};
    {| a_href := Some (u "/shop/product/FLXW3CH/a?fnode=1"); a_text := u "翻新 Mac mini M2" |} ].

Definition ascii_word (c : char) : bool :=
  ((0x30 <=? c) && (c <=? 0x39) || (0x41 <=? c) && (c <=? 0x5A)
   || (0x61 <=? c) && (c <=? 0x7A) || (c =? 0x5F))%N.

Lemma parse_product_list_dedup_witness :
  ∃ rec title0,
    rec ∈ parse_product_list (λ _, sample_anchors) ascii_word [] ∧
    record_of rec title0 (u "https://www.apple.com.cn/shop/product/FLXW3CH/a").
Proof.
  apply (proj1 (proj2 (proj2 (proj2
           (parse_product_list_dedup (λ _, sample_anchors) ascii_word []))))
           2%nat (u "/shop/product/FLXW3CH/a?fnode=1") (u "翻新 Mac mini M2")).
  - by vm_compute.
  - by vm_compute.
Defined.

(** *** Relative hrefs *)

Definition SCHEME_MARK : str := Eval vm_compute in u "://".

(** An absolute URL: a scheme, "://", and the rest.  Any other href is
    relative to the page it is on. *)
Definition absolute (url : str) : Prop :=
  ∃ scheme rest, url = scheme ++ SCHEME_MARK ++ rest ∧ scheme ≠ [].

Definition relative (href : str) : Prop := ¬ absolute href.

(** C3 with its clause on relative hrefs, as the specification words it:
    the URL of a record made from a relative href is the site origin put in
    front of it, cut at the first "?". *)
Definition relative_made_absolute : Prop :=
  ∀ (soup_anchors : str → list anchor) (is_word : char → bool) (html_content : str)
    (a : anchor) (href : str) (rec : dict),
    a ∈ soup_anchors html_content → a_href a = Some href → relative href →
    rec ∈ parse_product_list soup_anchors is_word html_content →
    rec !! "title" = Some (VStr (a_text a)) →
    rec !! "url" = Some (VStr (ORIGIN ++ split_head QUESTION_MARK href)).

(** A listing whose one product link has a relative href that begins with
    "http". *)
Definition relative_anchor : anchor :=
  {| a_href := Some (u "http-deals/shop/product/ABC1/a");
     a_text := u "翻新 Mac mini" |}.

Lemma relative_anchor_href : relative (u "http-deals/shop/product/ABC1/a").
Proof.
  intros (scheme & rest & H & _).
  assert (0x3A%N ∈ u "http-deals/shop/product/ABC1/a") as Hin.
  { rewrite H. apply elem_of_app. right. by left. }
  compute_in_list Hin.
Qed.

(** C3, the clause on relative hrefs fails: the record of a relative href
    that begins with "http" has the href as it is for its url, which is no
    absolute URL. *)
Lemma relative_href_kept :
  parse_product_list (λ _, [relative_anchor]) ascii_word []
  = [<["title" := VStr (u "翻新 Mac mini")]>
       (<["url" := VStr (u "http-deals/shop/product/ABC1/a")]> ∅)] ∧
  relative (u "http-deals/shop/product/ABC1/a") ∧
  ¬ relative_made_absolute.
Proof.
  assert (parse_product_list (λ _, [relative_anchor]) ascii_word []
          = [<["title" := VStr (u "翻新 Mac mini")]>
               (<["url" := VStr (u "http-deals/shop/product/ABC1/a")]> ∅)]) as E
    by (by vm_compute).
  split; [exact E|]. split; [exact relative_anchor_href|].
  intros H.
  specialize (H (λ _, [relative_anchor]) ascii_word [] relative_anchor
                (u "http-deals/shop/product/ABC1/a")
                (<["title" := VStr (u "翻新 Mac mini")]>
                   (<["url" := VStr (u "http-deals/shop/product/ABC1/a")]> ∅))).
  rewrite E in H.
  specialize (H ltac:(by left) eq_refl relative_anchor_href ltac:(by left) eq_refl).
  by vm_compute in H.
Qed.

(** ** Price extraction *)

(** No stretch of [text] in the language of [r] starts before [pre] ends. *)
Definition earliest (r : regex) (text pre : str) : Prop :=
  ∀ pre' mid' post', text = pre' ++ mid' ++ post' → Matches r mid' →
                     (length pre ≤ length pre')%nat.

(** [rest] does not go on with a character of the class. *)
Definition stops (p : char → bool) (rest : str) : Prop :=
  match rest with
  | [] => True
  | c :: _ => p c = false
  end.

(** The first "或 RMB digits" of [text] starts after [pre] and has the
    digits-and-commas [ds], all of them up to the next other character. *)
Definition occurs_or_rmb (text pre ds : str) : Prop :=
  ∃ ws1 ws2 rest,
    text = pre ++ OR_CHAR ++ ws1 ++ RMB ++ ws2 ++ ds ++ rest ∧
    forallb is_space ws1 = true ∧ forallb is_space ws2 = true ∧
    ds ≠ [] ∧ forallb digit_or_comma ds = true ∧ stops digit_or_comma rest ∧
    earliest PRICE_OR_RMB text pre.

(** The same for the bare "RMB digits". *)
Definition occurs_rmb (text pre ds : str) : Prop :=
  ∃ ws2 rest,
    text = pre ++ RMB ++ ws2 ++ ds ++ rest ∧
    forallb is_space ws2 = true ∧
    ds ≠ [] ∧ forallb digit_or_comma ds = true ∧ stops digit_or_comma rest ∧
    earliest PRICE_RMB text pre.

Lemma search_from_here r pos s m :
  search_from r pos s = Some m →
  ∃ pre s',
    s = pre ++ s' ∧ match_here r s' = Some (m_groups m) ∧
    m_start m = (pos + length pre)%nat ∧ earliest r s pre.
Proof.
  revert pos. induction s as [|c s IH]; intros pos H; simpl in H.
  - destruct (match_here r []) as [g|] eqn:E; [|done]. injection H as <-.
    exists [], []. repeat split; [done|simpl; lia|].
    intros pre' mid' post' _ _. simpl. lia.
  - destruct (match_here r (c :: s)) as [g|] eqn:E.
    + injection H as <-. exists [], (c :: s). repeat split; [done|simpl; lia|].
      intros pre' mid' post' _ _. simpl. lia.
    + apply IH in H as (pre & s' & -> & Hm & Hs & He).
      exists (c :: pre), s'. repeat split; [done|simpl; lia|].
      intros pre' mid' post' Heq M'. destruct pre' as [|c' pre'].
      * destruct (match_here_complete r mid' post' M') as [g' Hg'].
        simpl in Heq. rewrite <-Heq in Hg'. congruence.
      * simpl in Heq. injection Heq as _ Heq. specialize (He _ _ _ Heq M').
        simpl. lia.
Qed.

Lemma search_here r text m :
  search r text = Some m →
  ∃ pre s',
    text = pre ++ s' ∧ match_here r s' = Some (m_groups m) ∧
    m_start m = length pre ∧ earliest r text pre.
Proof. intros H. by apply search_from_here in H. Qed.

Lemma span_unique {A} (p : A → bool) (l1 r1 l2 r2 : list A) :
  l1 ++ r1 = l2 ++ r2 →
  forallb p l1 = true → forallb p l2 = true →
  match r1 with [] => True | x :: _ => p x = false end →
  match r2 with [] => True | x :: _ => p x = false end →
  l1 = l2 ∧ r1 = r2.
Proof.
  intros Heq H1 H2 S1 S2.
  destruct (take_while_app_stop p l1 r1 H1 S1) as [T1 D1].
  destruct (take_while_app_stop p l2 r2 H2 S2) as [T2 D2].
  rewrite Heq in T1, D1. split; congruence.
Qed.

(** A trailing group of one greedy class takes the whole run. *)
Lemma rmatch_group_plus n p s g k :
  (∀ s' g', is_Some (k s' g')) →
  rmatch (Group n (Plus p)) s g k =
    match take_while p s with
    | [] => None
    | _ :: _ => k (drop_while p s) (<[n := take_while p s]> g)
    end.
Proof.
  intros Hk. cbn [rmatch]. destruct s as [|c s]; [done|]. cbn [take_while drop_while].
  destruct (p c) eqn:Hc; [|done].
  rewrite star_greedy_total by (intros s'; apply Hk).
  f_equal. f_equal.
  assert (length (drop_while p s) ≤ length s)%nat as Hle.
  { rewrite <-(take_drop_while p s) at 2. rewrite length_app. lia. }
  replace (length (c :: s) - length (drop_while p s))%nat
    with (S (length s - length (drop_while p s))) by (simpl; lia).
  cbn [take]. by rewrite take_take_while.
Qed.

Lemma price_rmb_here s g :
  match_here PRICE_RMB s = Some g →
  ∃ ws2 ds rest,
    s = RMB ++ ws2 ++ ds ++ rest ∧ forallb is_space ws2 = true ∧
    ds ≠ [] ∧ forallb digit_or_comma ds = true ∧ stops digit_or_comma rest ∧
    g !! 1%nat = Some ds.
Proof.
  unfold match_here.
  destruct (rmatch (Group 0 PRICE_RMB) s ∅ accept) as [[rest0 g0]|] eqn:E; [|done].
  intros [= <-]. unfold PRICE_RMB in E. cbn [rmatch] in E.
  change (rmatch (Lit RMB) s ∅
            (λ s1 g1, rmatch (Star is_space) s1 g1
               (λ s2 g2, rmatch (Group 1 (Plus digit_or_comma)) s2 g2
                  (λ s3 g3, accept s3 (<[0%nat := take (length s - length s3) s]> g3))))
          = Some (rest0, g0)) in E.
  apply rmatch_sound in E as (s1 & t1 & g1 & -> & [-> ->] & E).
  apply rmatch_sound in E as (ws2 & t2 & g2 & -> & [Hws ->] & E).
  rewrite rmatch_group_plus in E by (intros; by eexists).
  destruct (take_while digit_or_comma t2) as [|d ds] eqn:Et; [done|].
  injection E as <- <-.
  exists ws2, (d :: ds), (drop_while digit_or_comma t2).
  rewrite <-Et. split; [by rewrite take_drop_while|].
  split; [done|].
  split; [by rewrite Et|]. split; [apply take_while_all|]. split.
  - unfold stops. destruct (drop_while digit_or_comma t2) eqn:Ed; [done|].
    by apply drop_while_head in Ed.
  - rewrite lookup_insert_ne by done. by rewrite lookup_insert_eq.
Qed.

Lemma price_or_rmb_here s g :
  match_here PRICE_OR_RMB s = Some g →
  ∃ ws1 ws2 ds rest,
    s = OR_CHAR ++ ws1 ++ RMB ++ ws2 ++ ds ++ rest ∧
    forallb is_space ws1 = true ∧ forallb is_space ws2 = true ∧
    ds ≠ [] ∧ forallb digit_or_comma ds = true ∧ stops digit_or_comma rest ∧
    g !! 1%nat = Some ds.
Proof.
  unfold match_here.
  destruct (rmatch (Group 0 PRICE_OR_RMB) s ∅ accept) as [[rest0 g0]|] eqn:E; [|done].
  intros [= <-]. unfold PRICE_OR_RMB in E. cbn [rmatch] in E.
  change (rmatch (Lit OR_CHAR) s ∅
            (λ s0 g0, rmatch (Star is_space) s0 g0
              (λ sa ga, rmatch (Lit RMB) sa ga
                (λ s1 g1, rmatch (Star is_space) s1 g1
                   (λ s2 g2, rmatch (Group 1 (Plus digit_or_comma)) s2 g2
                      (λ s3 g3, accept s3 (<[0%nat := take (length s - length s3) s]> g3))))))
          = Some (rest0, g0)) in E.
  apply rmatch_sound in E as (s0 & t0 & g0' & -> & [-> ->] & E).
  apply rmatch_sound in E as (ws1 & ta & ga & -> & [Hws1 ->] & E).
  apply rmatch_sound in E as (s1 & t1 & g1 & -> & [-> ->] & E).
  apply rmatch_sound in E as (ws2 & t2 & g2 & -> & [Hws ->] & E).
  rewrite rmatch_group_plus in E by (intros; by eexists).
  destruct (take_while digit_or_comma t2) as [|d ds] eqn:Et; [done|].
  injection E as <- <-.
  exists ws1, ws2, (d :: ds), (drop_while digit_or_comma t2).
  rewrite <-Et. split; [by rewrite take_drop_while|].
  split; [done|]. split; [done|].
  split; [by rewrite Et|]. split; [apply take_while_all|]. split.
  - unfold stops. destruct (drop_while digit_or_comma t2) eqn:Ed; [done|].
    by apply drop_while_head in Ed.
  - rewrite lookup_insert_ne by done. by rewrite lookup_insert_eq.
Qed.

(** *** [int] on a run of digits *)

(** The number a run of decimal digits writes, most significant first. *)
Definition digits_value_from (acc : Z) (s : str) : Z :=
  fold_left (λ acc c, 10 * acc + default 0 (decimal_value c)) s acc.

Definition digits_value (s : str) : Z := digits_value_from 0 s.

Lemma int_digits_all s acc n :
  forallb is_decimal s = true →
  int_digits s acc n false = Some (digits_value_from acc s, (n + length s)%nat, []).
Proof.
  revert acc n. induction s as [|c s IH]; intros acc n H; simpl in *.
  - by rewrite Nat.add_0_r.
  - apply andb_prop in H as [Hc H]. unfold is_decimal in Hc.
    destruct (decimal_value c) as [d|] eqn:E; [|done]. simpl.
    rewrite IH by done. do 3 f_equal. lia.
Qed.

Lemma digits_value_from_nonneg s acc : 0 ≤ acc → 0 ≤ digits_value_from acc s.
Proof.
  revert acc. induction s as [|c s IH]; intros acc H; simpl; [done|].
  apply IH. destruct (decimal_value c) as [d|] eqn:E; simpl; [|lia].
  apply decimal_value_range in E. lia.
Qed.

Lemma python_int_digits limit s :
  forallb is_decimal s = true →
  python_int limit s =
    match s with
    | [] => None
    | _ :: _ =>
        if exceeds_digit_limit limit (length s) then None
        else Some (digits_value s)
    end.
Proof.
  intros H. destruct s as [|c s]; [reflexivity|].
  pose proof H as H'. simpl in H'. apply andb_prop in H' as [Hc _].
  assert (is_space c = false) as Hsp.
  { destruct (is_space c) eqn:E; [|done]. apply space_not_decimal in E. congruence. }
  assert ((c =? MINUS_SIGN)%N = false) as Hm.
  { destruct (N.eqb_spec c MINUS_SIGN) as [->|]; [|done]. by vm_compute in Hc. }
  assert ((c =? PLUS_SIGN)%N = false) as Hp.
  { destruct (N.eqb_spec c PLUS_SIGN) as [->|]; [|done]. by vm_compute in Hc. }
  unfold python_int. cbn [drop_while]. rewrite Hsp, Hm, Hp, Hc.
  rewrite int_digits_all by done. cbn [forallb negb]. done.
Qed.

Lemma remove_comma_digits ds :
  forallb digit_or_comma ds = true →
  forallb is_decimal (remove_char COMMA ds) = true.
Proof.
  unfold remove_char. induction ds as [|c ds IH]; intros H; simpl in *; [done|].
  apply andb_prop in H as [Hc H]. unfold digit_or_comma in Hc.
  destruct (N.eqb_spec c COMMA) as [->|Hne]; simpl; [by apply IH|].
  rewrite orb_false_r in Hc. by rewrite Hc, IH.
Qed.

(** What [int] makes of the digits-and-commas of a price match. *)
Lemma python_int_price limit ds :
  forallb digit_or_comma ds = true →
  python_int limit (remove_char COMMA ds) =
    match remove_char COMMA ds with
    | [] => None
    | c :: digits =>
        if exceeds_digit_limit limit (length (c :: digits)) then None
        else Some (digits_value (c :: digits))
    end.
Proof.
  intros H. rewrite python_int_digits by (by apply remove_comma_digits).
  by destruct (remove_char COMMA ds).
Qed.

Lemma python_int_price_nonneg limit ds price :
  forallb digit_or_comma ds = true →
  python_int limit (remove_char COMMA ds) = Some price → 0 ≤ price.
Proof.
  intros H. rewrite python_int_price by done.
  destruct (remove_char COMMA ds) as [|c digits]; [done|].
  destruct (exceeds_digit_limit limit (length (c :: digits))); [done|].
  intros [= <-]. by apply digits_value_from_nonneg.
Qed.

(** *** The two price patterns in a text *)

Lemma Matches_price_rmb mid :
  Matches PRICE_RMB mid ↔
  ∃ ws2 ds, mid = RMB ++ ws2 ++ ds ∧ forallb is_space ws2 = true ∧
            ds ≠ [] ∧ forallb digit_or_comma ds = true.
Proof.
  unfold PRICE_RMB. cbn [Matches]. split.
  - intros (s1 & s2 & -> & -> & ws2 & ds & -> & Hws & Hne & Hds). by exists ws2, ds.
  - intros (ws2 & ds & -> & Hws & Hne & Hds).
    exists RMB, (ws2 ++ ds). repeat split. exists ws2, ds. by repeat split.
Qed.

Lemma Matches_price_or_rmb mid :
  Matches PRICE_OR_RMB mid ↔
  ∃ ws1 ws2 ds, mid = OR_CHAR ++ ws1 ++ RMB ++ ws2 ++ ds ∧
                forallb is_space ws1 = true ∧ forallb is_space ws2 = true ∧
                ds ≠ [] ∧ forallb digit_or_comma ds = true.
Proof.
  unfold PRICE_OR_RMB. cbn [Matches]. split.
  - intros (s1 & s2 & -> & -> & ws1 & s3 & -> & Hws1 & s4 & s5 & -> & ->
            & ws2 & ds & -> & Hws & Hne & Hds).
    by exists ws1, ws2, ds.
  - intros (ws1 & ws2 & ds & -> & Hws1 & Hws & Hne & Hds).
    exists OR_CHAR, (ws1 ++ RMB ++ ws2 ++ ds). repeat split.
    exists ws1, (RMB ++ ws2 ++ ds). repeat split; [done|].
    exists RMB, (ws2 ++ ds). repeat split. exists ws2, ds. by repeat split.
Qed.

Lemma earliest_unique r text pre mid post pre' mid' post' :
  earliest r text pre → earliest r text pre' →
  text = pre ++ mid ++ post → Matches r mid →
  text = pre' ++ mid' ++ post' → Matches r mid' →
  pre = pre' ∧ mid ++ post = mid' ++ post'.
Proof.
  intros E1 E2 H1 M1 H2 M2.
  pose proof (E1 _ _ _ H2 M2). pose proof (E2 _ _ _ H1 M1).
  apply app_inj_1; [lia|congruence].
Qed.

Lemma search_price_rmb_occurs text m :
  search PRICE_RMB text = Some m → occurs_rmb text (take (m_start m) text) (group m 1).
Proof.
  intros H. apply search_here in H as (pre & s' & -> & Hm & Hst & He).
  apply price_rmb_here in Hm as (ws2 & ds & rest & -> & Hws & Hne & Hds & Hstop & Hg).
  rewrite Hst, take_app_length. unfold group. rewrite Hg. simpl.
  by exists ws2, rest.
Qed.

Lemma search_price_or_rmb_occurs text m :
  search PRICE_OR_RMB text = Some m →
  occurs_or_rmb text (take (m_start m) text) (group m 1).
Proof.
  intros H. apply search_here in H as (pre & s' & -> & Hm & Hst & He).
  apply price_or_rmb_here in Hm
    as (ws1 & ws2 & ds & rest & -> & Hws1 & Hws & Hne & Hds & Hstop & Hg).
  rewrite Hst, take_app_length. unfold group. rewrite Hg. simpl.
  by exists ws1, ws2, rest.
Qed.

Lemma digit_or_comma_not_space c : digit_or_comma c = true → is_space c = false.
Proof.
  intros H. destruct (is_space c) eqn:E; [|done].
  apply space_not_digit_or_comma in E. congruence.
Qed.

Lemma stops_digits p (q : char → bool) ds rest :
  (∀ c, q c = true → p c = false) →
  ds ≠ [] → forallb q ds = true → stops p (ds ++ rest).
Proof.
  intros Hpq Hne Hds. destruct ds as [|c ds]; [done|]. simpl in *.
  apply andb_prop in Hds as [Hc _]. by apply Hpq.
Qed.

Lemma occurs_rmb_search text pre ds :
  occurs_rmb text pre ds → ∃ m, search PRICE_RMB text = Some m ∧ group m 1 = ds.
Proof.
  intros (ws2 & rest & Ht & Hws & Hne & Hds & Hstop & He).
  assert (Matches PRICE_RMB (RMB ++ ws2 ++ ds)) as M.
  { apply Matches_price_rmb. by exists ws2, ds. }
  assert (text = pre ++ (RMB ++ ws2 ++ ds) ++ rest) as Ht'.
  { rewrite Ht. by rewrite <-!(assoc_L (++)). }
  destruct (search_is_Some PRICE_RMB text _ _ _ Ht' M) as [m Hm].
  exists m. split; [done|].
  destruct (search_price_rmb_occurs text m Hm)
    as (ws2' & rest' & Ht2 & Hws' & Hne' & Hds' & Hstop' & He').
  assert (Matches PRICE_RMB (RMB ++ ws2' ++ group m 1)) as M'.
  { apply Matches_price_rmb. by exists ws2', (group m 1). }
  assert (text = take (m_start m) text ++ (RMB ++ ws2' ++ group m 1) ++ rest') as Ht2'.
  { rewrite Ht2 at 1. by rewrite <-!(assoc_L (++)). }
  destruct (earliest_unique _ _ _ _ _ _ _ _ He He' Ht' M Ht2' M') as [_ Heq].
  rewrite <-!(assoc_L (++)) in Heq. apply app_inv_head in Heq.
  apply span_unique with (p := is_space) in Heq as [_ Heq]; try done.
  - apply span_unique with (p := digit_or_comma) in Heq as [Heq _]; done.
  - eapply stops_digits; [apply digit_or_comma_not_space|done|done].
  - eapply stops_digits; [apply digit_or_comma_not_space|done|done].
Qed.

Lemma occurs_or_rmb_search text pre ds :
  occurs_or_rmb text pre ds →
  ∃ m, search PRICE_OR_RMB text = Some m ∧ group m 1 = ds.
Proof.
  intros (ws1 & ws2 & rest & Ht & Hws1 & Hws & Hne & Hds & Hstop & He).
  assert (Matches PRICE_OR_RMB (OR_CHAR ++ ws1 ++ RMB ++ ws2 ++ ds)) as M.
  { apply Matches_price_or_rmb. by exists ws1, ws2, ds. }
  assert (text = pre ++ (OR_CHAR ++ ws1 ++ RMB ++ ws2 ++ ds) ++ rest) as Ht'.
  { rewrite Ht. by rewrite <-!(assoc_L (++)). }
  destruct (search_is_Some PRICE_OR_RMB text _ _ _ Ht' M) as [m Hm].
  exists m. split; [done|].
  destruct (search_price_or_rmb_occurs text m Hm)
    as (ws1' & ws2' & rest' & Ht2 & Hws1' & Hws' & Hne' & Hds' & Hstop' & He').
  assert (Matches PRICE_OR_RMB (OR_CHAR ++ ws1' ++ RMB ++ ws2' ++ group m 1)) as M'.
  { apply Matches_price_or_rmb. by exists ws1', ws2', (group m 1). }
  assert (text = take (m_start m) text
                 ++ (OR_CHAR ++ ws1' ++ RMB ++ ws2' ++ group m 1) ++ rest') as Ht2'.
  { rewrite Ht2 at 1. by rewrite <-!(assoc_L (++)). }
  destruct (earliest_unique _ _ _ _ _ _ _ _ He He' Ht' M Ht2' M') as [_ Heq].
  rewrite <-!(assoc_L (++)) in Heq. apply app_inv_head in Heq.
  apply span_unique with (p := is_space) in Heq as [_ Heq]; try done.
  apply app_inv_head in Heq.
  apply span_unique with (p := is_space) in Heq as [_ Heq]; try done.
  - apply span_unique with (p := digit_or_comma) in Heq as [Heq _]; done.
  - eapply stops_digits; [apply digit_or_comma_not_space|done|done].
  - eapply stops_digits; [apply digit_or_comma_not_space|done|done].
Qed.

(** *** fetch_product_details, from its result *)

(** Lines 81-92 as one step: the price the text yields, if any. *)
Definition price_of_text (limit : nat) (text : str) : option Z :=
  match price_match text with
  | Some m => python_int limit (remove_char COMMA (group m 1))
  | None => None
  end.

(** The record the function returns for a text with price [price]. *)
Definition enrich (product : dict) (text : str) (price : Z) : dict :=
  <["release_year" := VStr (release_year_of_text text)]>
    (<["storage" := VStr (storage_of_text text)]>
       (<["memory" := VStr (memory_of_text text)]>
          (<["price" := VInt price]> product))).

(** The detail page of [product] was fetched within the two attempts, and
    [text] is its text. *)
Definition fetched (soup_get_text : str → option str) (net : network)
    (product : dict) (text : str) : Prop :=
  ∃ url html tr,
    product !! "url" = Some url ∧ truthy url = true ∧
    fetch_page net url 2 = (Some html, tr) ∧ html ≠ [] ∧
    soup_get_text html = Some text.

Lemma fetch_product_details_fetched soup limit net product text :
  fetched soup net product text →
  (fetch_product_details soup limit net product).1
  = enrich product text <$> price_of_text limit text.
Proof.
  intros (url & html & tr & Hu & Ht & Hf & Hne & Hs).
  unfold fetch_product_details, price_of_text. rewrite Hu. cbn [default from_option id].
  rewrite Ht. cbn [negb]. rewrite Hf. destruct html as [|c html]; [done|].
  rewrite Hs. destruct (price_match text) as [m|]; [|done].
  destruct (python_int limit (remove_char COMMA (group m 1))); done.
Qed.

Lemma fetch_product_details_Some soup limit net product result :
  (fetch_product_details soup limit net product).1 = Some result →
  ∃ text price,
    fetched soup net product text ∧ price_of_text limit text = Some price ∧
    result = enrich product text price.
Proof.
  unfold fetch_product_details, price_of_text, fetched.
  destruct (product !! "url") as [url|] eqn:Hu; cbn [default from_option id]; [|done].
  destruct (truthy url) eqn:Ht; cbn [negb]; [|done].
  destruct (fetch_page net url 2) as [[[|c html]|] tr] eqn:Hf; [done| |done].
  destruct (soup (c :: html)) as [text|] eqn:Hs; [|done].
  destruct (price_match text) as [m|] eqn:Hm; [|done].
  destruct (python_int limit (remove_char COMMA (group m 1))) as [price|] eqn:Hp;
    [|done].
  cbn [fst]. intros [= <-]. exists text, price. rewrite Hm. split; [|done].
  exists url, (c :: html), tr. by repeat split.
Qed.

(** The price the function puts on the record, or its rejection. *)
Definition priced (result : option dict) (price : option Z) : Prop :=
  match price with
  | Some p => ∃ r, result = Some r ∧ r !! "price" = Some (VInt p)
  | None => result = None
  end.

Lemma enrich_price product text price :
  enrich product text price !! "price" = Some (VInt price).
Proof.
  unfold enrich. rewrite !lookup_insert_ne by done. apply lookup_insert_eq.
Qed.

Lemma priced_fetched soup limit net product text :
  fetched soup net product text →
  priced (fetch_product_details soup limit net product).1 (price_of_text limit text).
Proof.
  intros H. rewrite (fetch_product_details_fetched _ _ _ _ _ H).
  unfold priced. destruct (price_of_text limit text) as [p|]; [|done].
  eexists. split; [done|]. apply enrich_price.
Qed.

Lemma price_of_text_or_rmb limit text pre ds :
  occurs_or_rmb text pre ds →
  price_of_text limit text = python_int limit (remove_char COMMA ds).
Proof.
  intros H. apply occurs_or_rmb_search in H as (m & Hm & <-).
  unfold price_of_text, price_match. by rewrite Hm.
Qed.

Lemma price_of_text_rmb limit text pre ds :
  nowhere PRICE_OR_RMB text → occurs_rmb text pre ds →
  price_of_text limit text = python_int limit (remove_char COMMA ds).
Proof.
  intros Hn H. apply occurs_rmb_search in H as (m & Hm & <-).
  apply search_None in Hn. unfold price_of_text, price_match. by rewrite Hn, Hm.
Qed.

Lemma price_of_text_nowhere limit text :
  nowhere PRICE_OR_RMB text → nowhere PRICE_RMB text → price_of_text limit text = None.
Proof.
  intros H1 H2. apply search_None in H1, H2.
  unfold price_of_text, price_match. by rewrite H1, H2.
Qed.

Lemma price_cases text :
  (∃ pre ds, occurs_or_rmb text pre ds) ∨
  (nowhere PRICE_OR_RMB text ∧ ∃ pre ds, occurs_rmb text pre ds) ∨
  (nowhere PRICE_OR_RMB text ∧ nowhere PRICE_RMB text).
Proof.
  destruct (search PRICE_OR_RMB text) as [m|] eqn:E1.
  - left. eauto using search_price_or_rmb_occurs.
  - right. apply search_None in E1.
    destruct (search PRICE_RMB text) as [m|] eqn:E2.
    + left. eauto using search_price_rmb_occurs.
    + right. by apply search_None in E2.
Qed.

Lemma python_int_9999 limit : python_int limit (remove_char COMMA (u "9,999")) = Some 9999.
Proof.
  rewrite python_int_price by (by vm_compute).
  change (remove_char COMMA (u "9,999")) with [57; 57; 57; 57]%N. cbv beta iota.
  unfold exceeds_digit_limit, str_digits_check_threshold.
  change (length [57; 57; 57; 57]%N) with 4%nat.
  replace (640 <? 4)%nat with false by reflexivity.
  rewrite andb_false_r. reflexivity.
Qed.

(** *** Sample world: pages that are plain text, a server that always answers *)

Definition plain_text : str → option str := λ html, Some html.

Definition always (text : str) : network := λ _, Response text.

Definition sample_candidate : dict :=
  candidate (u "翻新 Mac mini") (u "https://www.apple.com.cn/shop/product/FLXW3CH/a").

Lemma sample_fetched text : text ≠ [] → fetched plain_text (always text) sample_candidate text.
Proof.
  intros Hne. exists (VStr (u "https://www.apple.com.cn/shop/product/FLXW3CH/a")), text,
    [Get (VStr (u "https://www.apple.com.cn/shop/product/FLXW3CH/a")) 30].
  repeat split; done.
Qed.

(** C1, as the code has it.  For a candidate whose detail page was fetched,
    with [text] its text: if the pattern "或 RMB digits" occurs, the digits
    and commas of its first occurrence decide; only if it occurs nowhere do
    those of the first "RMB digits"; the commas are dropped and the rest is
    read by [int], the record getting that price, or the candidate being
    rejected when [int] fails (no digit left, or more digits than the
    interpreter's limit); when neither pattern occurs the candidate is
    rejected.  One of these three cases always applies.  A text in which
    "或 RMB 9,999 " is the first occurrence of the first pattern gets
    price 9999. *)
Theorem price_extraction (soup : str → option str) (limit : nat) (net : network)
    (product : dict) (text : str) :
  fetched soup net product text →
  let result := (fetch_product_details soup limit net product).1 in
  (∀ pre ds, occurs_or_rmb text pre ds →
             priced result (python_int limit (remove_char COMMA ds))) ∧
  (nowhere PRICE_OR_RMB text →
   ∀ pre ds, occurs_rmb text pre ds →
             priced result (python_int limit (remove_char COMMA ds))) ∧
  (nowhere PRICE_OR_RMB text → nowhere PRICE_RMB text → result = None) ∧
  ((∃ pre ds, occurs_or_rmb text pre ds) ∨
   (nowhere PRICE_OR_RMB text ∧ ∃ pre ds, occurs_rmb text pre ds) ∨
   (nowhere PRICE_OR_RMB text ∧ nowhere PRICE_RMB text)) ∧
  (∀ ds, forallb digit_or_comma ds = true →
         python_int limit (remove_char COMMA ds) =
           match remove_char COMMA ds with
           | [] => None
           | c :: digits =>
               if exceeds_digit_limit limit (length (c :: digits)) then None
               else Some (digits_value (c :: digits))
           end) ∧
  (∀ pre post,
      text = pre ++ u "或 RMB 9,999 " ++ post →
      earliest PRICE_OR_RMB text pre →
      priced result (Some 9999)).
Proof.
  intros Hf result. pose proof (priced_fetched soup limit net product text Hf) as Hp.
  fold result in Hp. split.
  { intros pre ds Ho. by rewrite <-(price_of_text_or_rmb limit text pre ds Ho). }
  split.
  { intros Hn pre ds Ho. by rewrite <-(price_of_text_rmb limit text pre ds Hn Ho). }
  split.
  { intros H1 H2. by rewrite (price_of_text_nowhere limit text H1 H2) in Hp. }
  split; [apply price_cases|]. split; [apply python_int_price|].
  intros pre post Ht He.
  assert (occurs_or_rmb text pre (u "9,999")) as Ho.
  { exists [32%N], [32%N], (32%N :: post). by repeat split. }
  rewrite <-(python_int_9999 limit).
  by rewrite <-(price_of_text_or_rmb limit text pre _ Ho).
Qed.

Lemma price_extraction_witness :
  priced (fetch_product_details plain_text 4300
            (always (u "或 RMB 9,999 含税")) sample_candidate).1
         (Some 9999).
Proof.
  apply (proj2 (proj2 (proj2 (proj2 (proj2
           (price_extraction plain_text 4300 (always (u "或 RMB 9,999 含税"))
              sample_candidate (u "或 RMB 9,999 含税")
              (sample_fetched (u "或 RMB 9,999 含税") ltac:(by vm_compute)))))))
           [] (u "含税")).
  - reflexivity.
  - intros pre' mid' post' _ _. simpl. lia.
Defined.

(** C1, the scenario as worded fails: this text contains "或 RMB 9,999 ",
    after an earlier "或 RMB 12,999", and the record gets price 12999. *)
Lemma price_scenario_counterexample :
  contains (u "或 RMB 9,999 ") (u "原价 或 RMB 12,999 折抵后 或 RMB 9,999 起") = true ∧
  (fetch_product_details plain_text 4300
     (always (u "原价 或 RMB 12,999 折抵后 或 RMB 9,999 起")) sample_candidate).1
    ≫= (λ r, r !! "price")
  = Some (VInt 12999).
Proof. split; by vm_compute. Qed.

(** ** The detail pipeline *)

(** What task [i] hands back. *)
Definition accepted (soup : str → option str) (limit : nat) (nets : nat → network)
    (products : list dict) (i : nat) : option dict :=
  match products !! i with
  | Some product => (fetch_product_details soup limit (nets i) product).1
  | None => None
  end.

Lemma price_match_digits text m :
  price_match text = Some m → forallb digit_or_comma (group m 1) = true.
Proof.
  unfold price_match. destruct (search PRICE_OR_RMB text) as [m'|] eqn:E.
  - intros [= <-]. apply search_price_or_rmb_occurs in E.
    by destruct E as (? & ? & ? & _ & _ & _ & _ & H & _).
  - intros H. apply search_price_rmb_occurs in H.
    by destruct H as (? & ? & _ & _ & _ & H & _).
Qed.

Lemma price_of_text_nonneg limit text price :
  price_of_text limit text = Some price → 0 ≤ price.
Proof.
  unfold price_of_text. destruct (price_match text) as [m|] eqn:E; [|done].
  apply python_int_price_nonneg. by eapply price_match_digits.
Qed.

Lemma fetch_product_details_nonempty soup limit net product result :
  (fetch_product_details soup limit net product).1 = Some result → result ≠ ∅.
Proof.
  intros H. apply fetch_product_details_Some in H as (text & price & _ & _ & ->).
  intros He. pose proof (enrich_price product text price) as Hp.
  rewrite He in Hp. by rewrite lookup_empty in Hp.
Qed.

Lemma foldl_collect soup limit nets products order :
  ∀ completed results log,
    (foldl (collect soup limit nets products) (completed, results, log) order).1.2
    = results ++ omap (accepted soup limit nets products) order.
Proof.
  induction order as [|i order IH]; intros completed results log; cbn [foldl].
  - cbn [omap list_omap]. by rewrite app_nil_r.
  - cbn [omap list_omap]. unfold collect at 2.
    destruct (products !! i) as [product|] eqn:Ei.
    + destruct ((fetch_product_details soup limit (nets i) product).1)
        as [result|] eqn:E.
      * assert (accepted soup limit nets products i = Some result) as ->
          by (unfold accepted; by rewrite Ei).
        rewrite bool_decide_eq_true_2 by (by eapply fetch_product_details_nonempty).
        rewrite IH. by rewrite <-(assoc_L (++)).
      * assert (accepted soup limit nets products i = None) as ->
          by (unfold accepted; by rewrite Ei).
        apply IH.
    + assert (accepted soup limit nets products i = None) as ->
        by (unfold accepted; by rewrite Ei).
      apply IH.
Qed.

Lemma process_products_parallel_results soup limit nets order products :
  (process_products_parallel soup limit nets order products).1
  = omap (accepted soup limit nets products) order.
Proof.
  unfold process_products_parallel.
  pose proof (foldl_collect soup limit nets products order 0%nat []
                [Print (Starting (length products)); Print PleaseWait]) as H.
  destruct (foldl _ _ order) as [[completed results] log]. cbn [fst snd] in *.
  by rewrite H.
Qed.

Lemma elem_of_results soup limit nets order products r :
  r ∈ (process_products_parallel soup limit nets order products).1 →
  ∃ i product, i ∈ order ∧ products !! i = Some product ∧
               (fetch_product_details soup limit (nets i) product).1 = Some r.
Proof.
  rewrite process_products_parallel_results. intros H.
  apply list_elem_of_omap in H as (i & Hi & Ha). unfold accepted in Ha.
  destruct (products !! i) as [product|] eqn:E; [|done]. by exists i, product.
Qed.

(** C6, as the code has it.  Every record [fetch_product_details] returns,
    and so every record the detail pipeline keeps, has a price that is
    present and a non-negative integer (zero when the matched digits are all
    zeros); a candidate whose detail text yields no parseable price is
    rejected outright, never given a price as a fill-in. *)
Theorem surviving_price (soup : str → option str) (limit : nat) :
  (∀ net product result,
      (fetch_product_details soup limit net product).1 = Some result →
      ∃ price, result !! "price" = Some (VInt price) ∧ 0 ≤ price) ∧
  (∀ nets order products result,
      result ∈ (process_products_parallel soup limit nets order products).1 →
      ∃ price, result !! "price" = Some (VInt price) ∧ 0 ≤ price) ∧
  (∀ net product text,
      fetched soup net product text → price_of_text limit text = None →
      (fetch_product_details soup limit net product).1 = None).
Proof.
  assert (∀ net product result,
      (fetch_product_details soup limit net product).1 = Some result →
      ∃ price, result !! "price" = Some (VInt price) ∧ 0 ≤ price) as H1.
  { intros net product result H.
    apply fetch_product_details_Some in H as (text & price & _ & Hp & ->).
    exists price. split; [apply enrich_price|by eapply price_of_text_nonneg]. }
  split; [exact H1|]. split.
  - intros nets order products result H.
    apply elem_of_results in H as (i & product & _ & _ & H). by eapply H1.
  - intros net product text Hf Hp.
    rewrite (fetch_product_details_fetched _ _ _ _ _ Hf). by rewrite Hp.
Qed.

Lemma surviving_price_witness :
  ∃ price,
    enrich sample_candidate (u "RMB 3,999") 3999 !! "price" = Some (VInt price) ∧
    0 ≤ price.
Proof.
  apply (proj1 (surviving_price plain_text 4300) (always (u "RMB 3,999"))
               sample_candidate).
  by vm_compute.
Defined.

(** C6, "positive" fails: a detail text that reads "RMB 0" is accepted, and
    the pipeline keeps the record with price 0. *)
Lemma zero_price_survives :
  (λ r : dict, r !! "price")
    <$> (process_products_parallel plain_text 4300 (λ _, always (u "RMB 0"))
           [0%nat] [sample_candidate]).1
  = [Some (VInt 0)].
Proof. by vm_compute. Qed.

(** ** Secondary fields *)

(** The groups a pattern may set. *)
Fixpoint groups_of (r : regex) : list nat :=
  match r with
  | Eps | Lit _ | Cls _ | Star _ | Plus _ => []
  | Seq r1 r2 | Alt r1 r2 => groups_of r1 ++ groups_of r2
  | Opt r1 => groups_of r1
  | Group n r1 => n :: groups_of r1
  end.

Lemma Parses_other_group r s g g' n :
  Parses r s g g' → n ∉ groups_of r → g' !! n = g !! n.
Proof.
  revert s g g'.
  induction r as [|l|p|r1 IH1 r2 IH2|r1 IH1 r2 IH2|p|p|r1 IH1|k r1 IH1];
    intros s g g'; cbn [Parses groups_of].
  - by intros [_ ->].
  - by intros [_ ->].
  - by intros [_ ->].
  - intros (s1 & s2 & g1 & _ & P1 & P2) Hn. apply not_elem_of_app in Hn as [Hn1 Hn2].
    rewrite (IH2 _ _ _ P2 Hn2). by apply (IH1 _ _ _ P1).
  - intros [P|P] Hn; apply not_elem_of_app in Hn as [Hn1 Hn2]; eauto.
  - by intros [_ ->].
  - by intros [_ ->].
  - intros [[_ ->]|P] Hn; eauto.
  - intros (g1 & P & ->) Hn. apply not_elem_of_cons in Hn as [Hne Hn].
    rewrite lookup_insert_ne by done. eauto.
Qed.

Lemma Matches_Parses r s g : Matches r s → ∃ g', Parses r s g g'.
Proof.
  revert s g.
  induction r as [|l|p|r1 IH1 r2 IH2|r1 IH1 r2 IH2|p|p|r1 IH1|k r1 IH1];
    intros s g; cbn [Parses Matches]; try (by eauto).
  - intros (s1 & s2 & -> & M1 & M2).
    destruct (IH1 s1 g M1) as [g1 P1]. destruct (IH2 s2 g1 M2) as [g2 P2].
    exists g2, s1, s2, g1. eauto.
  - intros [M|M]; [destruct (IH1 s g M) as [g' P]|destruct (IH2 s g M) as [g' P]];
      eauto.
  - intros [->|M]; [by eauto|]. destruct (IH1 s g M) as [g' P]. eauto.
  - intros M. destruct (IH1 s g M) as [g1 P]. eauto.
Qed.

(** Digits, spaces, then [tail]: the shape of the memory, storage and core
    count patterns. *)
Definition DIGITS_THEN (tail : regex) : regex :=
  Group 1 (Plus is_decimal) ⋅ Star is_space ⋅ tail.

(** What follows the digits and spaces starts with a character that is
    neither. *)
Definition starts_apart (tail : regex) : Prop :=
  ∀ t, Matches tail t →
       ∃ c t', t = c :: t' ∧ is_decimal c = false ∧ is_space c = false.

Lemma stops_spaces_then (p : char → bool) ws t rest :
  (∀ c, is_space c = true → p c = false) →
  forallb is_space ws = true →
  (∃ c t', t = c :: t' ∧ p c = false) →
  stops p (ws ++ t ++ rest).
Proof.
  intros Hsp Hws (c & t' & -> & Hc). destruct ws as [|w ws]; simpl in *; [done|].
  apply andb_prop in Hws as [Hw _]. by apply Hsp.
Qed.

Lemma digits_then_found tail text m :
  starts_apart tail → 1%nat ∉ groups_of tail →
  search (DIGITS_THEN tail) text = Some m →
  ∃ pre ds ws t post g,
    text = pre ++ ds ++ ws ++ t ++ post ∧
    ds ≠ [] ∧ forallb is_decimal ds = true ∧ forallb is_space ws = true ∧
    Parses tail t (<[1%nat := ds]> ∅) g ∧
    earliest (DIGITS_THEN tail) text pre ∧
    m_groups m = <[0%nat := ds ++ ws ++ t]> g ∧ group m 1 = ds.
Proof.
  intros Hta Hg H.
  apply search_Some in H as (pre & mid & post & g1 & (Ht & M & L) & Hst & P & Hm).
  unfold DIGITS_THEN in P. cbn [Parses] in P.
  destruct P as (ds & s2 & g2 & -> & (g3 & [[Hne Hds] ->] & ->)
                 & ws & t & g4 & -> & [Hws ->] & P).
  exists pre, ds, ws, t, post, g1. rewrite <-!(assoc_L (++)) in Ht.
  repeat split; try done.
  unfold group. rewrite Hm. rewrite lookup_insert_ne by done.
  rewrite (Parses_other_group _ _ _ _ 1%nat P Hg). by rewrite lookup_insert_eq.
Qed.

Lemma Matches_digits_then tail ds ws t :
  ds ≠ [] → forallb is_decimal ds = true → forallb is_space ws = true →
  Matches tail t → Matches (DIGITS_THEN tail) (ds ++ ws ++ t).
Proof.
  intros Hne Hds Hws M. unfold DIGITS_THEN. cbn [Matches].
  exists ds, (ws ++ t). repeat split; try done. by exists ws, t.
Qed.

(** The first occurrence decides: its digits are group 1, and what [search]
    read as the tail starts where the occurrence's tail starts. *)
Lemma digits_then_at tail text pre ds ws t post :
  starts_apart tail → 1%nat ∉ groups_of tail →
  text = pre ++ ds ++ ws ++ t ++ post →
  ds ≠ [] → forallb is_decimal ds = true → forallb is_space ws = true →
  Matches tail t →
  earliest (DIGITS_THEN tail) text pre →
  ∃ m t' post' g,
    search (DIGITS_THEN tail) text = Some m ∧ group m 1 = ds ∧
    t ++ post = t' ++ post' ∧ Parses tail t' (<[1%nat := ds]> ∅) g ∧
    m_groups m = <[0%nat := ds ++ ws ++ t']> g.
Proof.
  intros Hta Hg Ht Hne Hds Hws M He.
  pose proof (Matches_digits_then tail ds ws t Hne Hds Hws M) as Mm.
  assert (text = pre ++ (ds ++ ws ++ t) ++ post) as Ht'.
  { rewrite Ht. by rewrite <-!(assoc_L (++)). }
  destruct (search_is_Some _ text _ _ _ Ht' Mm) as [m Hm].
  destruct (digits_then_found tail text m Hta Hg Hm)
    as (pre' & ds' & ws' & t' & post' & g & Ht2 & Hne' & Hds' & Hws' & P & He' & Hgm & Hg1).
  pose proof (Parses_Matches _ _ _ _ P) as M'.
  pose proof (Matches_digits_then tail ds' ws' t' Hne' Hds' Hws' M') as Mm'.
  assert (text = pre' ++ (ds' ++ ws' ++ t') ++ post') as Ht2'.
  { rewrite Ht2. by rewrite <-!(assoc_L (++)). }
  destruct (earliest_unique _ _ _ _ _ _ _ _ He He' Ht' Mm Ht2' Mm') as [_ Heq].
  rewrite <-!(assoc_L (++)) in Heq.
  destruct (Hta t M) as (c & tt & Hc & Hcd & Hcs).
  destruct (Hta t' M') as (c' & tt' & Hc' & Hcd' & Hcs').
  assert (stops is_decimal (ws ++ t ++ post)) as S1.
  { apply stops_spaces_then; [apply space_not_decimal|done|by exists c, tt]. }
  assert (stops is_decimal (ws' ++ t' ++ post')) as S2.
  { apply stops_spaces_then; [apply space_not_decimal|done|by exists c', tt']. }
  destruct (span_unique is_decimal _ _ _ _ Heq Hds Hds' S1 S2) as [Hdd Heq2].
  assert (stops is_space (t ++ post)) as S3 by (by rewrite Hc).
  assert (stops is_space (t' ++ post')) as S4 by (by rewrite Hc').
  destruct (span_unique is_space _ _ _ _ Heq2 Hws Hws' S3 S4) as [Hww Heq3].
  subst ws'. exists m, t', post', g. rewrite Hdd. by repeat split.
Qed.

(** *** memory *)

Definition MEMORY_TAIL : regex := Lit GB ⋅ Star is_space ⋅ Lit UNIFIED_MEMORY.

Lemma Matches_memory_tail t :
  Matches MEMORY_TAIL t ↔
  ∃ ws2, t = GB ++ ws2 ++ UNIFIED_MEMORY ∧ forallb is_space ws2 = true.
Proof.
  unfold MEMORY_TAIL. cbn [Matches]. split.
  - intros (s1 & s2 & -> & -> & ws2 & s3 & -> & Hws & ->). by exists ws2.
  - intros (ws2 & -> & Hws). exists GB, (ws2 ++ UNIFIED_MEMORY). repeat split.
    by exists ws2, UNIFIED_MEMORY.
Qed.

Lemma memory_tail_apart : starts_apart MEMORY_TAIL.
Proof.
  intros t (ws2 & -> & _)%Matches_memory_tail.
  by exists 71%N, (66%N :: ws2 ++ UNIFIED_MEMORY).
Qed.

Lemma memory_none text : nowhere MEMORY text → memory_of_text text = [].
Proof. intros H%search_None. unfold memory_of_text. by rewrite H. Qed.

Lemma memory_at text pre ds ws1 ws2 post :
  text = pre ++ ds ++ ws1 ++ GB ++ ws2 ++ UNIFIED_MEMORY ++ post →
  ds ≠ [] → forallb is_decimal ds = true →
  forallb is_space ws1 = true → forallb is_space ws2 = true →
  earliest MEMORY text pre →
  memory_of_text text = ds ++ GB.
Proof.
  intros Ht Hne Hds Hws1 Hws2 He.
  destruct (digits_then_at MEMORY_TAIL text pre ds ws1 (GB ++ ws2 ++ UNIFIED_MEMORY) post)
    as (m & t' & post' & g & Hm & Hg & _); try done.
  - apply memory_tail_apart.
  - cbn. list_not_elem.
  - rewrite Ht. by rewrite <-!(assoc_L (++)).
  - apply Matches_memory_tail. by exists ws2.
  - unfold memory_of_text. change MEMORY with (DIGITS_THEN MEMORY_TAIL).
    by rewrite Hm, Hg.
Qed.

Lemma memory_found text :
  nowhere MEMORY text ∨
  ∃ pre ds ws1 ws2 post,
    text = pre ++ ds ++ ws1 ++ GB ++ ws2 ++ UNIFIED_MEMORY ++ post ∧
    ds ≠ [] ∧ forallb is_decimal ds = true ∧
    forallb is_space ws1 = true ∧ forallb is_space ws2 = true ∧
    earliest MEMORY text pre.
Proof.
  destruct (search MEMORY text) as [m|] eqn:E; [|left; by apply search_None].
  right. change MEMORY with (DIGITS_THEN MEMORY_TAIL) in E.
  apply digits_then_found in E
    as (pre & ds & ws & t & post & g & Ht & Hne & Hds & Hws & P & He & _);
    [|apply memory_tail_apart|cbn; list_not_elem].
  apply Parses_Matches, Matches_memory_tail in P as (ws2 & -> & Hws2).
  exists pre, ds, ws, ws2, post. rewrite <-!(assoc_L (++)) in Ht. by repeat split.
Qed.

(** *** storage *)

Definition STORAGE_TAIL : regex :=
  Group 2 (Alt (Lit GB) (Lit TB)) ⋅ Star is_space ⋅ Lit SOLID_STATE_DRIVE.

Lemma Parses_storage_tail t g g' :
  Parses STORAGE_TAIL t g g' ↔
  ∃ unit ws2, (unit = GB ∨ unit = TB) ∧ t = unit ++ ws2 ++ SOLID_STATE_DRIVE ∧
              forallb is_space ws2 = true ∧ g' = <[2%nat := unit]> g.
Proof.
  unfold STORAGE_TAIL. cbn [Parses]. split.
  - intros (s1 & s2 & g1 & -> & (g2 & Hu & ->) & ws2 & s3 & g3 & -> & [Hws ->] & [-> ->]).
    exists s1, ws2. destruct Hu as [[-> ->]|[-> ->]]; eauto.
  - intros (unit & ws2 & Hu & -> & Hws & ->).
    exists unit, (ws2 ++ SOLID_STATE_DRIVE), (<[2%nat := unit]> g). repeat split.
    + exists g. split; [|done]. destruct Hu as [-> | ->]; eauto.
    + exists ws2, SOLID_STATE_DRIVE, (<[2%nat := unit]> g). by repeat split.
Qed.

Lemma Matches_storage_tail t :
  Matches STORAGE_TAIL t ↔
  ∃ unit ws2, (unit = GB ∨ unit = TB) ∧ t = unit ++ ws2 ++ SOLID_STATE_DRIVE ∧
              forallb is_space ws2 = true.
Proof.
  split.
  - intros M. destruct (Matches_Parses _ _ ∅ M) as [g' P].
    apply Parses_storage_tail in P as (unit & ws2 & Hu & Ht & Hws & _). eauto.
  - intros (unit & ws2 & Hu & Ht & Hws).
    eapply Parses_Matches, (Parses_storage_tail t ∅). eauto 10.
Qed.

Lemma storage_tail_apart : starts_apart STORAGE_TAIL.
Proof.
  intros t (unit & ws2 & [-> | ->] & -> & _)%Matches_storage_tail.
  - by exists 71%N, (66%N :: ws2 ++ SOLID_STATE_DRIVE).
  - by exists 84%N, (66%N :: ws2 ++ SOLID_STATE_DRIVE).
Qed.

Lemma storage_none text : nowhere STORAGE text → storage_of_text text = [].
Proof. intros H%search_None. unfold storage_of_text. by rewrite H. Qed.

Lemma storage_at text pre ds ws1 unit ws2 post :
  unit = GB ∨ unit = TB →
  text = pre ++ ds ++ ws1 ++ unit ++ ws2 ++ SOLID_STATE_DRIVE ++ post →
  ds ≠ [] → forallb is_decimal ds = true →
  forallb is_space ws1 = true → forallb is_space ws2 = true →
  earliest STORAGE text pre →
  storage_of_text text = ds ++ unit.
Proof.
  intros Hu Ht Hne Hds Hws1 Hws2 He.
  destruct (digits_then_at STORAGE_TAIL text pre ds ws1
              (unit ++ ws2 ++ SOLID_STATE_DRIVE) post)
    as (m & t' & post' & g & Hm & Hg & Heq & P & Hgm); try done.
  - apply storage_tail_apart.
  - cbn. list_not_elem.
  - rewrite Ht. by rewrite <-!(assoc_L (++)).
  - apply Matches_storage_tail. by exists unit, ws2.
  - apply Parses_storage_tail in P as (unit' & ws2' & Hu' & -> & _ & ->).
    unfold storage_of_text. change STORAGE with (DIGITS_THEN STORAGE_TAIL).
    rewrite Hm, Hg. f_equal. unfold group. rewrite Hgm.
    rewrite lookup_insert_ne by done. rewrite lookup_insert_eq. simpl.
    destruct Hu as [-> | ->], Hu' as [-> | ->]; try done; by injection Heq.
Qed.

Lemma storage_found text :
  nowhere STORAGE text ∨
  ∃ pre ds ws1 unit ws2 post,
    (unit = GB ∨ unit = TB) ∧
    text = pre ++ ds ++ ws1 ++ unit ++ ws2 ++ SOLID_STATE_DRIVE ++ post ∧
    ds ≠ [] ∧ forallb is_decimal ds = true ∧
    forallb is_space ws1 = true ∧ forallb is_space ws2 = true ∧
    earliest STORAGE text pre.
Proof.
  destruct (search STORAGE text) as [m|] eqn:E; [|left; by apply search_None].
  right. change STORAGE with (DIGITS_THEN STORAGE_TAIL) in E.
  apply digits_then_found in E
    as (pre & ds & ws & t & post & g & Ht & Hne & Hds & Hws & P & He & _);
    [|apply storage_tail_apart|cbn; list_not_elem].
  apply Parses_Matches, Matches_storage_tail in P as (unit & ws2 & Hu & -> & Hws2).
  exists pre, ds, ws, unit, ws2, post. rewrite <-!(assoc_L (++)) in Ht.
  by repeat split.
Qed.

(** *** release year *)

Lemma Parses_release_year mid g g' :
  Parses RELEASE_YEAR mid g g' ↔
  ∃ ws1 year ws2,
    mid = FIRST_RELEASED ++ ws1 ++ year ++ ws2 ++ YEAR ∧
    forallb is_space ws1 = true ∧ length year = 4%nat ∧
    forallb is_decimal year = true ∧ forallb is_space ws2 = true ∧
    g' = <[1%nat := year]> g.
Proof.
  unfold RELEASE_YEAR. cbn [Parses]. split.
  - intros (s1 & s2 & g1 & -> & [-> ->] & ws1 & s3 & g2 & -> & [Hws1 ->]
            & yr & s4 & g3 & -> & (g4 & Hy & ->) & ws2 & s5 & g5 & -> & [Hws2 ->]
            & [-> ->]).
    destruct Hy as (y1 & r1 & g6 & -> & [(d1 & -> & H1) ->]
                    & y2 & r2 & g7 & -> & [(d2 & -> & H2) ->]
                    & y3 & r3 & g8 & -> & [(d3 & -> & H3) ->] & [(d4 & -> & H4) ->]).
    exists ws1, [d1; d2; d3; d4], ws2. simpl. rewrite H1, H2, H3, H4. by repeat split.
  - intros (ws1 & year & ws2 & -> & Hws1 & Hlen & Hy & Hws2 & ->).
    destruct year as [|d1 [|d2 [|d3 [|d4 [|]]]]]; try done. simpl in Hy.
    apply andb_prop in Hy as [H1 Hy]. apply andb_prop in Hy as [H2 Hy].
    apply andb_prop in Hy as [H3 Hy]. apply andb_prop in Hy as [H4 _].
    exists FIRST_RELEASED, (ws1 ++ [d1; d2; d3; d4] ++ ws2 ++ YEAR), g.
    repeat split.
    exists ws1, ([d1; d2; d3; d4] ++ ws2 ++ YEAR), g. repeat split; [done|].
    exists [d1; d2; d3; d4], (ws2 ++ YEAR), (<[1%nat := [d1; d2; d3; d4]]> g).
    repeat split.
    + exists g. split; [|done].
      exists [d1], [d2; d3; d4], g. repeat split; [by exists d1|].
      exists [d2], [d3; d4], g. repeat split; [by exists d2|].
      exists [d3], [d4], g. repeat split; [by exists d3|by exists d4].
    + exists ws2, YEAR, (<[1%nat := [d1; d2; d3; d4]]> g). by repeat split.
Qed.

Lemma Matches_release_year mid :
  Matches RELEASE_YEAR mid ↔
  ∃ ws1 year ws2,
    mid = FIRST_RELEASED ++ ws1 ++ year ++ ws2 ++ YEAR ∧
    forallb is_space ws1 = true ∧ length year = 4%nat ∧
    forallb is_decimal year = true ∧ forallb is_space ws2 = true.
Proof.
  split.
  - intros M. destruct (Matches_Parses _ _ ∅ M) as [g' P].
    apply Parses_release_year in P as (ws1 & year & ws2 & H). exists ws1, year, ws2.
    tauto.
  - intros (ws1 & year & ws2 & H1 & H2 & H3 & H4 & H5).
    eapply Parses_Matches, (Parses_release_year mid ∅). eauto 10.
Qed.

Lemma release_year_none text :
  nowhere RELEASE_YEAR text → release_year_of_text text = [].
Proof. intros H%search_None. unfold release_year_of_text. by rewrite H. Qed.

Lemma release_year_found text m :
  search RELEASE_YEAR text = Some m →
  ∃ pre ws1 year ws2 post,
    text = pre ++ FIRST_RELEASED ++ ws1 ++ year ++ ws2 ++ YEAR ++ post ∧
    forallb is_space ws1 = true ∧ length year = 4%nat ∧
    forallb is_decimal year = true ∧ forallb is_space ws2 = true ∧
    earliest RELEASE_YEAR text pre ∧ group m 1 = year.
Proof.
  intros H.
  apply search_Some in H as (pre & mid & post & g1 & (Ht & M & L) & Hst & P & Hm).
  apply Parses_release_year in P as (ws1 & year & ws2 & -> & Hws1 & Hl & Hy & Hws2 & ->).
  exists pre, ws1, year, ws2, post. rewrite <-!(assoc_L (++)) in Ht.
  repeat split; try done. unfold group. rewrite Hm.
  rewrite lookup_insert_ne by done. by rewrite lookup_insert_eq.
Qed.

Lemma release_year_at text pre ws1 year ws2 post :
  text = pre ++ FIRST_RELEASED ++ ws1 ++ year ++ ws2 ++ YEAR ++ post →
  forallb is_space ws1 = true → length year = 4%nat →
  forallb is_decimal year = true → forallb is_space ws2 = true →
  earliest RELEASE_YEAR text pre →
  release_year_of_text text = year.
Proof.
  intros Ht Hws1 Hl Hy Hws2 He.
  assert (Matches RELEASE_YEAR (FIRST_RELEASED ++ ws1 ++ year ++ ws2 ++ YEAR)) as M.
  { apply Matches_release_year. by exists ws1, year, ws2. }
  assert (text = pre ++ (FIRST_RELEASED ++ ws1 ++ year ++ ws2 ++ YEAR) ++ post) as Ht'.
  { rewrite Ht. by rewrite <-!(assoc_L (++)). }
  destruct (search_is_Some _ text _ _ _ Ht' M) as [m Hm].
  destruct (release_year_found text m Hm)
    as (pre' & ws1' & year' & ws2' & post' & Ht2 & Hws1' & Hl' & Hy' & Hws2' & He' & Hg).
  assert (Matches RELEASE_YEAR (FIRST_RELEASED ++ ws1' ++ year' ++ ws2' ++ YEAR)) as M'.
  { apply Matches_release_year. by exists ws1', year', ws2'. }
  assert (text = pre' ++ (FIRST_RELEASED ++ ws1' ++ year' ++ ws2' ++ YEAR) ++ post')
    as Ht2'.
  { rewrite Ht2. by rewrite <-!(assoc_L (++)). }
  destruct (earliest_unique _ _ _ _ _ _ _ _ He He' Ht' M Ht2' M') as [_ Heq].
  rewrite <-!(assoc_L (++)) in Heq. apply app_inv_head in Heq.
  assert (∀ (y r : str), length y = 4%nat → forallb is_decimal y = true →
                         stops is_space (y ++ r)) as Hstop.
  { intros y r Hly Hdy. destruct y as [|c y]; [done|]. simpl in *.
    apply andb_prop in Hdy as [Hc _]. destruct (is_space c) eqn:E; [|done].
    apply space_not_decimal in E. congruence. }
  destruct (span_unique is_space _ _ _ _ Heq Hws1 Hws1' (Hstop _ _ Hl Hy)
              (Hstop _ _ Hl' Hy')) as [_ Heq2].
  apply app_inj_1 in Heq2 as [Hyy _]; [|congruence].
  unfold release_year_of_text. rewrite Hm. congruence.
Qed.

(** *** The record's secondary fields *)

Lemma enrich_fields product text price :
  enrich product text price !! "memory" = Some (VStr (memory_of_text text)) ∧
  enrich product text price !! "storage" = Some (VStr (storage_of_text text)) ∧
  enrich product text price !! "release_year"
    = Some (VStr (release_year_of_text text)).
Proof.
  unfold enrich. repeat split.
  - rewrite !lookup_insert_ne by done. apply lookup_insert_eq.
  - rewrite lookup_insert_ne by done. apply lookup_insert_eq.
  - apply lookup_insert_eq.
Qed.

(** C8, as the code has it.  For every record [fetch_product_details]
    returns, with [text] the text of its detail page (the function reaches
    these fields only once the price is parsed): memory is the digits of the
    first "digits GB 统一内存" followed by "GB", storage the digits of the
    first "digits (GB|TB) 固态硬盘" followed by its unit, release_year the
    four digits of the first "最初发布于 dddd 年", each the empty string
    when its pattern occurs nowhere.  When "16 GB 统一内存" is the first
    occurrence of the memory pattern and "512 GB 固态硬盘" the first of the
    storage pattern, memory is "16GB" and storage "512GB". *)
Theorem secondary_fields (soup : str → option str) (limit : nat) (net : network)
    (product result : dict) :
  (fetch_product_details soup limit net product).1 = Some result →
  ∃ text,
    fetched soup net product text ∧
    result !! "memory" = Some (VStr (memory_of_text text)) ∧
    result !! "storage" = Some (VStr (storage_of_text text)) ∧
    result !! "release_year" = Some (VStr (release_year_of_text text)) ∧
    (nowhere MEMORY text → memory_of_text text = []) ∧
    (∀ pre ds ws1 ws2 post,
        text = pre ++ ds ++ ws1 ++ GB ++ ws2 ++ UNIFIED_MEMORY ++ post →
        ds ≠ [] → forallb is_decimal ds = true →
        forallb is_space ws1 = true → forallb is_space ws2 = true →
        earliest MEMORY text pre →
        memory_of_text text = ds ++ u "GB") ∧
    (nowhere STORAGE text → storage_of_text text = []) ∧
    (∀ pre ds ws1 unit ws2 post,
        unit = u "GB" ∨ unit = u "TB" →
        text = pre ++ ds ++ ws1 ++ unit ++ ws2 ++ SOLID_STATE_DRIVE ++ post →
        ds ≠ [] → forallb is_decimal ds = true →
        forallb is_space ws1 = true → forallb is_space ws2 = true →
        earliest STORAGE text pre →
        storage_of_text text = ds ++ unit) ∧
    (nowhere RELEASE_YEAR text → release_year_of_text text = []) ∧
    (∀ pre ws1 year ws2 post,
        text = pre ++ FIRST_RELEASED ++ ws1 ++ year ++ ws2 ++ YEAR ++ post →
        forallb is_space ws1 = true → length year = 4%nat →
        forallb is_decimal year = true → forallb is_space ws2 = true →
        earliest RELEASE_YEAR text pre →
        release_year_of_text text = year) ∧
    (∀ pre1 post1 pre2 post2,
        text = pre1 ++ u "16 GB 统一内存" ++ post1 → earliest MEMORY text pre1 →
        text = pre2 ++ u "512 GB 固态硬盘" ++ post2 → earliest STORAGE text pre2 →
        result !! "memory" = Some (VStr (u "16GB")) ∧
        result !! "storage" = Some (VStr (u "512GB"))).
Proof.
  intros H. apply fetch_product_details_Some in H as (text & price & Hf & Hp & ->).
  destruct (enrich_fields product text price) as (Em & Es & Ey).
  exists text. split; [done|]. split; [done|]. split; [done|]. split; [done|].
  split; [apply memory_none|]. split; [apply memory_at|].
  split; [apply storage_none|]. split; [apply storage_at|].
  split; [apply release_year_none|]. split; [apply release_year_at|].
  intros pre1 post1 pre2 post2 Ht1 He1 Ht2 He2. rewrite Em, Es. split.
  - do 2 f_equal.
    apply (memory_at text pre1 (u "16") [32%N] [32%N] post1); done.
  - do 2 f_equal.
    apply (storage_at text pre2 (u "512") [32%N] (u "GB") [32%N] post2); try done.
    by left.
Qed.

Definition sample_detail_text : str :=
  u "Mac mini 或 RMB 3,999 16 GB 统一内存 512 GB 固态硬盘 最初发布于 2023 年 1 月".

Lemma secondary_fields_witness :
  enrich sample_candidate sample_detail_text 3999 !! "memory" = Some (VStr (u "16GB")) ∧
  enrich sample_candidate sample_detail_text 3999 !! "storage" = Some (VStr (u "512GB")).
Proof.
  destruct (secondary_fields plain_text 4300 (always sample_detail_text)
              sample_candidate (enrich sample_candidate sample_detail_text 3999))
    as (text & (url & html & tr & _ & _ & Hfetch & _ & Hsoup) & _ & _ & _ & _ & _ & _ & _ & _ & _ & Hsc).
  { by vm_compute. }
  assert (text = sample_detail_text) as ->.
  { vm_compute in Hfetch. injection Hfetch as <- _. by injection Hsoup as <-. }
  apply (Hsc (u "Mac mini 或 RMB 3,999 ") (u " 512 GB 固态硬盘 最初发布于 2023 年 1 月")
             (u "Mac mini 或 RMB 3,999 16 GB 统一内存 ") (u " 最初发布于 2023 年 1 月")).
  - by vm_compute.
  - intros pre' mid' post' Heq M.
    destruct (decide (length (u "Mac mini 或 RMB 3,999 ") ≤ length pre')%nat) as [Hle|n]; [exact Hle|].
    exfalso.
    assert (search MEMORY sample_detail_text
            ≫= (λ m, Some (m_start m)) = Some 21%nat) as Hs by (by vm_compute).
    destruct (search MEMORY sample_detail_text) as [m|] eqn:E; [|done].
    simpl in Hs. injection Hs as Hs.
    apply search_here in E as (p0 & s0 & Hp0 & _ & Hst & He0).
    specialize (He0 _ _ _ Heq M). change (length (u "Mac mini 或 RMB 3,999 ")) with 21%nat in n.
    lia.
  - by vm_compute.
  - intros pre' mid' post' Heq M.
    destruct (decide (length (u "Mac mini 或 RMB 3,999 16 GB 统一内存 ") ≤ length pre')%nat)
      as [Hle|n]; [exact Hle|].
    exfalso.
    assert (search STORAGE sample_detail_text
            ≫= (λ m, Some (m_start m)) = Some 32%nat) as Hs by (by vm_compute).
    destruct (search STORAGE sample_detail_text) as [m|] eqn:E; [|done].
    simpl in Hs. injection Hs as Hs.
    apply search_here in E as (p0 & s0 & Hp0 & _ & Hst & He0).
    specialize (He0 _ _ _ Heq M).
    change (length (u "Mac mini 或 RMB 3,999 16 GB 统一内存 ")) with 32%nat in n.
    lia.
Defined.

(** C8, as worded, fails twice.  A text may hold both fragments and no
    price, and then no record comes back at all; and a text may hold them
    inside longer numbers, and then the longer numbers are read. *)
Lemma secondary_fields_counterexample :
  (contains (u "16 GB 统一内存") (u "16 GB 统一内存 512 GB 固态硬盘") = true ∧
   contains (u "512 GB 固态硬盘") (u "16 GB 统一内存 512 GB 固态硬盘") = true ∧
   (fetch_product_details plain_text 4300
      (always (u "16 GB 统一内存 512 GB 固态硬盘")) sample_candidate).1 = None) ∧
  (contains (u "16 GB 统一内存") (u "RMB 9,999 116 GB 统一内存 1512 GB 固态硬盘") = true ∧
   contains (u "512 GB 固态硬盘") (u "RMB 9,999 116 GB 统一内存 1512 GB 固态硬盘") = true ∧
   (fetch_product_details plain_text 4300
      (always (u "RMB 9,999 116 GB 统一内存 1512 GB 固态硬盘")) sample_candidate).1
     ≫= (λ r, r !! "memory") = Some (VStr (u "116GB"))).
Proof. repeat split; by vm_compute. Qed.

(** ** The rejection policy *)

(** A candidate as the list discoverer makes them: with a URL that is not
    empty. *)
Definition has_url (product : dict) : Prop :=
  ∃ url, product !! "url" = Some url ∧ truthy url = true.

(** The price the page [html] yields, if its text can be had and a price
    parsed from it. *)
Definition detail_price (soup : str → option str) (limit : nat) (html : str)
  : option Z :=
  match soup html with
  | Some text => price_of_text limit text
  | None => None
  end.

(** The fetch of a detail page fails after its retries: both attempts end
    in a transport error. *)
Definition fetch_fails (net : network) : Prop :=
  ∀ j, (j < 2)%nat → ∃ e, net j = TransportError e.

(** The fetch gives [html]: it is the body of the first of the two attempts
    that is answered. *)
Definition fetch_gives (net : network) (html : str) : Prop :=
  ∃ i, (i < 2)%nat ∧ net i = Response html ∧
       ∀ j, (j < i)%nat → ∃ e, net j = TransportError e.

(** The detail text yields the price [price]: the digits of its first
    "或 RMB digits" or, when there is none, of its first "RMB digits", read
    by [int] without their commas. *)
Definition parseable_price (limit : nat) (text : str) (price : Z) : Prop :=
  (∃ pre ds, occurs_or_rmb text pre ds ∧
             python_int limit (remove_char COMMA ds) = Some price) ∨
  (nowhere PRICE_OR_RMB text ∧
   ∃ pre ds, occurs_rmb text pre ds ∧
             python_int limit (remove_char COMMA ds) = Some price).

(** The page yields no parseable price: whatever text it has, none. *)
Definition no_price (soup : str → option str) (limit : nat) (html : str) : Prop :=
  ∀ text price, soup html = Some text → ¬ parseable_price limit text price.

(** The keys [fetch_product_details] writes. *)
Definition detail_keys : list string :=
  ["price"; "memory"; "storage"; "release_year"]%string.

Lemma price_of_text_empty limit : price_of_text limit [] = None.
Proof. reflexivity. Qed.

Lemma parseable_price_spec limit text price :
  price_of_text limit text = Some price ↔ parseable_price limit text price.
Proof.
  split.
  - intros H. destruct (price_cases text)
      as [(pre & ds & Ho)|[(Hn & pre & ds & Ho)|[H1 H2]]].
    + left. exists pre, ds. split; [done|].
      by rewrite <-(price_of_text_or_rmb limit text pre ds Ho).
    + right. split; [done|]. exists pre, ds. split; [done|].
      by rewrite <-(price_of_text_rmb limit text pre ds Hn Ho).
    + rewrite (price_of_text_nowhere limit text H1 H2) in H. discriminate H.
  - intros [(pre & ds & Ho & Hp)|(Hn & pre & ds & Ho & Hp)].
    + by rewrite (price_of_text_or_rmb limit text pre ds Ho).
    + by rewrite (price_of_text_rmb limit text pre ds Hn Ho).
Qed.

Lemma detail_price_None soup limit html :
  detail_price soup limit html = None ↔ no_price soup limit html.
Proof.
  unfold detail_price, no_price. destruct (soup html) as [text|].
  - split.
    + intros Hp text' price [= <-] Hpp%parseable_price_spec. congruence.
    + intros H. destruct (price_of_text limit text) as [price|] eqn:E; [|done].
      exfalso. apply (H text price eq_refl). by apply parseable_price_spec.
  - split; [by intros _ text price [=]|done].
Qed.

Lemma fetch_page_two net url :
  ((fetch_page net url 2).1 = None ↔ fetch_fails net) ∧
  (∀ html, (fetch_page net url 2).1 = Some html ↔ fetch_gives net html).
Proof.
  unfold fetch_page, fetch_fails, fetch_gives.
  change (seq 0 (Z.to_nat 2)) with [0; 1]%nat. cbn [fetch_attempts].
  change (Z.of_nat 0 =? 2 - 1) with false. change (Z.of_nat 1 =? 2 - 1) with true.
  destruct (net 0%nat) as [t0|e0] eqn:E0; cbn [fst].
  - split.
    + split; [done|]. intros H. destruct (H 0%nat) as [e He]; [lia|]. congruence.
    + intros html. split.
      * intros [= <-]. exists 0%nat. split; [lia|]. split; [done|]. intros j Hj. lia.
      * intros (i & Hi & Hr & Hfail). destruct i as [|i]; [congruence|].
        destruct (Hfail 0%nat) as [e He]; [lia|]. congruence.
  - destruct (net 1%nat) as [t1|e1] eqn:E1; cbn [fst].
    + split.
      * split; [done|]. intros H. destruct (H 1%nat) as [e He]; [lia|]. congruence.
      * intros html. split.
        -- intros [= <-]. exists 1%nat. split; [lia|]. split; [done|].
           intros j Hj. assert (j = 0%nat) as -> by lia. by exists e0.
        -- intros (i & Hi & Hr & Hfail). destruct i as [|[|i]]; [congruence| |lia].
           congruence.
    + split.
      * split; [|done]. intros _ j Hj. destruct j as [|[|j]]; [by exists e0|by exists e1|lia].
      * intros html. split; [done|].
        intros (i & Hi & Hr & _). destruct i as [|[|i]]; [congruence|congruence|lia].
Qed.

Lemma fetch_product_details_None soup limit net product url :
  soup [] = Some [] →
  product !! "url" = Some url → truthy url = true →
  ((fetch_product_details soup limit net product).1 = None ↔
   (fetch_page net url 2).1 = None ∨
   ∃ html, (fetch_page net url 2).1 = Some html ∧ detail_price soup limit html = None).
Proof.
  intros Hsoup Hu Ht. unfold detail_price.
  destruct (fetch_page net url 2) as [[html|] tr] eqn:Hf; cbn [fst].
  - destruct (decide (html = [])) as [->|Hne].
    + split.
      * intros _. right. exists []. by rewrite Hsoup.
      * intros _. unfold fetch_product_details. rewrite Hu.
        cbn [default from_option id]. by rewrite Ht, Hf.
    + destruct (soup html) as [text|] eqn:Hs.
      * assert (fetched soup net product text) as Hfd by (by exists url, html, tr).
        rewrite (fetch_product_details_fetched _ limit _ _ _ Hfd).
        destruct (price_of_text limit text) as [price|] eqn:Hp;
          cbn [fmap option_fmap option_map].
        -- split; [done|]. intros [H|(html' & [= <-] & H)]; [done|].
           rewrite Hs in H. congruence.
        -- split; [|done]. intros _. right. exists html. by rewrite Hs.
      * split.
        -- intros _. right. exists html. by rewrite Hs.
        -- intros _. unfold fetch_product_details. rewrite Hu.
           cbn [default from_option id]. rewrite Ht, Hf.
           destruct html; [done|]. by rewrite Hs.
  - split; [by left|]. intros _. unfold fetch_product_details. rewrite Hu.
    cbn [default from_option id]. by rewrite Ht, Hf.
Qed.

(** A candidate is dropped exactly when its fetch fails or its page yields
    no parseable price. *)
Lemma dropped_iff soup limit net product :
  soup [] = Some [] → has_url product →
  (fetch_product_details soup limit net product).1 = None ↔
  fetch_fails net ∨ ∃ html, fetch_gives net html ∧ no_price soup limit html.
Proof.
  intros Hsoup (url & Hu & Ht).
  rewrite (fetch_product_details_None soup limit net product url Hsoup Hu Ht).
  destruct (fetch_page_two net url) as [HN HS]. rewrite HN. split.
  - intros [H|(html & H1 & H2)]; [by left|]. right. exists html.
    split; [by apply HS|by apply detail_price_None].
  - intros [H|(html & H1 & H2)]; [by left|]. right. exists html.
    split; [by apply HS|by apply detail_price_None].
Qed.

(** A candidate whose page has a parseable price is kept, as this record. *)
Lemma kept_record soup limit net product html text price :
  soup [] = Some [] → has_url product →
  fetch_gives net html → soup html = Some text → parseable_price limit text price →
  (fetch_product_details soup limit net product).1 = Some (enrich product text price).
Proof.
  intros Hsoup (url & Hu & Ht) Hg Hs Hpp.
  apply parseable_price_spec in Hpp as Hp.
  assert (html ≠ []) as Hne.
  { intros ->. rewrite Hsoup in Hs. injection Hs as <-.
    rewrite price_of_text_empty in Hp. discriminate Hp. }
  apply (proj2 (fetch_page_two net url)) in Hg.
  destruct (fetch_page net url 2) as [r tr] eqn:Hf. cbn [fst] in Hg. subst r.
  assert (fetched soup net product text) as Hfd by (by exists url, html, tr).
  rewrite (fetch_product_details_fetched _ limit _ _ _ Hfd). by rewrite Hp.
Qed.

(** What a kept record is made from. *)
Lemma kept_from soup limit net product result :
  (fetch_product_details soup limit net product).1 = Some result →
  ∃ html text price,
    fetch_gives net html ∧ soup html = Some text ∧
    parseable_price limit text price ∧ result = enrich product text price.
Proof.
  intros H. apply fetch_product_details_Some in H
    as (text & price & (url & html & tr & Hu & Ht & Hf & Hne & Hs) & Hp & ->).
  exists html, text, price. split.
  - apply (proj2 (fetch_page_two net url)). by rewrite Hf.
  - split; [done|]. split; [by apply parseable_price_spec|done].
Qed.

Lemma no_rmb_no_price limit text :
  contains RMB text = false → price_of_text limit text = None.
Proof.
  intros Hc. apply price_of_text_nowhere.
  - intros pre mid post Ht (ws1 & ws2 & ds & -> & _)%Matches_price_or_rmb.
    assert (contains RMB text = true) as Hc'; [|congruence].
    apply contains_spec. exists (pre ++ OR_CHAR ++ ws1), (ws2 ++ ds ++ post).
    rewrite Ht. by rewrite <-!(assoc_L (++)).
  - intros pre mid post Ht (ws2 & ds & -> & _)%Matches_price_rmb.
    assert (contains RMB text = true) as Hc'; [|congruence].
    apply contains_spec. exists pre, (ws2 ++ ds ++ post).
    rewrite Ht. by rewrite <-!(assoc_L (++)).
Qed.

Lemma single_batch_rejected soup limit nets product :
  (fetch_product_details soup limit (nets 0%nat) product).1 = None →
  process_products_parallel soup limit nets [0%nat] [product]
  = ([], [Print (Starting 1); Print PleaseWait; Print (Finished 0 1)]).
Proof.
  intros H. unfold process_products_parallel. cbn [foldl]. unfold collect.
  cbn [lookup list_lookup length]. by rewrite H.
Qed.

Lemma fill_basic_details_url p f :
  fill_basic_details p = Ok f → f !! "url" = p !! "url".
Proof.
  intros H. apply (fill_basic_details_other _ _ _ H). unfold title_keys. list_not_elem.
Qed.

Lemma enrich_other product text price key :
  key ∉ detail_keys → enrich product text price !! key = product !! key.
Proof.
  unfold detail_keys. intros Hk. unfold enrich.
  rewrite !lookup_insert_ne; [done|..]; intros <-; apply Hk; list_elem.
Qed.

Lemma enrich_url product text price :
  enrich product text price !! "url" = product !! "url".
Proof. apply enrich_other. unfold detail_keys. list_not_elem. Qed.

(** Every record of the pipeline has the URL of the candidate it was made
    from. *)
Lemma results_url soup limit nets order products r :
  Forall has_url products →
  r ∈ (process_products_parallel soup limit nets order products).1 →
  ∃ j product url,
    products !! j = Some product ∧ product !! "url" = Some url ∧
    r !! "url" = Some url ∧ accepted soup limit nets products j = Some r.
Proof.
  intros Hurls Hr. apply elem_of_results in Hr as (j & product & _ & Hj & Hacc).
  destruct (proj1 (Forall_forall _ _) Hurls product) as (url & Hu & _).
  { by eapply list_elem_of_lookup_2. }
  exists j, product, url. split; [done|]. split; [done|]. split.
  - apply fetch_product_details_Some in Hacc as (text & price & _ & _ & ->).
    by rewrite enrich_url.
  - unfold accepted. by rewrite Hj.
Qed.

(** C2.  For every batch of candidates with a URL, every completion order
    and every behaviour of the network: a candidate is dropped exactly when
    its fetch fails after its two attempts (both end in a transport error)
    or the page the fetch gives yields no parseable price; a candidate whose
    page has a parseable price is kept, its record having that price, the
    memory, storage and release year of the page's text, the empty string
    where the text has none, and the candidate's own title and url; the
    pipeline always returns, and what it returns is exactly the kept
    candidates' records, each made in that way from its candidate's page; a
    candidate whose detail text has no "RMB" in it is dropped; a batch of one
    candidate that is dropped gives no record and reports 0 of 1 accepted;
    and no row of a table made of the results has a dropped candidate's
    URL. *)
Theorem rejection_policy (soup : str → option str) (limit : nat)
    (nets : nat → network) (order : list nat) (products : list dict) :
  soup [] = Some [] →
  order ≡ₚ seq 0 (length products) →
  Forall has_url products →
  let run := process_products_parallel soup limit nets order products in
  let results := run.1 in
  (∀ i product,
      products !! i = Some product →
      (accepted soup limit nets products i = None ↔
       fetch_fails (nets i) ∨
       ∃ html, fetch_gives (nets i) html ∧ no_price soup limit html)) ∧
  (∀ i product html text price,
      products !! i = Some product →
      fetch_gives (nets i) html → soup html = Some text →
      parseable_price limit text price →
      ∃ result,
        accepted soup limit nets products i = Some result ∧ result ∈ results ∧
        result !! "price" = Some (VInt price) ∧
        result !! "memory" = Some (VStr (memory_of_text text)) ∧
        result !! "storage" = Some (VStr (storage_of_text text)) ∧
        result !! "release_year" = Some (VStr (release_year_of_text text)) ∧
        (nowhere MEMORY text → result !! "memory" = Some (VStr [])) ∧
        (nowhere STORAGE text → result !! "storage" = Some (VStr [])) ∧
        (nowhere RELEASE_YEAR text → result !! "release_year" = Some (VStr [])) ∧
        (∀ key, key ∉ detail_keys → result !! key = product !! key)) ∧
  results ≡ₚ omap (accepted soup limit nets products) (seq 0 (length products)) ∧
  (∀ result, result ∈ results →
      ∃ i product html text price,
        products !! i = Some product ∧
        fetch_gives (nets i) html ∧ soup html = Some text ∧
        parseable_price limit text price ∧
        accepted soup limit nets products i = Some result) ∧
  (∀ i product html text,
      products !! i = Some product →
      fetch_gives (nets i) html → soup html = Some text →
      contains RMB text = false →
      accepted soup limit nets products i = None) ∧
  (∀ product,
      products = [product] → accepted soup limit nets products 0 = None →
      run = ([], [Print (Starting 1); Print PleaseWait; Print (Finished 0 1)]) ∧
      length results = (length products - 1)%nat) ∧
  (∀ i product tie df row,
      products !! i = Some product →
      accepted soup limit nets products i = None →
      NoDup (record_url <$> products) →
      create_dataframe tie results = Ok df → row ∈ df_rows df →
      row !! "url" ≠ Val <$> product !! "url").
Proof.
  intros Hsoup Hperm Hurls run results.
  assert (results = omap (accepted soup limit nets products) order) as Hres
    by apply process_products_parallel_results.
  assert (∀ i product, products !! i = Some product → has_url product) as Hurl.
  { intros i product Hi. apply (proj1 (Forall_forall _ _) Hurls).
    by eapply list_elem_of_lookup_2. }
  assert (∀ i product,
            products !! i = Some product →
            (accepted soup limit nets products i = None ↔
             fetch_fails (nets i) ∨
             ∃ html, fetch_gives (nets i) html ∧ no_price soup limit html)) as Hiff.
  { intros i product Hi. unfold accepted. rewrite Hi.
    apply dropped_iff; [done|by eapply Hurl]. }
  split; [exact Hiff|]. split.
  { intros i product html text price Hi Hg Hs Hpp.
    exists (enrich product text price).
    assert (accepted soup limit nets products i = Some (enrich product text price))
      as Hacc.
    { unfold accepted. rewrite Hi. eapply kept_record; eauto. }
    split; [exact Hacc|]. split.
    { rewrite Hres. apply list_elem_of_omap. exists i. split; [|exact Hacc].
      rewrite Hperm. apply elem_of_seq. apply lookup_lt_Some in Hi. lia. }
    destruct (enrich_fields product text price) as (Em & Es & Ey).
    split; [apply enrich_price|]. split; [exact Em|]. split; [exact Es|].
    split; [exact Ey|]. split.
    { intros Hn. by rewrite Em, (memory_none text Hn). }
    split.
    { intros Hn. by rewrite Es, (storage_none text Hn). }
    split.
    { intros Hn. by rewrite Ey, (release_year_none text Hn). }
    intros key Hk. by apply enrich_other. }
  split.
  { rewrite Hres. by rewrite Hperm. }
  split.
  { intros result Hr. apply elem_of_results in Hr as (i & product & _ & Hi & Hacc).
    destruct (kept_from _ _ _ _ _ Hacc) as (html & text & price & Hg & Hs & Hpp & _).
    exists i, product, html, text, price. split; [done|]. split; [done|].
    split; [done|]. split; [done|]. unfold accepted. by rewrite Hi. }
  split.
  { intros i product html text Hi Hg Hs Hc. apply (Hiff i product Hi). right.
    exists html. split; [done|]. intros text' price' Hs' Hpp%parseable_price_spec.
    assert (text' = text) as -> by congruence.
    rewrite (no_rmb_no_price limit text Hc) in Hpp. discriminate Hpp. }
  split.
  { intros product -> Ha. simpl in Hperm. apply Permutation_singleton_r in Hperm.
    subst order. unfold accepted in Ha. simpl in Ha.
    assert (process_products_parallel soup limit nets [0%nat] [product]
            = ([], [Print (Starting 1); Print PleaseWait; Print (Finished 0 1)])) as E
      by (by apply single_batch_rejected).
    split; [exact E|]. subst results run. by rewrite E. }
  intros i product tie df row Hi Ha Hnd Hdf Hrow Hurl'.
  destruct (create_dataframe_rows _ _ _ _ Hdf Hrow)
    as (filled & p & f & Hfill & Hp & Hf & Hpf & Hc).
  destruct (results_url _ _ _ _ _ _ Hurls Hp) as (j & product' & url' & Hj & Hu' & Hpu & Hacc).
  assert (i ≠ j) as Hij by (intros ->; congruence).
  assert (Forall (λ f : dict, is_Some (f !! "url")) filled) as Hall.
  { apply Forall_forall. intros f' Hf'. apply list_elem_of_lookup in Hf' as [k Hk].
    destruct (Forall2_lookup_r _ _ _ _ _ (fill_all_Ok _ _ Hfill) Hk) as (p' & Hp' & Hpf').
    apply list_elem_of_lookup_2 in Hp'.
    destruct (results_url _ _ _ _ _ _ Hurls Hp') as (_ & _ & u' & _ & _ & Hu & _).
    rewrite (fill_basic_details_url _ _ Hpf'). by rewrite Hu. }
  assert (f !! "url" = Some url') as Hfu.
  { by rewrite (fill_basic_details_url _ _ Hpf). }
  assert (row !! "url" = Some (Val url')) as Hrow_url.
  { rewrite (Hc "url"%string) by (unfold columns_order; list_elem).
    by rewrite (shown_total filled f "url" url' Hall Hf Hfu). }
  rewrite Hrow_url in Hurl'.
  destruct (product !! "url") as [url|] eqn:Hu; [|done].
  injection Hurl' as Hurl'. subst url'.
  apply (NoDup_lookup _ i j (Some url)) in Hnd; [done| |].
  - rewrite list_lookup_fmap, Hi. simpl. unfold record_url. by rewrite Hu.
  - rewrite list_lookup_fmap, Hj. simpl. unfold record_url. by rewrite Hu'.
Qed.

Lemma sample_candidate_has_url : has_url sample_candidate.
Proof. eexists. split; reflexivity. Qed.

(** Two candidates: the page of the first has a price, that of the second
    is out of stock. *)
Definition two_pages : nat → network :=
  λ i, match i with
       | 0%nat => always (u "或 RMB 9,999 含税")
       | _ => always (u "暂时缺货")
       end.

Lemma always_gives text : fetch_gives (always text) text.
Proof. exists 0%nat. split; [lia|]. split; [done|]. intros j Hj. lia. Qed.

Lemma sample_price : parseable_price 4300 (u "或 RMB 9,999 含税") 9999.
Proof.
  left. exists [], (u "9,999"). split; [|apply python_int_9999].
  exists [32%N], [32%N], (u " 含税").
  split; [by vm_compute|]. split; [reflexivity|]. split; [reflexivity|].
  split; [intros H; by vm_compute in H|]. split; [by vm_compute|].
  split; [by vm_compute|]. intros pre' mid' post' _ _. simpl. lia.
Qed.

Lemma rejection_policy_witness :
  (∃ result,
      accepted plain_text 4300 two_pages [sample_candidate; sample_candidate] 0
      = Some result ∧
      result !! "price" = Some (VInt 9999)) ∧
  accepted plain_text 4300 two_pages [sample_candidate; sample_candidate] 1 = None.
Proof.
  destruct (rejection_policy plain_text 4300 two_pages [0; 1]%nat
              [sample_candidate; sample_candidate] eq_refl (Permutation_refl _)
              (Forall_cons_2 _ _ _ sample_candidate_has_url
                 (Forall_cons_2 _ _ _ sample_candidate_has_url (Forall_nil_2 _))))
    as (_ & Hkept & _ & _ & Hno & _).
  split.
  - destruct (Hkept 0%nat sample_candidate (u "或 RMB 9,999 含税")
                (u "或 RMB 9,999 含税") 9999 eq_refl
                (always_gives _) eq_refl sample_price)
      as (result & Ha & _ & Hp & _).
    exists result. split; [exact Ha|exact Hp].
  - apply (Hno 1%nat sample_candidate (u "暂时缺货") (u "暂时缺货") eq_refl
             (always_gives _) eq_refl).
    by vm_compute.
Defined.

(** ** Title fields *)

(** The if/elif chain of the model family as a table: the keywords of each
    rule and the model it gives, in the order the source tries them. *)
Definition model_rules : list (list str * str) :=
  [([u "MacBook Air"], u "MacBook Air");
   ([u "MacBook Pro"], u "MacBook Pro");
   ([u "Mac mini"], u "Mac mini");
   ([u "Mac Studio"], u "Mac Studio");
   ([u "Mac Pro"], u "Mac Pro");
   ([u "iMac"], u "iMac");
   ([u "显示屏"; u "Display"], u "显示屏")].

Definition fires (title : str) (rule : list str * str) : bool :=
  existsb (λ keyword, contains keyword title) rule.1.

(** The number of the screen size pattern, and the chip name. *)
Definition NUMBER : regex := Plus is_decimal ⋅ Opt (Lit (u ".") ⋅ Plus is_decimal).

Definition CHIP_NAME : regex :=
  Lit (u "M") ⋅ Plus is_decimal
    ⋅ Opt (Plus is_space ⋅ Alt (Lit (u "Pro")) (Alt (Lit (u "Max")) (Lit (u "Ultra")))).

Lemma find_first {A} (p : A → bool) (l l1 l2 : list A) x :
  l = l1 ++ x :: l2 → forallb (λ y, negb (p y)) l1 = true → p x = true →
  List.find p l = Some x.
Proof.
  intros -> H1 Hx. induction l1 as [|y l1 IH]; simpl in *.
  - by rewrite Hx.
  - apply andb_prop in H1 as [Hy H1]. apply negb_true_iff in Hy. rewrite Hy. by apply IH.
Qed.

Lemma find_none {A} (p : A → bool) (l : list A) :
  forallb (λ y, negb (p y)) l = true → List.find p l = None.
Proof.
  induction l as [|y l IH]; simpl; [done|]. intros H.
  apply andb_prop in H as [Hy H]. apply negb_true_iff in Hy. rewrite Hy. by apply IH.
Qed.

Lemma model_by_rules title :
  model (extract_basic_details title)
  = match List.find (fires title) model_rules with
    | Some rule => rule.2
    | None => []
    end.
Proof.
  unfold extract_basic_details, model_rules, fires.
  cbn [model List.find existsb fst snd].
  destruct (contains (u "MacBook Air") title); [reflexivity|].
  destruct (contains (u "MacBook Pro") title); [reflexivity|].
  destruct (contains (u "Mac mini") title); [reflexivity|].
  destruct (contains (u "Mac Studio") title); [reflexivity|].
  destruct (contains (u "Mac Pro") title); [reflexivity|].
  destruct (contains (u "iMac") title); [reflexivity|].
  destruct (contains (u "显示屏") title); [reflexivity|].
  destruct (contains (u "Display") title); reflexivity.
Qed.

Lemma cpu_tail_apart : starts_apart (Lit CPU_MARKER).
Proof. intros t ->. by eexists _, _. Qed.

Lemma gpu_tail_apart : starts_apart (Lit GPU_MARKER).
Proof. intros t ->. by eexists _, _. Qed.

Lemma core_count_at (marker : str) text pre ds ws post :
  starts_apart (Lit marker) →
  text = pre ++ ds ++ ws ++ marker ++ post →
  ds ≠ [] → forallb is_decimal ds = true → forallb is_space ws = true →
  earliest (DIGITS_THEN (Lit marker)) text pre →
  ∃ m, search (DIGITS_THEN (Lit marker)) text = Some m ∧ group m 1 = ds.
Proof.
  intros Ha Ht Hne Hds Hws He.
  destruct (digits_then_at (Lit marker) text pre ds ws marker post)
    as (m & t' & post' & g & Hm & Hg & _); try done.
  - cbn. list_not_elem.
  - by exists m.
Qed.

Lemma Parses_screen_size mid g g' :
  Parses SCREEN_SIZE mid g g' →
  ∃ number ws g2,
    mid = number ++ ws ++ INCH ∧ Parses NUMBER number g g2 ∧
    forallb is_space ws = true ∧ g' = <[1%nat := number]> g2.
Proof.
  unfold SCREEN_SIZE. cbn [Parses].
  intros (number & s2 & g1 & -> & (g2 & P & ->) & ws & s3 & g3 & -> & [Hws ->]
          & [-> ->]).
  exists number, ws, g2. by repeat split.
Qed.

Lemma Parses_chip mid g g' :
  Parses CHIP mid g g' →
  ∃ name g2, mid = u "Apple " ++ name ∧ Parses CHIP_NAME name g g2 ∧
             g' = <[1%nat := name]> g2.
Proof.
  unfold CHIP. cbn [Parses].
  intros (s1 & name & g1 & -> & [-> ->] & g2 & P & ->).
  exists name, g2. by repeat split.
Qed.

Lemma group1_of m (mid name : str) (g : captures) :
  m_groups m = <[0%nat := mid]> (<[1%nat := name]> g) → group m 1 = name.
Proof.
  intros H. unfold group. rewrite H. rewrite lookup_insert_ne by done.
  by rewrite lookup_insert_eq.
Qed.

(** C9.  For every title: the model is that of the first rule, in the
    source's order, one of whose keywords is in the title; the color is the
    first entry of the palette that is in the title; screen_size, chip,
    cpu_cores and gpu_cores come from the leftmost place where their pattern
    matches; and each field is the empty string when nothing of its family
    matches.  The scenario title gives MacBook Air, 13英寸, M2, 8核, 10核,
    深空灰色. *)
Theorem title_fields (title : str) :
  let details := extract_basic_details title in
  (∀ l1 rule l2,
      model_rules = l1 ++ rule :: l2 →
      forallb (λ r, negb (fires title r)) l1 = true → fires title rule = true →
      model details = rule.2) ∧
  (forallb (λ r, negb (fires title r)) model_rules = true → model details = []) ∧
  (∀ l1 c l2,
      colors = l1 ++ c :: l2 →
      forallb (λ c', negb (contains c' title)) l1 = true → contains c title = true →
      color details = c) ∧
  (forallb (λ c', negb (contains c' title)) colors = true → color details = []) ∧
  ((nowhere SCREEN_SIZE title ∧ screen_size details = []) ∨
   (∃ pre number ws post,
       title = pre ++ number ++ ws ++ INCH ++ post ∧ Matches NUMBER number ∧
       forallb is_space ws = true ∧ earliest SCREEN_SIZE title pre ∧
       screen_size details = number ++ u "英寸")) ∧
  ((nowhere CHIP title ∧ chip details = []) ∨
   (∃ pre name post,
       title = pre ++ u "Apple " ++ name ++ post ∧ Matches CHIP_NAME name ∧
       earliest CHIP title pre ∧ chip details = name)) ∧
  (nowhere CPU_CORES title → cpu_cores details = []) ∧
  (∀ pre ds ws post,
      title = pre ++ ds ++ ws ++ CPU_MARKER ++ post →
      ds ≠ [] → forallb is_decimal ds = true → forallb is_space ws = true →
      earliest CPU_CORES title pre →
      cpu_cores details = ds ++ u "核") ∧
  (nowhere GPU_CORES title → gpu_cores details = []) ∧
  (∀ pre ds ws post,
      title = pre ++ ds ++ ws ++ GPU_MARKER ++ post →
      ds ≠ [] → forallb is_decimal ds = true → forallb is_space ws = true →
      earliest GPU_CORES title pre →
      gpu_cores details = ds ++ u "核") ∧
  extract_basic_details
    (u "翻新 MacBook Air 13 英寸机型搭载 Apple M2 芯片 8 核中央处理器 10 核图形处理器 深空灰色")
  = {| model := u "MacBook Air"; screen_size := u "13英寸"; chip := u "M2";
       cpu_cores := u "8核"; gpu_cores := u "10核"; color := u "深空灰色" |}.
Proof.
  intros details. subst details.
  split.
  { intros l1 rule l2 Hl H1 Hr. rewrite model_by_rules.
    by rewrite (find_first _ _ _ _ _ Hl H1 Hr). }
  split.
  { intros H. rewrite model_by_rules. by rewrite (find_none _ _ H). }
  split.
  { intros l1 c l2 Hl H1 Hc. cbn [extract_basic_details color].
    by rewrite (find_first _ _ _ _ _ Hl H1 Hc). }
  split.
  { intros H. cbn [extract_basic_details color]. by rewrite (find_none _ _ H). }
  split.
  { cbn [extract_basic_details screen_size].
    destruct (search SCREEN_SIZE title) as [m|] eqn:E; [right|left].
    - apply search_Some in E as (pre & mid & post & g1 & (Ht & M & L) & _ & P & Hm).
      apply Parses_screen_size in P as (number & ws & g2 & -> & Hn & Hws & ->).
      exists pre, number, ws, post. rewrite <-!(assoc_L (++)) in Ht.
      split; [exact Ht|]. split; [by eapply Parses_Matches|]. split; [exact Hws|].
      split; [exact L|]. by rewrite (group1_of _ _ _ _ Hm).
    - split; [by apply search_None|reflexivity]. }
  split.
  { cbn [extract_basic_details chip].
    destruct (search CHIP title) as [m|] eqn:E; [right|left].
    - apply search_Some in E as (pre & mid & post & g1 & (Ht & M & L) & _ & P & Hm).
      apply Parses_chip in P as (name & g2 & -> & Hn & ->).
      exists pre, name, post. rewrite <-!(assoc_L (++)) in Ht.
      split; [exact Ht|]. split; [by eapply Parses_Matches|].
      split; [exact L|]. by rewrite (group1_of _ _ _ _ Hm).
    - split; [by apply search_None|reflexivity]. }
  split.
  { intros H%search_None. cbn [extract_basic_details cpu_cores]. by rewrite H. }
  split.
  { intros pre ds ws post Ht Hne Hds Hws He.
    destruct (core_count_at CPU_MARKER title pre ds ws post cpu_tail_apart
                Ht Hne Hds Hws He) as (m & Hm & Hg).
    cbn [extract_basic_details cpu_cores].
    change CPU_CORES with (DIGITS_THEN (Lit CPU_MARKER)).
    by rewrite Hm, Hg. }
  split.
  { intros H%search_None. cbn [extract_basic_details gpu_cores]. by rewrite H. }
  split.
  { intros pre ds ws post Ht Hne Hds Hws He.
    destruct (core_count_at GPU_MARKER title pre ds ws post gpu_tail_apart
                Ht Hne Hds Hws He) as (m & Hm & Hg).
    cbn [extract_basic_details gpu_cores].
    change GPU_CORES with (DIGITS_THEN (Lit GPU_MARKER)).
    by rewrite Hm, Hg. }
  by vm_compute.
Qed.

(** Rose gold is in the palette after gold, whose name it contains. *)
Lemma title_fields_witness :
  color (extract_basic_details (u "翻新 MacBook Air 玫瑰金色")) = u "金色".
Proof.
  apply (proj1 (proj2 (proj2 (title_fields (u "翻新 MacBook Air 玫瑰金色"))))
           (firstn 6 colors) (u "金色") (skipn 7 colors)); by vm_compute.
Defined.

(** ** Further properties of the program *)

(** *** parse_product_list: the URLs and the records it makes *)

Lemma startswith_app (p r : str) : startswith (p ++ r) p = true.
Proof. apply startswith_spec. by exists r. Qed.

Lemma split_head_http r :
  split_head QUESTION_MARK (HTTP ++ r) = HTTP ++ split_head QUESTION_MARK r.
Proof. reflexivity. Qed.

Lemma normalize_url_http href : startswith (normalize_url href) HTTP = true.
Proof.
  rewrite normalize_url_cases. destruct (startswith href HTTP) eqn:E.
  - apply startswith_spec in E as [r ->]. rewrite split_head_http.
    apply startswith_app.
  - reflexivity.
Qed.

Lemma normalize_url_no_query href : QUESTION_MARK ∉ normalize_url href.
Proof. unfold normalize_url. apply split_head_no_sep. Qed.

(** X1.  The URL normalizer, for every href: normalizing twice is
    normalizing once; the result has no "?" in it; and it starts with
    "http" (so it is never empty). *)
Theorem normalize_url_idempotent (href : str) :
  normalize_url (normalize_url href) = normalize_url href ∧
  (QUESTION_MARK ∉ normalize_url href) ∧
  startswith (normalize_url href) HTTP = true ∧
  normalize_url href ≠ [].
Proof.
  split_and!.
  - rewrite (normalize_url_cases (normalize_url href)), normalize_url_http.
    apply split_head_id, normalize_url_no_query.
  - apply normalize_url_no_query.
  - apply normalize_url_http.
  - intros E. pose proof (normalize_url_http href) as H. by rewrite E in H.
Qed.

Lemma parse_product_list_elem soup_anchors is_word html_content rec :
  rec ∈ parse_product_list soup_anchors is_word html_content →
  ∃ a href,
    a ∈ soup_anchors html_content ∧ a_href a = Some href ∧
    is_Some (search (PRODUCT_HREF is_word) href) ∧
    startswith (a_text a) REFURB_MARKER = true ∧
    rec = candidate (a_text a) (normalize_url href).
Proof.
  unfold parse_product_list. intros Hrec.
  destruct (visit_links_invariant (find_all_a soup_anchors is_word html_content))
    as (positions & _ & _ & HF2 & _).
  apply list_elem_of_lookup_1 in Hrec as [i Hi].
  destruct (Forall2_lookup_r _ _ _ _ _ HF2 Hi)
    as (pos & _ & href & title & Hl & Hm & -> & _).
  apply list_elem_of_lookup_2 in Hl. unfold find_all_a in Hl.
  apply list_elem_of_omap in Hl as (a & Ha & Hsome).
  destruct (a_href a) as [href'|] eqn:Eh; [|done].
  destruct (search (PRODUCT_HREF is_word) href') as [m|] eqn:Es; [|done].
  injection Hsome as -> <-. exists a, href. rewrite Es. by repeat split.
Qed.

Lemma candidate_has_url title href : has_url (candidate title (normalize_url href)).
Proof.
  exists (VStr (normalize_url href)). split; [reflexivity|].
  pose proof (normalize_url_http href) as H.
  apply startswith_spec in H as [r ->]. reflexivity.
Qed.

(** X2.  Every record the list discoverer returns comes from an <a> tag of
    the page that has an href in which the product pattern is found and
    whose text starts with 翻新; the record is that text as title and the
    normalized href as url, and its url is not empty.  So no record is made
    for a tag without href, with an href of another shape, or with another
    kind of title. *)
Theorem parse_product_list_records (soup_anchors : str → list anchor)
    (is_word : char → bool) (html_content : str) :
  Forall (λ rec : dict,
            ∃ a href,
              a ∈ soup_anchors html_content ∧ a_href a = Some href ∧
              is_Some (search (PRODUCT_HREF is_word) href) ∧
              startswith (a_text a) REFURB_MARKER = true ∧
              rec = candidate (a_text a) (normalize_url href) ∧
              rec !! "title" = Some (VStr (a_text a)) ∧
              rec !! "url" = Some (VStr (normalize_url href)) ∧
              has_url rec)
         (parse_product_list soup_anchors is_word html_content).
Proof.
  apply Forall_forall. intros rec Hrec.
  apply parse_product_list_elem in Hrec as (a & href & Ha & Hh & Hs & Ht & ->).
  exists a, href. repeat split; try done. apply candidate_has_url.
Qed.

(** *** extract_basic_details: the palette *)

Definition ROSE_GOLD : str := Eval vm_compute in u "玫瑰金色".
Definition GOLD : str := Eval vm_compute in u "金色".

Lemma rose_gold_has_gold title :
  contains ROSE_GOLD title = true → contains GOLD title = true.
Proof.
  intros (pre & post & ->)%contains_spec. apply contains_spec.
  exists (pre ++ firstn 2 ROSE_GOLD), post. by rewrite <-(assoc_L (++)).
Qed.

Lemma find_color title :
  match List.find (λ c, contains c title) colors with
  | Some c => c ∈ colors ∧ contains c title = true ∧ c ≠ ROSE_GOLD
  | None => contains ROSE_GOLD title = false
  end.
Proof.
  pose proof (rose_gold_has_gold title) as Hrg.
  unfold ROSE_GOLD, GOLD in *. unfold colors. cbn [List.find].
  repeat match goal with
         | |- context [if contains ?c title then _ else _] =>
             let E := fresh "E" in
             destruct (contains c title) eqn:E;
             [first [ by (split; [list_elem|split; [done|discriminate] ])
                    | by (exfalso; discriminate (Hrg eq_refl)) ] |]
         end.
  done.
Qed.

(** X3.  The color of a title is the empty string or an entry of the
    palette that is in the title; and it is never 玫瑰金色, whatever the
    title: that entry stands after 金色, which is in every title it is in,
    so a title with 玫瑰金色 in it gets another entry of the palette. *)
Theorem color_never_rose_gold (title : str) :
  let c := color (extract_basic_details title) in
  (c = [] ∨ (c ∈ colors ∧ contains c title = true)) ∧
  c ≠ ROSE_GOLD ∧
  (contains ROSE_GOLD title = true → c ∈ colors ∧ c ≠ ROSE_GOLD).
Proof.
  cbn zeta. cbn [extract_basic_details color].
  pose proof (find_color title) as H.
  destruct (List.find (λ c, contains c title) colors) as [c|].
  - destruct H as (Hc & Ht & Hne). split; [by right|]. split; [done|]. by intros _.
  - split; [by left|]. split; [discriminate|]. intros H'. congruence.
Qed.

(** *** create_dataframe: when it raises *)

Definition has_title (product : dict) : Prop :=
  ∃ title, product !! "title" = Some (VStr title).

(** The first record that has no title that is a str, and the exception it
    causes. *)
Definition first_bad_title (products : list dict) (e : exn) : Prop :=
  ∃ before product after,
    products = before ++ product :: after ∧ Forall has_title before ∧
    ((product !! "title" = None ∧ e = KeyError "title") ∨
     (∃ z, product !! "title" = Some (VInt z) ∧ e = TypeError)).

Lemma fill_all_Raise products e :
  fill_all products = Raise e ↔ first_bad_title products e.
Proof.
  split.
  - induction products as [|p ps IH]; cbn [fill_all]; [done|].
    unfold fill_basic_details. destruct (p !! "title") as [[t|z]|] eqn:Et.
    + destruct (fill_all ps) as [fs|e'] eqn:Efs; [done|].
      intros [= ->]. destruct (IH eq_refl) as (l1 & q & l2 & -> & Hl1 & Hq).
      exists (p :: l1), q, l2. split; [done|]. split; [|done].
      constructor; [by exists t|done].
    + intros [= <-]. exists [], p, ps. split; [done|]. split; [constructor|].
      right. by exists z.
    + intros [= <-]. exists [], p, ps. split; [done|]. split; [constructor|].
      by left.
  - intros (l1 & q & l2 & -> & Hl1 & Hq).
    induction Hl1 as [|p l1 [t Ht] _ IH]; cbn [app fill_all].
    + unfold fill_basic_details.
      destruct Hq as [[-> ->]|(z & -> & ->)]; reflexivity.
    + unfold fill_basic_details at 1. rewrite Ht. by rewrite IH.
Qed.

Lemma fill_all_has_title products :
  Forall has_title products ↔ ∃ filled, fill_all products = Ok filled.
Proof.
  split.
  - intros Hall. destruct (fill_all products) as [filled|e] eqn:E; [by exists filled|].
    apply fill_all_Raise in E as (l1 & q & l2 & -> & _ & Hq).
    apply Forall_app in Hall as [_ Hall]. apply Forall_cons in Hall as [[t Ht] _].
    destruct Hq as [[Hq _]|(z & Hq & _)]; congruence.
  - intros [filled E%fill_all_Ok]. apply Forall_forall. intros p Hp.
    apply list_elem_of_lookup in Hp as [i Hi].
    destruct (Forall2_lookup_l _ _ _ _ _ E Hi) as (f & _ & Hf).
    unfold fill_basic_details in Hf.
    destruct (p !! "title") as [[t|z]|] eqn:Et; [by exists t|done|done].
Qed.

(** The price column mixes strs and ints. *)
Definition mixed_prices (products : list dict) : Prop :=
  (∃ p s, p ∈ products ∧ p !! "price" = Some (VStr s)) ∧
  (∃ p z, p ∈ products ∧ p !! "price" = Some (VInt z)).

Lemma mixed_prices_filled products filled :
  Forall2 (λ p f : dict, fill_basic_details p = Ok f) products filled →
  mixed_prices filled ↔ mixed_prices products.
Proof.
  intros F2.
  assert (∀ v, (∃ f, f ∈ filled ∧ f !! "price" = Some v)
               ↔ (∃ p, p ∈ products ∧ p !! "price" = Some v)) as H.
  { intros v. split.
    - intros (f & [i Hi]%list_elem_of_lookup & Hv).
      destruct (Forall2_lookup_r _ _ _ _ _ F2 Hi) as (p & Hp & Hpf).
      exists p. split; [by eapply list_elem_of_lookup_2|].
      rewrite <-Hv. symmetry. apply (fill_basic_details_other _ _ _ Hpf).
      unfold title_keys. list_not_elem.
    - intros (p & [i Hi]%list_elem_of_lookup & Hv).
      destruct (Forall2_lookup_l _ _ _ _ _ F2 Hi) as (f & Hf & Hpf).
      exists f. split; [by eapply list_elem_of_lookup_2|].
      rewrite <-Hv. apply (fill_basic_details_other _ _ _ Hpf).
      unfold title_keys. list_not_elem. }
  unfold mixed_prices. split.
  - intros [(f & s & Hf & Hs) (f' & z & Hf' & Hz)]. split.
    + destruct (proj1 (H (VStr s))) as (p & Hp & Hv); [by exists f|]. by exists p, s.
    + destruct (proj1 (H (VInt z))) as (p & Hp & Hv); [by exists f'|]. by exists p, z.
  - intros [(p & s & Hp & Hs) (p' & z & Hp' & Hz)]. split.
    + destruct (proj2 (H (VStr s))) as (f & Hf & Hv); [by exists p|]. by exists f, s.
    + destruct (proj2 (H (VInt z))) as (f & Hf & Hv); [by exists p'|]. by exists f, z.
Qed.

Lemma existsb_keys (P : sort_key → bool) (g : dict → option sort_key) (l : list dict) :
  existsb P (omap id (g <$> l)) = true ↔ ∃ f k, f ∈ l ∧ g f = Some k ∧ P k = true.
Proof.
  rewrite existsb_exists. split.
  - intros (k & Hk%list_elem_of_In & HP).
    apply list_elem_of_omap in Hk as (o & Ho & Hid). unfold id in Hid. subst o.
    apply list_elem_of_fmap in Ho as (f & Hg & Hf). by exists f, k.
  - intros (f & k & Hf & Hg & HP). exists k. split; [|done].
    apply list_elem_of_In, list_elem_of_omap. exists (Some k). split; [|done].
    apply list_elem_of_fmap. by exists f.
Qed.

(** The key of a record's price cell is a number exactly when the record's
    price is an int. *)
Lemma price_key_num (filled : list dict) (f : dict) :
  f ∈ filled →
  (∃ k, key_of_cell (shown filled "price" (f !! "price")) = Some k ∧ is_num k = true)
  ↔ ∃ z, f !! "price" = Some (VInt z).
Proof.
  intros Hf. unfold shown. destruct (f !! "price") as [[s|z]|] eqn:E.
  - rewrite bool_decide_eq_true_2
      by (apply Exists_exists; exists f; split; [done|by rewrite E]).
    cbn [column_cell key_of_cell]. split.
    + by intros (k & [= <-] & Hk).
    + by intros [z [=]].
  - rewrite bool_decide_eq_true_2
      by (apply Exists_exists; exists f; split; [done|by rewrite E]).
    cbn [column_cell]. split; [by exists z|]. intros _.
    destruct (float64_column _); by eexists.
  - split; [|by intros [z [=]]]. case_bool_decide.
    + by intros (k & [=] & _).
    + by intros (k & [= <-] & Hk).
Qed.

(** Where some record's price is an int, the key is a str exactly when the
    record's price is a str. *)
Lemma price_key_str (filled : list dict) (f : dict) :
  Exists (λ f : dict, is_Some (f !! "price")) filled → f ∈ filled →
  (∃ k, key_of_cell (shown filled "price" (f !! "price")) = Some k
        ∧ negb (is_num k) = true)
  ↔ ∃ s, f !! "price" = Some (VStr s).
Proof.
  intros Hex Hf. unfold shown. rewrite bool_decide_eq_true_2 by done.
  destruct (f !! "price") as [[s|z]|] eqn:E; cbn [column_cell].
  - split; [by exists s|]. intros _. by eexists.
  - split; [|by intros [s [=]]].
    destruct (float64_column _); by intros (k & [= <-] & Hk).
  - split; [by intros (k & [=] & _)|by intros [s [=]]].
Qed.

(** Whether the prices are mixed can be told. *)
Lemma classic_mixed (products : list dict) :
  mixed_prices products ∨ ¬ mixed_prices products.
Proof.
  unfold mixed_prices.
  destruct (existsb (λ p : dict, match p !! "price" with
                                 | Some (VStr _) => true
                                 | _ => false
                                 end) products) eqn:E1.
  2: { right. intros [(p & s & Hp & Hs) _]. apply not_true_iff_false in E1.
       apply E1, existsb_exists. exists p. split; [by apply list_elem_of_In|].
       by rewrite Hs. }
  destruct (existsb (λ p : dict, match p !! "price" with
                                 | Some (VInt _) => true
                                 | _ => false
                                 end) products) eqn:E2.
  2: { right. intros [_ (p & z & Hp & Hz)]. apply not_true_iff_false in E2.
       apply E2, existsb_exists. exists p. split; [by apply list_elem_of_In|].
       by rewrite Hz. }
  left. apply existsb_exists in E1 as (p & Hp%list_elem_of_In & Hs).
  apply existsb_exists in E2 as (p' & Hp'%list_elem_of_In & Hz). split.
  - destruct (p !! "price") as [[s|z]|] eqn:E; try done. by exists p, s.
  - destruct (p' !! "price") as [[s|z]|] eqn:E; try done. by exists p', z.
Qed.

(** Sorting the price column raises exactly when it mixes strs and ints. *)
Lemma argsort_price_keys tie (filled : list dict) :
  (mixed_prices filled → argsort tie (price_keys filled) = Raise TypeError) ∧
  (¬ mixed_prices filled → ∃ indexer, argsort tie (price_keys filled) = Ok indexer).
Proof.
  unfold argsort. rewrite present_snd. unfold price_keys.
  set (g := λ f : dict, key_of_cell (shown filled "price" (f !! "price"))).
  assert (existsb is_num (omap id (g <$> filled)) = true
          ↔ ∃ f z, f ∈ filled ∧ f !! "price" = Some (VInt z)) as HA.
  { rewrite existsb_keys. split.
    - intros (f & k & Hf & Hg & Hk).
      destruct (proj1 (price_key_num filled f Hf)) as [z Hz]; [by exists k|].
      by exists f, z.
    - intros (f & z & Hf & Hz).
      destruct (proj2 (price_key_num filled f Hf)) as (k & Hg & Hk); [by exists z|].
      by exists f, k. }
  assert ((∃ f z, f ∈ filled ∧ f !! "price" = Some (VInt z)) →
          (existsb (λ k, negb (is_num k)) (omap id (g <$> filled)) = true
           ↔ ∃ f s, f ∈ filled ∧ f !! "price" = Some (VStr s))) as HB.
  { intros (f0 & z0 & Hf0 & Hz0).
    assert (Exists (λ f : dict, is_Some (f !! "price")) filled) as Hex.
    { apply Exists_exists. exists f0. split; [done|]. by rewrite Hz0. }
    rewrite existsb_keys. split.
    - intros (f & k & Hf & Hg & Hk).
      destruct (proj1 (price_key_str filled f Hex Hf)) as [s Hs]; [by exists k|].
      by exists f, s.
    - intros (f & s & Hf & Hs).
      destruct (proj2 (price_key_str filled f Hex Hf)) as (k & Hg & Hk); [by exists s|].
      by exists f, k. }
  split.
  - intros [(f & s & Hf & Hs) (f' & z & Hf' & Hz)].
    rewrite (proj2 HA) by (by exists f', z).
    rewrite (proj2 (HB ltac:(by exists f', z))) by (by exists f, s). done.
  - intros Hmixed.
    destruct (existsb is_num (omap id (g <$> filled))) eqn:EA; [|by eexists].
    destruct (existsb (λ k, negb (is_num k)) (omap id (g <$> filled))) eqn:EB;
      [|by eexists].
    exfalso. apply Hmixed. destruct (proj1 HA eq_refl) as (f' & z & Hf' & Hz).
    destruct (proj1 (HB ltac:(by exists f', z)) eq_refl) as (f & s & Hf & Hs).
    split; [by exists f, s|by exists f', z].
Qed.

(** X4.  [create_dataframe] raises in exactly two cases.  Some record has no
    title that is a str: then it raises what the first such record causes,
    KeyError 'title' when it has no title, TypeError when its title is an
    int.  Or every record has a str title, and among the prices there are
    both a str and an int: then sorting raises TypeError.  In every other
    case it returns a frame. *)
Theorem create_dataframe_raises (tie : nat → nat) (products : list dict) :
  (∀ e, create_dataframe tie products = Raise e ↔
        first_bad_title products e ∨
        (Forall has_title products ∧ mixed_prices products ∧ e = TypeError)) ∧
  (Forall has_title products → ¬ mixed_prices products →
   ∃ df, create_dataframe tie products = Ok df).
Proof.
  destruct products as [|p0 ps].
  { split.
    - intros e. split; [done|].
      intros [(l1 & q & l2 & H & _)|(_ & [(p & s & Hp & _) _] & _)].
      + by destruct l1.
      + by apply elem_of_nil in Hp.
    - intros _ _. by eexists. }
  destruct (fill_all (p0 :: ps)) as [filled|e'] eqn:Efill.
  - destruct (create_dataframe_filled tie (p0 :: ps) filled) as (df0 & _ & _ & ->);
      [done|done|].
    pose proof (mixed_prices_filled _ _ (fill_all_Ok _ _ Efill)) as Hmix.
    destruct (argsort_price_keys tie filled) as [HR HO].
    assert (Forall has_title (p0 :: ps)) as Hall
      by (apply fill_all_has_title; by exists filled).
    split.
    + intros e. split.
      * intros He. right. split; [done|].
        destruct (classic_mixed filled) as [Hm|Hm].
        -- rewrite (HR Hm) in He. split; [by apply Hmix|congruence].
        -- destruct (HO Hm) as [indexer Hi]. rewrite Hi in He. discriminate.
      * intros [Hbad|(_ & Hm & ->)].
        -- apply fill_all_Raise in Hbad. congruence.
        -- by rewrite (HR (proj2 Hmix Hm)).
    + intros _ Hm. destruct (HO (λ H, Hm (proj1 Hmix H))) as [indexer ->]. by eexists.
  - assert (create_dataframe tie (p0 :: ps) = Raise e') as ->.
    { unfold create_dataframe. by rewrite Efill. }
    split.
    + intros e. split.
      * intros [= ->]. left. by apply fill_all_Raise.
      * intros [Hbad|(Hall & _)].
        -- apply fill_all_Raise in Hbad. congruence.
        -- apply fill_all_has_title in Hall as [filled Hf]. congruence.
    + intros Hall. apply fill_all_has_title in Hall as [filled Hf]. congruence.
Qed.

(** *** create_dataframe: filling twice *)

Lemma items_at (d : basic_details) key :
  key ∈ title_keys → ∃ v, (key, v) ∈ items d.
Proof.
  rewrite <-(items_keys d). intros ([k v] & -> & Hin)%list_elem_of_fmap.
  by exists v.
Qed.

(** X5.  Filling a record from its title a second time changes nothing:
    what the first pass put in, or left alone, the second pass leaves as it
    is, also where the title gave an empty value. *)
Theorem fill_basic_details_idempotent (product filled : dict) :
  fill_basic_details product = Ok filled →
  fill_basic_details filled = Ok filled.
Proof.
  intros Hfill.
  assert (filled !! "title" = product !! "title") as Ht.
  { apply (fill_basic_details_other _ _ _ Hfill). unfold title_keys. list_not_elem. }
  unfold fill_basic_details in *. rewrite Ht.
  destruct (product !! "title") as [[title|z]|]; [|discriminate|discriminate].
  apply Ok_inj in Hfill. f_equal. apply map_eq. intros key.
  destruct (decide (key ∈ title_keys)) as [Hk|Hk].
  - destruct (items_at (extract_basic_details title) key Hk) as [v Hin].
    pose proof (foldl_fill_key_at (items (extract_basic_details title)) product key v)
      as H1.
    pose proof (foldl_fill_key_at (items (extract_basic_details title)) filled key v)
      as H2.
    rewrite items_keys in H1, H2.
    specialize (H1 title_keys_NoDup Hin). specialize (H2 title_keys_NoDup Hin).
    rewrite H2. rewrite Hfill in H1. rewrite H1.
    destruct (truthy_opt (product !! key)) eqn:E; [by rewrite E|].
    cbn [truthy_opt]. by destruct (truthy v).
  - apply foldl_fill_key_other. by rewrite items_keys.
Qed.

Lemma fill_basic_details_idempotent_witness :
  ∃ filled,
    fill_basic_details sample_candidate = Ok filled ∧
    fill_basic_details filled = Ok filled.
Proof.
  eexists. split; [reflexivity|].
  apply (fill_basic_details_idempotent sample_candidate). reflexivity.
Defined.

(** *** fetch_page: what it sends *)

Definition is_request (e : event) : bool :=
  match e with
  | Get _ _ => true
  | _ => false
  end.

(** The number of requests in a trace. *)
Definition requests (tr : list event) : nat := length (List.filter is_request tr).

(** What a call of [fetch_page] on [url] may leave in the trace. *)
Definition fetch_event (url : value) (e : event) : Prop :=
  e = Get url 30 ∨ e = Sleep 1000 ∨ ∃ err, e = Print (FetchFailed url err).

Lemma requests_app tr1 tr2 : requests (tr1 ++ tr2) = (requests tr1 + requests tr2)%nat.
Proof. unfold requests. by rewrite List.filter_app, length_app. Qed.

Lemma fetch_attempts_trace net url retry attempts :
  (requests (fetch_attempts net url retry attempts).2 ≤ length attempts)%nat ∧
  Forall (fetch_event url) (fetch_attempts net url retry attempts).2 ∧
  (is_Some (fetch_attempts net url retry attempts).1 →
   last (fetch_attempts net url retry attempts).2 = Some (Get url 30)).
Proof.
  induction attempts as [|a later (IH1 & IH2 & IH3)]; cbn [fetch_attempts].
  - split; [done|]. split; [constructor|]. by intros [? [=]].
  - destruct (net a) as [text|e].
    + split; [cbn; lia|]. split; [|done]. constructor; [by left|constructor].
    + destruct (Z.of_nat a =? retry - 1).
      * split; [cbn; lia|]. split; [|by intros [? [=]]].
        constructor; [by left|]. constructor; [|constructor].
        right. right. by eexists.
      * destruct (fetch_attempts net url retry later) as [r tr]. cbn [fst snd] in *.
        split; [unfold requests in *; cbn [List.filter is_request length]; lia|].
        split.
        -- constructor; [by left|]. constructor; [right; by left|done].
        -- intros Hr. specialize (IH3 Hr). destruct tr as [|e0 tr]; [done|].
           by rewrite !last_cons_cons.
Qed.

(** X6.  [fetch_page], for every url, retry count and network: it makes at
    most [retry] requests; its trace holds nothing but requests to that url
    with the 30 s timeout, 1 s sleeps and the line that reports the failure;
    when it returns a body, the request that got it is the last thing it
    did; and with a retry count of 0 or less it returns [None] at once,
    without a request and without a printed line. *)
Theorem fetch_page_requests (net : network) (url : value) (retry : Z) :
  let run := fetch_page net url retry in
  (requests run.2 ≤ Z.to_nat retry)%nat ∧
  Forall (fetch_event url) run.2 ∧
  (is_Some run.1 → last run.2 = Some (Get url 30)) ∧
  (retry ≤ 0 → run = (None, [])).
Proof.
  cbn zeta. unfold fetch_page.
  destruct (fetch_attempts_trace net url retry (seq 0 (Z.to_nat retry)))
    as (H1 & H2 & H3).
  rewrite length_seq in H1. split; [done|]. split; [done|]. split; [done|].
  intros Hr. by replace (Z.to_nat retry) with 0%nat by lia.
Qed.

(** *** fetch_product_details: what it sends and what it keeps *)

Lemma fetch_page_trace net url retry :
  (requests (fetch_page net url retry).2 ≤ Z.to_nat retry)%nat ∧
  Forall (fetch_event url) (fetch_page net url retry).2.
Proof.
  unfold fetch_page.
  destruct (fetch_attempts_trace net url retry (seq 0 (Z.to_nat retry)))
    as (H1 & H2 & _).
  rewrite length_seq in H1. by split.
Qed.

Lemma fetch_event_get url url' timeout tr :
  Forall (fetch_event url) tr → Get url' timeout ∈ tr → url' = url ∧ timeout = 30.
Proof.
  intros HF Hin. apply (proj1 (Forall_forall _ _) HF) in Hin.
  destruct Hin as [[= -> ->]|[[=]|[err [=]]]]. done.
Qed.

Lemma fetch_event_last url tr : Forall (fetch_event url) tr → last tr ≠ Some (Sleep 500).
Proof.
  intros HF Hl. apply last_Some_elem_of in Hl.
  apply (proj1 (Forall_forall _ _) HF) in Hl.
  by destruct Hl as [[=]|[[=]|[err [=]]]].
Qed.

(** What the function does after the page has been fetched: nothing, a
    printed line, or the 500 ms sleep before it returns a record. *)
Inductive detail_end (product : dict) : option dict → list event → Prop :=
  | detail_silent : detail_end product None []
  | detail_line m : detail_end product None [Print m]
  | detail_record text price :
      detail_end product (Some (enrich product text price)) [Sleep 500].

Lemma fetch_product_details_run soup limit net product url :
  product !! "url" = Some url → truthy url = true →
  ∃ result ending,
    fetch_product_details soup limit net product
    = (result, (fetch_page net url 2).2 ++ ending) ∧
    detail_end product result ending.
Proof.
  intros Hu Ht. unfold fetch_product_details. rewrite Hu.
  cbn [default from_option id]. rewrite Ht. cbn [negb].
  destruct (fetch_page net url 2) as [[[|c html]|] tr]; cbn [snd].
  - exists None, []. rewrite app_nil_r. split; [done|constructor].
  - destruct (soup (c :: html)) as [text|].
    + destruct (price_match text) as [m|].
      * destruct (python_int limit (remove_char COMMA (group m 1))) as [price|].
        -- eexists _, _. split; [reflexivity|]. apply (detail_record _ text price).
        -- eexists _, _. split; [reflexivity|]. constructor.
      * eexists _, _. split; [reflexivity|]. constructor.
    + eexists _, _. split; [reflexivity|]. constructor.
  - exists None, []. rewrite app_nil_r. split; [done|constructor].
Qed.

(** X7.  [fetch_product_details], for every record and network: it makes at
    most two requests, each to the record's own url with the 30 s timeout; a
    record with no url, or an empty one, costs no request; it sleeps 500 ms
    as its last act exactly when it returns a record; and the record it
    returns is the one it was given in every key but price, memory, storage
    and release_year. *)
Theorem fetch_product_details_polite (soup : str → option str) (limit : nat)
    (net : network) (product : dict) :
  let run := fetch_product_details soup limit net product in
  (requests run.2 ≤ 2)%nat ∧
  (∀ url timeout,
      Get url timeout ∈ run.2 →
      product !! "url" = Some url ∧ truthy url = true ∧ timeout = 30) ∧
  (truthy_opt (product !! "url") = false → run = (None, [])) ∧
  (is_Some run.1 ↔ last run.2 = Some (Sleep 500)) ∧
  (∀ result key,
      run.1 = Some result → key ∉ detail_keys → result !! key = product !! key).
Proof.
  cbn zeta.
  destruct (product !! "url") as [url|] eqn:Hu; [destruct (truthy url) eqn:Ht|].
  - destruct (fetch_product_details_run soup limit net product url Hu Ht)
      as (result & ending & -> & Hend).
    destruct (fetch_page_trace net url 2) as [Hreq Hev]. cbn [fst snd].
    split.
    { rewrite requests_app. destruct Hend; cbn; lia. }
    split.
    { intros url' timeout [Hin|Hin]%elem_of_app.
      - by destruct (fetch_event_get _ _ _ _ Hev Hin) as [-> ->].
      - destruct Hend; [by apply elem_of_nil in Hin| |];
          apply list_elem_of_singleton in Hin; discriminate Hin. }
    split; [cbn [truthy_opt]; congruence|].
    split.
    { destruct Hend.
      - rewrite app_nil_r. split; [by intros [? [=]]|].
        intros Hl. exfalso. by apply (fetch_event_last url _ Hev).
      - rewrite last_snoc. split; [by intros [? [=]]|done].
      - rewrite last_snoc. split; [done|by eexists]. }
    intros result' key Hr Hk. destruct Hend; try discriminate Hr.
    injection Hr as <-. by apply enrich_other.
  - assert (fetch_product_details soup limit net product = (None, [])) as ->.
    { unfold fetch_product_details. rewrite Hu. cbn [default from_option id].
      by rewrite Ht. }
    cbn [fst snd]. split; [unfold requests; cbn; lia|].
    split; [by intros ? ? ?%elem_of_nil|]. split; [done|].
    split; [|done]. split; [by intros [? [=]]|done].
  - assert (fetch_product_details soup limit net product = (None, [])) as ->.
    { unfold fetch_product_details. by rewrite Hu. }
    cbn [fst snd]. split; [unfold requests; cbn; lia|].
    split; [by intros ? ? ?%elem_of_nil|]. split; [done|].
    split; [|done]. split; [by intros [? [=]]|done].
Qed.

(** *** process_products_parallel: what the main thread prints *)

(** The progress lines between completion [done] and completion
    [done + more]: one at every tenth. *)
Definition progress_lines (total done more : nat) : list event :=
  omap (λ completed,
          if (completed mod 10 =? 0)%nat
          then Some (Print (Progress completed total))
          else None)
       (seq (S done) more).

Lemma omap_length_le {A B} (f : A → option B) (l : list A) :
  (length (omap f l) ≤ length l)%nat.
Proof.
  induction l as [|x l IH]; cbn [omap list_omap]; [done|].
  destruct (f x); cbn [length]; lia.
Qed.

Lemma foldl_collect_log soup limit nets products order :
  Forall (λ i, i < length products)%nat order →
  ∀ completed results log,
    ∃ results',
      foldl (collect soup limit nets products) (completed, results, log) order
      = ((completed + length order)%nat, results',
         log ++ progress_lines (length products) completed (length order)).
Proof.
  induction 1 as [|i order Hi _ IH]; intros completed results log.
  - exists results. cbn [foldl length]. unfold progress_lines. cbn [seq omap list_omap].
    by rewrite Nat.add_0_r, app_nil_r.
  - cbn [foldl]. apply lookup_lt_is_Some_2 in Hi as [product Hp].
    assert (∃ results1,
              collect soup limit nets products (completed, results, log) i
              = (S completed, results1,
                 log ++ progress_lines (length products) completed 1)) as [results1 ->].
    { unfold collect. rewrite Hp. unfold progress_lines. cbn [seq omap list_omap].
      destruct (S completed mod 10 =? 0)%nat; rewrite ?app_nil_r;
        destruct ((fetch_product_details soup limit (nets i) product).1);
        try case_bool_decide; by eexists. }
    destruct (IH (S completed) results1
                (log ++ progress_lines (length products) completed 1))
      as [results' ->].
    exists results'. f_equal; [f_equal; cbn [length]; lia|].
    rewrite <-(assoc_L (++)). f_equal. unfold progress_lines.
    cbn [length seq omap list_omap].
    by destruct (S completed mod 10 =? 0)%nat.
Qed.

Lemma process_products_parallel_last soup limit nets order products :
  last (process_products_parallel soup limit nets order products).2
  = Some (Print (Finished
            (length (process_products_parallel soup limit nets order products).1)
            (length products))).
Proof.
  unfold process_products_parallel.
  destruct (foldl _ _ order) as [[completed results] log]. cbn [fst snd].
  apply last_snoc.
Qed.

(** X8.  The lines the pipeline's main thread prints, for every batch,
    every order of completion and every network: the line that announces
    the batch, the line that asks for patience, one progress line at every
    tenth completion, and the closing line with the number of records kept
    and the number submitted; and it never keeps more records than it was
    given. *)
Theorem process_products_parallel_log (soup : str → option str) (limit : nat)
    (nets : nat → network) (order : list nat) (products : list dict) :
  order ≡ₚ seq 0 (length products) →
  let run := process_products_parallel soup limit nets order products in
  run.2 = Print (Starting (length products)) :: Print PleaseWait
            :: progress_lines (length products) 0 (length products)
            ++ [Print (Finished (length run.1) (length products))] ∧
  (length run.1 ≤ length products)%nat.
Proof.
  intros Hperm. cbn zeta.
  assert (length order = length products) as Hlen.
  { by rewrite Hperm, length_seq. }
  split.
  - unfold process_products_parallel.
    destruct (foldl_collect_log soup limit nets products order) with
      (completed := 0%nat) (results := @nil dict)
      (log := [Print (Starting (length products)); Print PleaseWait])
      as [results' ->].
    { rewrite Hperm. apply Forall_forall. intros i Hi%elem_of_seq. lia. }
    cbn [fst snd]. by rewrite Hlen.
  - rewrite process_products_parallel_results, <-Hlen. apply omap_length_le.
Qed.

(** Ten candidates, in the listing's order: one progress line. *)
Lemma process_products_parallel_log_witness :
  let products := replicate 10 sample_candidate in
  let run :=
    process_products_parallel plain_text 4300 (λ _, always (u "RMB 5,999"))
                              (seq 0 10) products in
  run.2 = Print (Starting (length products)) :: Print PleaseWait
            :: progress_lines (length products) 0 (length products)
            ++ [Print (Finished (length run.1) (length products))] ∧
  (length run.1 ≤ length products)%nat.
Proof.
  apply (process_products_parallel_log plain_text 4300
           (λ _, always (u "RMB 5,999")) (seq 0 10) (replicate 10 sample_candidate)).
  reflexivity.
Defined.

(** *** main: from the listing to the frame *)

Lemma create_dataframe_columns tie p0 ps df :
  create_dataframe tie (p0 :: ps) = Ok df → df_columns df = columns_order.
Proof.
  unfold create_dataframe.
  destruct (fill_all (p0 :: ps)) as [filled|e]; [|done].
  destruct (frame_before_sort filled) as (df2 & -> & Hcols & _).
  destruct (sort_values tie "price" df2) as [df3|e] eqn:Es; [|done].
  intros H%Ok_inj. subst df. cbn [reset_index df_columns].
  by rewrite (sort_values_columns _ _ _ _ Es).
Qed.

(** A row of the frame that shows a refurbished link of the listing page
    and the price its detail page gave. *)
Definition listed_row (soup_anchors : str → list anchor) (is_word : char → bool)
    (html_content : str) (row : gmap string cell) : Prop :=
  ∃ a href price,
    a ∈ soup_anchors html_content ∧ a_href a = Some href ∧
    is_Some (search (PRODUCT_HREF is_word) href) ∧
    startswith (a_text a) REFURB_MARKER = true ∧
    row !! "title" = Some (Val (VStr (a_text a))) ∧
    row !! "url" = Some (Val (VStr (normalize_url href))) ∧
    row !! "price" = Some (Val (VInt price)) ∧ 0 ≤ price.

(** X9.  A run of [main], for every listing page, network, completion order
    and order of the sort among equal prices: [create_dataframe] never
    raises in it, as every record that reaches it has a title that is a str
    and a price that is an int; when the run ends before the pipeline (no
    page, or no candidate on it), it has made no request but those for the
    listing; when no candidate is kept, the pipeline's last line reports 0
    kept; and in the frame it makes, the columns are the canonical twelve
    and every row shows a refurbished link of the listing page, with its
    normalized URL and a price that is a non-negative integer. *)
Theorem main_frame (soup_anchors : str → list anchor) (is_word : char → bool)
    (soup : str → option str) (limit : nat) (listing : network)
    (nets : nat → network) (order : list nat) (tie : nat → nat) :
  let run := main soup_anchors is_word soup limit listing nets order tie in
  match run.1 with
  | Uncaught _ => False
  | NoPage | NoProducts =>
      run.2 = (fetch_page listing (VStr LISTING_URL) 3).2 ∧ (requests run.2 ≤ 3)%nat
  | NoDetails => ∃ submitted, last run.2 = Some (Print (Finished 0 submitted))
  | Frame df =>
      df_columns df = columns_order ∧
      ∃ html_content,
        (fetch_page listing (VStr LISTING_URL) 3).1 = Some html_content ∧
        Forall (listed_row soup_anchors is_word html_content) (df_rows df)
  end.
Proof.
  cbn zeta. unfold main.
  pose proof (fetch_page_trace listing (VStr LISTING_URL) 3) as [Hreq _].
  destruct (fetch_page listing (VStr LISTING_URL) 3) as [[[|c html]|] tr] eqn:Ef;
    cbn [fst snd] in *; [by split|..|by split].
  destruct (parse_product_list soup_anchors is_word (c :: html)) as [|p0 ps] eqn:Ep;
    cbn [fst snd]; [by split|].
  pose proof (process_products_parallel_last soup limit nets order (p0 :: ps)) as Hlast.
  pose proof (elem_of_results soup limit nets order (p0 :: ps)) as Hres.
  destruct (process_products_parallel soup limit nets order (p0 :: ps))
    as [[|r0 rs] log] eqn:Er; cbn [fst snd] in *.
  { eexists. rewrite last_app, Hlast. reflexivity. }
  assert (∀ r, r ∈ r0 :: rs →
               ∃ a href text price,
                 a ∈ soup_anchors (c :: html) ∧ a_href a = Some href ∧
                 is_Some (search (PRODUCT_HREF is_word) href) ∧
                 startswith (a_text a) REFURB_MARKER = true ∧
                 price_of_text limit text = Some price ∧
                 r = enrich (candidate (a_text a) (normalize_url href)) text price)
    as Hrec.
  { intros r Hr. apply Hres in Hr as (i & product & _ & Hi & Hf).
    apply fetch_product_details_Some in Hf as (text & price & _ & Hp & ->).
    apply list_elem_of_lookup_2 in Hi. rewrite <-Ep in Hi.
    apply parse_product_list_elem in Hi as (a & href & Ha & Hh & Hs & Ht & ->).
    by exists a, href, text, price. }
  assert (Forall enriched (r0 :: rs)) as Hen.
  { apply Forall_forall. intros r Hr.
    apply Hrec in Hr as (a & href & text & price & _ & _ & _ & _ & _ & ->). split.
    - exists (a_text a). rewrite enrich_other; [reflexivity|].
      unfold detail_keys. list_not_elem.
    - exists price. apply enrich_price. }
  destruct (create_dataframe_enriched tie (r0 :: rs))
    as (filled & df0 & indexer & Hfill & F2 & Hen' & _ & _ & _ & _ & _ & Hdf);
    [done|exact Hen|].
  pose proof (create_dataframe_columns _ _ _ _ Hdf) as Hcols.
  pose proof (λ row, create_dataframe_rows _ _ _ row Hdf) as Hrows.
  rewrite Hdf. cbn [fst snd]. split; [exact Hcols|].
  exists (c :: html). split; [done|]. apply Forall_forall. intros row Hrow.
  destruct (Hrows row Hrow) as (filled' & p & f & Hfill' & Hp & Hf & Hpf & Hc).
  assert (filled' = filled) as -> by congruence.
  apply Hrec in Hp as (a & href & text & price & Ha & Hh & Hs & Ht & Hprice & ->).
  exists a, href, price. split; [done|]. split; [done|]. split; [done|].
  split; [done|].
  assert (∀ key, key ∉ title_keys → key ∉ detail_keys →
                 f !! key = candidate (a_text a) (normalize_url href) !! key) as Hkeep.
  { intros key H1 H2. rewrite (fill_basic_details_other _ _ _ Hpf H1).
    by apply enrich_other. }
  assert (f !! "title" = Some (VStr (a_text a))) as Htitle.
  { rewrite Hkeep; [reflexivity| |]; unfold title_keys, detail_keys; list_not_elem. }
  assert (f !! "url" = Some (VStr (normalize_url href))) as Hurl.
  { rewrite Hkeep; [reflexivity| |]; unfold title_keys, detail_keys; list_not_elem. }
  assert (f !! "price" = Some (VInt price)) as Hpr.
  { rewrite (fill_basic_details_other _ _ _ Hpf);
      [apply enrich_price|unfold title_keys; list_not_elem]. }
  destruct (carries_enriched filled row f Hen' Hf Hc) as [Hrt Hrp].
  split; [|split; [|split] ].
  + by rewrite Hrt, Htitle.
  + rewrite (Hc "url"%string) by (unfold columns_order; list_elem).
    by rewrite (shown_str filled f "url" _ Hf Hurl).
  + by rewrite Hrp, Hpr.
  + by eapply price_of_text_nonneg.
Qed.
